(** * EPA rating model: a shallow embedding of [src/main.py]

    The program keeps one rating per team in a module-level dict,
    updates the ratings match by match and predicts a match from the
    current ratings.  Python numbers are embedded as they are: an [int]
    is an unbounded integer, a [float] is an IEEE-754 binary64 value
    (Rocq's primitive floats, rounding to nearest, ties to even), and
    the arithmetic operators coerce and raise as CPython's do. *)

From Stdlib Require Import ZArith Lia List String Ascii Floats Permutation Sorted.
From stdpp Require Import gmap.

Set Warnings "-inexact-float".
Local Open Scope Z_scope.

(** ** Python numbers and exceptions *)

Inductive num : Type :=
| PyInt (z : Z)
| PyFloat (f : float).

Inductive exn : Type :=
| ZeroDivisionError
| OverflowError.

Inductive res (A : Type) : Type :=
| Ok (a : A)
| Raise (e : exn).
Arguments Ok {A} a.
Arguments Raise {A} e.

#[global] Instance res_ret : MRet res := fun _ a => Ok a.
#[global] Instance res_bind : MBind res := fun _ _ k r =>
  match r with
  | Ok a => k a
  | Raise e => Raise e
  end.

(** [float(n)] for an int [n]: the nearest binary64 value, ties to even;
    [OverflowError] when that is beyond the largest finite float. *)
Definition int_to_float (z : Z) : res float :=
  let f := SF2Prim (binary_normalize prec emax z 0 false) in
  if is_infinity f then Raise OverflowError else Ok f.

(** The coercion the float operators apply to each operand. *)
Definition as_float (x : num) : res float :=
  match x with
  | PyInt z => int_to_float z
  | PyFloat f => Ok f
  end.

Definition py_add (x y : num) : res num :=
  match x, y with
  | PyInt a, PyInt b => Ok (PyInt (a + b))
  | _, _ => a ← as_float x; b ← as_float y; Ok (PyFloat (a + b))
  end.

Definition py_sub (x y : num) : res num :=
  match x, y with
  | PyInt a, PyInt b => Ok (PyInt (a - b))
  | _, _ => a ← as_float x; b ← as_float y; Ok (PyFloat (a - b))
  end.

Definition py_mul (x y : num) : res num :=
  match x, y with
  | PyInt a, PyInt b => Ok (PyInt (a * b))
  | _, _ => a ← as_float x; b ← as_float y; Ok (PyFloat (a * b))
  end.

(** [a / b] on two ints: the correctly rounded quotient (not the quotient
    of the two rounded operands), signed zero when [a = 0]. *)
Definition int_truediv (a b : Z) : res num :=
  if b =? 0 then Raise ZeroDivisionError
  else
    let s := xorb (a <? 0) (b <? 0) in
    if a =? 0 then Ok (PyFloat (if s then neg_zero else zero))
    else
      let '(q, e, l) := SFdiv_core_binary prec emax (Z.abs a) 0 (Z.abs b) 0 in
      let f := SF2Prim (binary_round_aux prec emax s q e l) in
      if is_infinity f then Raise OverflowError else Ok (PyFloat f).

Definition py_truediv (x y : num) : res num :=
  match x, y with
  | PyInt a, PyInt b => int_truediv a b
  | _, _ =>
      a ← as_float x; b ← as_float y;
      if is_zero b then Raise ZeroDivisionError else Ok (PyFloat (a / b))
  end.

(** Comparison of two numbers; an int and a float are compared by their
    exact values, [None] when a NaN is involved. *)
Definition float_int_compare (f : float) (z : Z) : option comparison :=
  match Prim2SF f with
  | S754_nan => None
  | S754_infinity s => Some (if s then Lt else Gt)
  | S754_zero _ => Some (0 ?= z)
  | S754_finite s m e =>
      let v := if s then Z.neg m else Z.pos m in
      Some (if 0 <=? e then (v * 2 ^ e ?= z) else (v ?= z * 2 ^ (- e)))
  end.

Definition num_compare (x y : num) : option comparison :=
  match x, y with
  | PyInt a, PyInt b => Some (a ?= b)
  | PyFloat f, PyInt b => float_int_compare f b
  | PyInt a, PyFloat g => option_map CompOpp (float_int_compare g a)
  | PyFloat f, PyFloat g =>
      match PrimFloat.compare f g with
      | FEq => Some Eq
      | FLt => Some Lt
      | FGt => Some Gt
      | FNotComparable => None
      end
  end.

Definition py_gt (x y : num) : bool :=
  match num_compare x y with Some Gt => true | _ => false end.

Definition py_le (x y : num) : bool :=
  match num_compare x y with Some (Lt | Eq) => true | _ => false end.

(** The built-in [sum]: the items are added left to right, starting from
    the int [0].  (CPython 3.12 and later add a compensation term when
    summing floats; on at most two items, the alliance size of the data
    model, its result is this one.) *)
Fixpoint sum_from (acc : num) (l : list num) : res num :=
  match l with
  | [] => Ok acc
  | x :: l' => acc' ← py_add acc x; sum_from acc' l'
  end.

Definition py_sum (l : list num) : res num := sum_from (PyInt 0) l.

(** ** Parameter schedule *)

Definition calculate_k_factor (match_number : Z) : res num :=
  if match_number <=? 6 then Ok (PyFloat 0.5)
  else if match_number <=? 12 then
    a ← py_truediv (PyInt 1) (PyInt 30);
    b ← py_mul a (PyInt (match_number - 6));
    py_sub (PyFloat 0.5) b
  else Ok (PyFloat 0.3).

Definition calculate_margin_parameter (match_number : Z) : res num :=
  if match_number <=? 12 then Ok (PyInt 0)
  else if match_number <=? 36 then
    py_truediv (PyInt (match_number - 12)) (PyInt 24)
  else Ok (PyInt 1).

(** ** Module state: the rating store and the default rating *)

Record globals : Type := {
  epa_scores : gmap Z num;
  DEFAULT_EPA : num
}.

(** The state of a freshly loaded module. *)
Definition initial_globals : globals :=
  {| epa_scores := ∅; DEFAULT_EPA := PyInt 80 |}.

(** Statements run on the module state and may raise; what was written
    before the exception stays written. *)
Definition M (A : Type) : Type := globals → res A * globals.

#[global] Instance M_ret : MRet M := fun _ a g => (Ok a, g).
#[global] Instance M_bind : MBind M := fun _ _ k c g =>
  match c g with
  | (Ok a, g') => k a g'
  | (Raise e, g') => (Raise e, g')
  end.

Definition lift {A : Type} (r : res A) : M A := fun g => (r, g).

(** [epa_scores.get(team, DEFAULT_EPA)] *)
Definition epa_scores_get (g : globals) (team : Z) : num :=
  default (DEFAULT_EPA g) (epa_scores g !! team).

Definition get_epa (team : Z) : M num := fun g => (Ok (epa_scores_get g team), g).

(** [epa_scores[team] = v] *)
Definition set_epa (team : Z) (v : num) : M unit := fun g =>
  (Ok tt, {| epa_scores := <[team := v]> (epa_scores g);
             DEFAULT_EPA := DEFAULT_EPA g |}).

(** [DEFAULT_EPA = v] *)
Definition set_DEFAULT_EPA (v : num) : M unit := fun g =>
  (Ok tt, {| epa_scores := epa_scores g; DEFAULT_EPA := v |}).

(** [sum(epa_scores.get(team, DEFAULT_EPA) for team in teams)] *)
Definition sum_epa (teams : list Z) : M num := fun g =>
  (py_sum (map (epa_scores_get g) teams), g).

(** [for x in l: body] *)
Fixpoint for_each {A : Type} (l : list A) (body : A → M unit) : M unit :=
  match l with
  | [] => mret tt
  | x :: l' => body x;; for_each l' body
  end.

(** ** Rating update *)

(** [(own_score - own_total) - margin * (opp_score - opp_total)] *)
Definition surprise (own_score own_total opp_score opp_total margin : num)
  : res num :=
  a ← py_sub own_score own_total;
  b ← py_sub opp_score opp_total;
  c ← py_mul margin b;
  py_sub a c.

(** [old_epa + (k_factor / (1 + margin)) * surprise_factor / size] *)
Definition adjusted (old_epa k_factor margin surprise_factor : num) (size : nat)
  : res num :=
  d ← py_add (PyInt 1) margin;
  e ← py_truediv k_factor d;
  f ← py_mul e surprise_factor;
  h ← py_truediv f (PyInt (Z.of_nat size));
  py_add old_epa h.

Definition update_epa (red_team_ids blue_team_ids : list Z)
    (red_actual_score blue_actual_score k_factor margin : num) : M unit :=
  red_total_epa ← sum_epa red_team_ids;
  blue_total_epa ← sum_epa blue_team_ids;
  for_each red_team_ids (fun team =>
    old_epa ← get_epa team;
    surprise_factor ← lift (surprise red_actual_score red_total_epa
                              blue_actual_score blue_total_epa margin);
    new_epa ← lift (adjusted old_epa k_factor margin surprise_factor
                      (length red_team_ids));
    set_epa team new_epa);;
  for_each blue_team_ids (fun team =>
    old_epa ← get_epa team;
    surprise_factor ← lift (surprise blue_actual_score blue_total_epa
                              red_actual_score red_total_epa margin);
    new_epa ← lift (adjusted old_epa k_factor margin surprise_factor
                      (length blue_team_ids));
    set_epa team new_epa).

(** ** Match records

    A match is the JSON object of the results provider.  The keys read
    with [.get(key, default)] may be absent; a team entry is indexed
    with [team["teamNumber"]] and [team["station"]], so both are there. *)

Record team_entry : Type := {
  teamNumber : Z;
  station : string
}.

Record match_record : Type := {
  teams : option (list team_entry);
  scoreRedFinal : option num;
  scoreBlueFinal : option num;
  actualStartTime : option string
}.

(** [[team["teamNumber"] for team in match.get("teams", [])
      if team["station"].startswith(colour)]] *)
Definition alliance (colour : string) (mtch : match_record) : list Z :=
  map teamNumber
    (List.filter (fun team => String.prefix colour (station team))
       (default [] (teams mtch))).

Definition process_match (mtch : match_record) (match_number : Z) : M unit :=
  k_factor ← lift (calculate_k_factor match_number);
  margin ← lift (calculate_margin_parameter match_number);
  let red_team_ids := alliance "Red" mtch in
  let blue_team_ids := alliance "Blue" mtch in
  let red_actual_score := default (PyInt 0) (scoreRedFinal mtch) in
  let blue_actual_score := default (PyInt 0) (scoreBlueFinal mtch) in
  update_epa red_team_ids blue_team_ids red_actual_score blue_actual_score
    k_factor margin.

(** ** Baseline estimator *)

(** The loop of [calculate_default_epa], on its two accumulators. *)
Fixpoint default_epa_loop (matches : list match_record)
    (total_scores : num) (total_teams : Z) : res (num * Z) :=
  match matches with
  | [] => Ok (total_scores, total_teams)
  | mtch :: rest =>
      let red_score := default (PyInt 0) (scoreRedFinal mtch) in
      let blue_score := default (PyInt 0) (scoreBlueFinal mtch) in
      s ← py_add red_score blue_score;
      total_scores' ← py_add total_scores s;
      default_epa_loop rest total_scores' (total_teams + 4)
  end.

Definition calculate_default_epa (matches : list match_record) : res num :=
  '(total_scores, total_teams) ← default_epa_loop matches (PyInt 0) 0;
  if 0 <? total_teams then py_truediv total_scores (PyInt total_teams)
  else Ok (PyInt 60).

(** ** Schedule ordering and the event loop *)

(** [m.get("actualStartTime", "")] *)
Definition start_key (mtch : match_record) : string :=
  default EmptyString (actualStartTime mtch).

(** [sorted(l, key=key)]: ascending by key, items with equal keys in
    their input order.  Any stable sort returns this list; it is written
    here as insertion from the right. *)
Fixpoint insert_by {A : Type} (key : A → string) (x : A) (l : list A) : list A :=
  match l with
  | [] => [x]
  | y :: l' =>
      if String.ltb (key y) (key x) then y :: insert_by key x l'
      else x :: y :: l'
  end.

Fixpoint sorted {A : Type} (key : A → string) (l : list A) : list A :=
  match l with
  | [] => []
  | x :: l' => insert_by key x (sorted key l')
  end.

(** [enumerate(l, start)] *)
Fixpoint enumerate {A : Type} (start : Z) (l : list A) : list (Z * A) :=
  match l with
  | [] => []
  | x :: l' => (start, x) :: enumerate (start + 1) l'
  end.

(** The inner loop of [main]: the matches of one event in chronological
    order, numbered from 1. *)
Definition process_matches (matches : list match_record) : M unit :=
  for_each (enumerate 1 (sorted start_key matches))
    (fun '(match_number, mtch) => process_match mtch match_number).

(** The body of the loop over the events in [main], for the matches that
    [fetch_matches] returned for one event. *)
Definition process_event (matches : list match_record) : M unit :=
  default_epa ← lift (calculate_default_epa matches);
  set_DEFAULT_EPA default_epa;;
  process_matches matches.

Definition process_events (events : list (list match_record)) : M unit :=
  for_each events process_event.

(** ** Prediction *)

Record prediction : Type := {
  predicted_red_score : num;
  predicted_blue_score : num;
  predicted_margin : num;
  red_win_prob : num;
  blue_win_prob : num;
  winner : string
}.

Section Prediction.

(** The C library's [pow], which CPython calls for a finite non-zero
    exponent and a positive base other than one.  Its rounding is the
    platform's, so it stays a parameter. *)
Variable libm_pow : float → float → float.

(** [10 ** y] on a float exponent ([float_pow] of CPython): the special
    cases are decided before [pow] is called, and a result out of range
    is an [OverflowError].  From the exponent 309 on the power is beyond
    the largest finite float whatever the platform. *)
Definition float_pow_10 (y : float) : res float :=
  if is_zero y then Ok 1%float
  else if is_nan y then Ok y
  else if is_infinity y then Ok (if (0 <? y)%float then infinity else 0%float)
  else if (309 <=? y)%float then Raise OverflowError
  else
    let r := libm_pow 10 y in
    if is_infinity r then Raise OverflowError else Ok r.

(** [10 ** y] *)
Definition py_pow_10 (y : num) : res num :=
  match y with
  | PyInt n =>
      if 0 <=? n then Ok (PyInt (10 ^ n))
      else f ← int_to_float n; r ← float_pow_10 f; Ok (PyFloat r)
  | PyFloat f => r ← float_pow_10 f; Ok (PyFloat r)
  end.

Definition calculate_win_probability (red_epa_total blue_epa_total : num)
  : res (num * num) :=
  d ← py_sub blue_epa_total red_epa_total;
  q ← py_truediv d (PyInt 400);
  p ← py_pow_10 q;
  s ← py_add (PyInt 1) p;
  blue_win_prob ← py_truediv (PyInt 1) s;
  red_win_prob ← py_sub (PyInt 1) blue_win_prob;
  Ok (red_win_prob, blue_win_prob).

Definition predict_match_result (red_team1 red_team2 blue_team1 blue_team2 : Z)
  : M prediction :=
  red_epa1 ← get_epa red_team1;
  red_epa2 ← get_epa red_team2;
  blue_epa1 ← get_epa blue_team1;
  blue_epa2 ← get_epa blue_team2;
  total_red_epa ← lift (py_add red_epa1 red_epa2);
  total_blue_epa ← lift (py_add blue_epa1 blue_epa2);
  predicted_margin ← lift (py_sub total_red_epa total_blue_epa);
  win_probabilities ← lift (calculate_win_probability total_red_epa total_blue_epa);
  let winner :=
    if py_gt predicted_margin (PyInt 0) then "Red Alliance"%string
    else "Blue Alliance"%string in
  mret {| predicted_red_score := total_red_epa;
          predicted_blue_score := total_blue_epa;
          predicted_margin := predicted_margin;
          red_win_prob := fst win_probabilities;
          blue_win_prob := snd win_probabilities;
          winner := winner |}.

End Prediction.

(** ** The authorization header

    A [str] is the list of its code points and a [bytes] the list of its
    byte values.  [str.encode()] and [bytes.decode()] are the strict UTF-8
    codec and [base64.b64encode] is the encoding of RFC 4648 with padding
    and without line breaks. *)

Inductive codec_exn : Type :=
| UnicodeEncodeError
| UnicodeDecodeError.

Inductive codec (A : Type) : Type :=
| Coded (a : A)
| CodecError (e : codec_exn).
Arguments Coded {A} a.
Arguments CodecError {A} e.

#[global] Instance codec_ret : MRet codec := fun _ a => Coded a.
#[global] Instance codec_bind : MBind codec := fun _ _ k r =>
  match r with
  | Coded a => k a
  | CodecError e => CodecError e
  end.

(** The UTF-8 bytes of one code point; a surrogate has none. *)
Definition utf8_char (c : Z) : codec (list Z) :=
  if c <? 128 then Coded [c]
  else if c <? 2048 then Coded [192 + c / 64; 128 + c mod 64]
  else if c <? 65536 then
    if (55296 <=? c) && (c <=? 57343) then CodecError UnicodeEncodeError
    else Coded [224 + c / 4096; 128 + c / 64 mod 64; 128 + c mod 64]
  else Coded [240 + c / 262144; 128 + c / 4096 mod 64;
              128 + c / 64 mod 64; 128 + c mod 64].

(** [s.encode()] *)
Fixpoint str_encode (s : list Z) : codec (list Z) :=
  match s with
  | [] => Coded []
  | c :: s' => bs ← utf8_char c; rest ← str_encode s'; Coded (bs ++ rest)
  end.

(** A continuation byte. *)
Definition continuation (b : Z) : bool := (128 <=? b) && (b <=? 191).

(** The byte that may follow the first byte [b0] of a sequence of three
    or four bytes: no overlong form, no surrogate, nothing above
    U+10FFFF. *)
Definition second_byte (b0 b1 : Z) : bool :=
  if b0 =? 224 then (160 <=? b1) && (b1 <=? 191)
  else if b0 =? 237 then (128 <=? b1) && (b1 <=? 159)
  else if b0 =? 240 then (144 <=? b1) && (b1 <=? 191)
  else if b0 =? 244 then (128 <=? b1) && (b1 <=? 143)
  else continuation b1.

(** [bs.decode()] *)
Fixpoint bytes_decode (bs : list Z) : codec (list Z) :=
  match bs with
  | [] => Coded []
  | b0 :: r0 =>
      if b0 <? 128 then s ← bytes_decode r0; Coded (b0 :: s)
      else if (194 <=? b0) && (b0 <=? 223) then
        match r0 with
        | b1 :: r1 =>
            if continuation b1 then
              s ← bytes_decode r1; Coded ((b0 - 192) * 64 + (b1 - 128) :: s)
            else CodecError UnicodeDecodeError
        | _ => CodecError UnicodeDecodeError
        end
      else if (224 <=? b0) && (b0 <=? 239) then
        match r0 with
        | b1 :: b2 :: r2 =>
            if second_byte b0 b1 && continuation b2 then
              s ← bytes_decode r2;
              Coded ((b0 - 224) * 4096 + (b1 - 128) * 64 + (b2 - 128) :: s)
            else CodecError UnicodeDecodeError
        | _ => CodecError UnicodeDecodeError
        end
      else if (240 <=? b0) && (b0 <=? 244) then
        match r0 with
        | b1 :: b2 :: b3 :: r3 =>
            if second_byte b0 b1 && continuation b2 && continuation b3 then
              s ← bytes_decode r3;
              Coded ((b0 - 240) * 262144 + (b1 - 128) * 4096
                     + (b2 - 128) * 64 + (b3 - 128) :: s)
            else CodecError UnicodeDecodeError
        | _ => CodecError UnicodeDecodeError
        end
      else CodecError UnicodeDecodeError
  end.

(** The code points of an ASCII literal. *)
Definition literal (s : string) : list Z :=
  map (fun a => Z.of_N (N_of_ascii a)) (list_ascii_of_string s).

Definition b64_alphabet : list Z :=
  literal "ABCDEFGHIJKLMNOPQRSTUVWXYZabcdefghijklmnopqrstuvwxyz0123456789+/".

(** The character of a group of six bits. *)
Definition b64_char (sextet : Z) : Z := nth (Z.to_nat sextet) b64_alphabet 61.

(** [base64.b64encode(bs)]: three bytes give four characters; one or two
    bytes left over give two or three characters and the padding [=]. *)
Fixpoint b64encode (bs : list Z) : list Z :=
  match bs with
  | [] => []
  | [a] => [b64_char (a / 4); b64_char (a mod 4 * 16); 61; 61]
  | [a; b] =>
      [b64_char (a / 4); b64_char (a mod 4 * 16 + b / 16);
       b64_char (b mod 16 * 4); 61]
  | a :: b :: c :: rest =>
      b64_char (a / 4) :: b64_char (a mod 4 * 16 + b / 16)
      :: b64_char (b mod 16 * 4 + c / 64) :: b64_char (c mod 64)
      :: b64encode rest
  end.

Definition encode_authorization (username auth_key : list Z) : codec (list Z) :=
  let combined_string := username ++ 58 :: auth_key in
  encoded ← str_encode combined_string;
  bytes_decode (b64encode encoded).

(** * Specifications

    What the properties are stated with: the specification's formulas in
    Python arithmetic, the frame and the snapshot of an update, the order
    of the schedule, and the data of the examples. *)

(** ** Parameter schedule *)

(** The match numbers [lo], [lo + 1], ..., [k] of them. *)
Fixpoint upto (lo : Z) (k : nat) : list Z :=
  match k with
  | O => []
  | S k' => lo :: upto (lo + 1) k'
  end.

(** The K-factor as the specification words it, in Python arithmetic. *)
Definition k_spec (n : Z) : res num :=
  if n <=? 6 then Ok (PyFloat 0.5)
  else if n <=? 12 then
    q ← py_truediv (PyInt (n - 6)) (PyInt 30);
    py_sub (PyFloat 0.5) q
  else Ok (PyFloat 0.3).

(** [a <= b] on two results that are numbers. *)
Definition res_le (a b : res num) : bool :=
  match a, b with
  | Ok x, Ok y => py_le x y
  | _, _ => false
  end.

(** ** Frame and snapshot of an update *)

(** [frames dom c]: running [c] leaves the default rating alone and
    changes no team's entry outside [dom], whether [c] returns or raises. *)
Definition frames {A : Type} (dom : Z → Prop) (c : M A) : Prop :=
  ∀ g, DEFAULT_EPA (c g).2 = DEFAULT_EPA g
       ∧ ∀ t, ¬ dom t → epa_scores (c g).2 !! t = epa_scores g !! t.

(** The rating [update_epa] would give [team] when everything is read from
    the state [g]: the alliance totals are arguments, the old rating is
    [g]'s. *)
Definition new_rating (g : globals)
    (own_score own_total opp_score opp_total k_factor margin : num)
    (size : nat) (team : Z) : res num :=
  surprise_factor ← surprise own_score own_total opp_score opp_total margin;
  adjusted (epa_scores_get g team) k_factor margin surprise_factor size.

(** All the ratings of one call, computed from the state [g] alone, in the
    order in which the call writes them. *)
Definition snapshot (g : globals) (red blue : list Z) (rs bs k m : num)
  : res (list (Z * res num)) :=
  red_total ← py_sum (map (epa_scores_get g) red);
  blue_total ← py_sum (map (epa_scores_get g) blue);
  Ok (map (fun t => (t, new_rating g rs red_total bs blue_total k m (length red) t)) red
      ++ map (fun t => (t, new_rating g bs blue_total rs red_total k m (length blue) t)) blue).

(** Writing computed ratings one after the other, up to the first that is
    an exception. *)
Fixpoint commit (writes : list (Z * res num)) : M unit :=
  match writes with
  | [] => mret tt
  | (t, r) :: rest => v ← lift r; set_epa t v;; commit rest
  end.

(** The body of either loop of [update_epa]. *)
Definition update_team (own_score own_total opp_score opp_total k m : num)
    (size : nat) (team : Z) : M unit :=
  old_epa ← get_epa team;
  surprise_factor ← lift (surprise own_score own_total opp_score opp_total m);
  new_epa ← lift (adjusted old_epa k m surprise_factor size);
  set_epa team new_epa.

(** A team holds rating 80, as the int the module starts with or as a
    float. *)
Definition rated_80 (g : globals) (t : Z) : Prop :=
  epa_scores_get g t = PyInt 80 ∨ epa_scores_get g t = PyFloat 80.

(** ** Numbers that float arithmetic accepts *)

(** The number is a float. *)
Definition is_float (x : num) : Prop :=
  match x with PyFloat _ => True | PyInt _ => False end.

(** The number converts to a float: a float, or an int in the float range. *)
Definition in_float_range (x : num) : Prop := ∃ f, as_float x = Ok f.

(** A margin parameter the update divides by: [m] converts to a float and
    [1 + m] is not zero. *)
Definition margin_ok (m : num) : Prop :=
  in_float_range m
  ∧ ∃ d df, py_add (PyInt 1) m = Ok d ∧ as_float d = Ok df ∧ is_zero df = false.

(** ** Baseline estimator *)

(** [match.get("scoreRedFinal", 0) + match.get("scoreBlueFinal", 0)] *)
Definition match_points (mtch : match_record) : res num :=
  py_add (default (PyInt 0) (scoreRedFinal mtch))
         (default (PyInt 0) (scoreBlueFinal mtch)).

(** The points of all matches, added match by match in input order, as
    the specification words the numerator. *)
Fixpoint total_points_from (acc : num) (matches : list match_record) : res num :=
  match matches with
  | [] => Ok acc
  | mtch :: rest =>
      s ← match_points mtch;
      acc' ← py_add acc s;
      total_points_from acc' rest
  end.

Definition total_points (matches : list match_record) : res num :=
  total_points_from (PyInt 0) matches.

(** The integer scores of a match, when both are ints or absent. *)
Definition int_points (mtch : match_record) : option Z :=
  match default (PyInt 0) (scoreRedFinal mtch),
        default (PyInt 0) (scoreBlueFinal mtch) with
  | PyInt r, PyInt b => Some (r + b)
  | _, _ => None
  end.


(** ** Schedule ordering *)

(** [x] may stand before [y]: the key of [y] is not smaller. *)
Definition key_le {A : Type} (key : A → string) (x y : A) : Prop :=
  String.ltb (key y) (key x) = false.

Definition ascending {A : Type} (key : A → string) (l : list A) : Prop :=
  StronglySorted (key_le key) l.

(** The items of [l] whose key is [ts], in their order in [l]. *)
Definition tied {A : Type} (key : A → string) (ts : string) (l : list A) : list A :=
  List.filter (fun x => String.eqb (key x) ts) l.

(** Two matches of one event that start at the same time and share team 1,
    and one that starts earlier. *)
Definition match_a : match_record :=
  {| teams := Some [ {| teamNumber := 1; station := "Red1" |};
                     {| teamNumber := 2; station := "Red2" |};
                     {| teamNumber := 3; station := "Blue1" |};
                     {| teamNumber := 4; station := "Blue2" |} ];
     scoreRedFinal := Some (PyInt 100);
     scoreBlueFinal := Some (PyInt 50);
     actualStartTime := Some "2024-11-02T10:00:00"%string |}.

Definition match_b : match_record :=
  {| teams := Some [ {| teamNumber := 1; station := "Red1" |};
                     {| teamNumber := 5; station := "Red2" |};
                     {| teamNumber := 6; station := "Blue1" |};
                     {| teamNumber := 7; station := "Blue2" |} ];
     scoreRedFinal := Some (PyInt 20);
     scoreBlueFinal := Some (PyInt 30);
     actualStartTime := Some "2024-11-02T10:00:00"%string |}.

Definition match_c : match_record :=
  {| teams := Some [ {| teamNumber := 2; station := "Red1" |};
                     {| teamNumber := 6; station := "Red2" |};
                     {| teamNumber := 3; station := "Blue1" |};
                     {| teamNumber := 5; station := "Blue2" |} ];
     scoreRedFinal := Some (PyInt 64);
     scoreBlueFinal := Some (PyInt 71);
     actualStartTime := Some "2024-11-02T09:30:00"%string |}.

(** ** Binary64 rounding *)

(** Rounding [m / 2 ^ n] to the nearest integer, ties to even. *)
Definition rne (m n : Z) : Z :=
  let q := m / 2 ^ n in
  let rho := m mod 2 ^ n in
  let h := 2 ^ (n - 1) in
  if rho <? h then q
  else if h <? rho then q + 1
  else if Z.even q then q else q + 1.

Abbreviation two52 := 4503599627370496%Z.
Abbreviation two53 := 9007199254740992%Z.

Abbreviation SF_one := (S754_finite false 4503599627370496 (-52)).

(** ** Prediction *)

(** The prediction as the specification words it, from the four ratings
    read. *)
Definition predict_spec (libm_pow : float → float → float)
    (red1 red2 blue1 blue2 : num) : res prediction :=
  red_total ← py_add red1 red2;
  blue_total ← py_add blue1 blue2;
  margin ← py_sub red_total blue_total;
  d ← py_sub blue_total red_total;
  q ← py_truediv d (PyInt 400);
  p ← py_pow_10 libm_pow q;
  s ← py_add (PyInt 1) p;
  blue_prob ← py_truediv (PyInt 1) s;
  red_prob ← py_sub (PyInt 1) blue_prob;
  Ok {| predicted_red_score := red_total;
        predicted_blue_score := blue_total;
        predicted_margin := margin;
        red_win_prob := red_prob;
        blue_win_prob := blue_prob;
        winner := if py_gt margin (PyInt 0) then "Red Alliance"
                  else "Blue Alliance" |}.

(** A state in which team 3 is rated 125000. *)
Definition far_apart : globals :=
  {| epa_scores := {[ 3 := PyFloat 125000 ]}; DEFAULT_EPA := PyInt 80 |}.

(** A state in which both alliances total 150. *)
Definition level_state : globals :=
  {| epa_scores := {[ 1 := PyFloat 70; 3 := PyFloat 70 ]}; DEFAULT_EPA := PyInt 80 |}.

(** ** Exceptions, store and order *)

(** The number is not zero. *)
Definition nonzero (x : num) : Prop :=
  match x with
  | PyInt z => z ≠ 0
  | PyFloat f => is_zero f = false
  end.

(** The result is not a [ZeroDivisionError]. *)
Definition no_zero_division {A : Type} (r : res A) : Prop :=
  match r with
  | Raise ZeroDivisionError => False
  | _ => True
  end.

(** [writes dom P c]: wherever [c] leaves a store entry other than it
    was, the team is in [dom] and the new entry is a rating with [P],
    whether [c] returns or raises.  So [c] removes no entry. *)
Definition writes {A : Type} (dom : Z → Prop) (P : num → Prop) (c : M A) : Prop :=
  ∀ g t, epa_scores (c g).2 !! t = epa_scores g !! t
         ∨ (dom t ∧ ∃ v, epa_scores (c g).2 !! t = Some v ∧ P v).

(** When [c] returns, every team in [dom] has an entry with [P]. *)
Definition covers {A : Type} (dom : Z → Prop) (P : num → Prop) (c : M A) : Prop :=
  ∀ g a g', c g = (Ok a, g') →
            ∀ t, dom t → ∃ v, epa_scores g' !! t = Some v ∧ P v.

(** The teams of a match, red alliance first. *)
Definition participants (mtch : match_record) : list Z :=
  alliance "Red" mtch ++ alliance "Blue" mtch.

(** The teams of the matches of one event, and of all events. *)
Definition event_teams (matches : list match_record) : list Z :=
  concat (map participants matches).

Definition all_teams (events : list (list match_record)) : list Z :=
  concat (map event_teams events).

(** The matches of [l] that have a non-empty start time, in their order
    in [l]. *)
Definition timed (l : list match_record) : list match_record :=
  List.filter (fun mtch => negb (String.eqb (start_key mtch) "")) l.

(** ** Schedule and prediction *)

(** [k_factor / (1 + margin)], the step of [update_epa], for the
    parameters that [process_match] passes at a match number. *)
Definition gain (match_number : Z) : res num :=
  k_factor ← calculate_k_factor match_number;
  margin ← calculate_margin_parameter match_number;
  d ← py_add (PyInt 1) margin;
  py_truediv k_factor d.

(** The match number with the same parameters among 6, ..., 37. *)
Definition clamp (n : Z) : Z := Z.max 6 (Z.min 37 n).

(** Both alliances total the same: the same int, or the same finite
    float. *)
Definition level (red_total blue_total : num) : Prop :=
  (∃ z, red_total = PyInt z ∧ blue_total = PyInt z)
  ∨ (∃ x, red_total = PyFloat x ∧ blue_total = PyFloat x ∧ is_finite x = true).

(** The parameters of a match number are a float K-factor and a finite
    margin parameter, and the step [k / (1 + m)] is finite. *)
Definition schedule_finite (n : Z) : bool :=
  match calculate_k_factor n, calculate_margin_parameter n with
  | Ok (PyFloat k), Ok m =>
      match as_float m, py_add (PyInt 1) m ≫= as_float with
      | Ok mf, Ok df => is_finite mf && negb (is_zero df) && is_finite (k / df)
      | _, _ => false
      end
  | _, _ => false
  end.

(** ** Reading a header back *)

(** The data invariants of [str] and [bytes], and the surrogates. *)
Definition is_str (s : list Z) : Prop := Forall (fun c => 0 ≤ c < 1114112) s.

Definition is_bytes (bs : list Z) : Prop := Forall (fun b => 0 ≤ b < 256) bs.

Definition surrogate (c : Z) : Prop := 55296 ≤ c ≤ 57343.

(** Reading a header back, as the receiver of a Basic authorization does:
    the position of a character in the alphabet, the bytes of a padded
    Base64 text, and the text of the bytes. *)
Fixpoint index_of (x : Z) (l : list Z) (i : Z) : option Z :=
  match l with
  | [] => None
  | y :: l' => if x =? y then Some i else index_of x l' (i + 1)
  end.

Definition b64_index (ch : Z) : option Z := index_of ch b64_alphabet 0.

Fixpoint b64decode (cs : list Z) : option (list Z) :=
  match cs with
  | [] => Some []
  | c0 :: c1 :: c2 :: c3 :: rest =>
      s0 ← b64_index c0; s1 ← b64_index c1;
      if c2 =? 61 then
        match rest with
        | [] => if c3 =? 61 then Some [s0 * 4 + s1 / 16] else None
        | _ => None
        end
      else
        s2 ← b64_index c2;
        if c3 =? 61 then
          match rest with
          | [] => Some [s0 * 4 + s1 / 16; s1 mod 16 * 16 + s2 / 4]
          | _ => None
          end
        else
          s3 ← b64_index c3; bs ← b64decode rest;
          Some (s0 * 4 + s1 / 16 :: s1 mod 16 * 16 + s2 / 4
                :: s2 mod 4 * 64 + s3 :: bs)
  | _ => None
  end.

Definition decode_authorization (header : list Z) : option (list Z) :=
  match str_encode header with
  | Coded cs =>
      bs ← b64decode cs;
      match bytes_decode bs with
      | Coded s => Some s
      | CodecError _ => None
      end
  | CodecError _ => None
  end.

(** The text before and the text after the first colon. *)
Fixpoint split_colon (s : list Z) : option (list Z * list Z) :=
  match s with
  | [] => None
  | c :: s' =>
      if c =? 58 then Some ([], s')
      else '(u, k) ← split_colon s'; Some (c :: u, k)
  end.

(** ** Absent scores *)








(** * Properties *)

(** ** Integer ranges, for the schedule's finitely many interpolated cases *)

Lemma in_upto (k : nat) : ∀ lo n, lo ≤ n < lo + Z.of_nat k → In n (upto lo k).
Proof.
  induction k as [|k IH]; intros lo n Hn; simpl.
  - lia.
  - destruct (Z.eq_dec lo n) as [->|Hne]; [now left|].
    right. apply IH. lia.
Qed.

Lemma range_cases (P : Z → Prop) (lo : Z) (k : nat) :
  Forall P (upto lo k) → ∀ n, lo ≤ n < lo + Z.of_nat k → P n.
Proof.
  intros HP n Hn. eapply (proj1 (List.Forall_forall P _)); eauto using in_upto.
Qed.

(** ** Parameter schedule *)

Ltac each_case tac :=
  lazymatch goal with
  | |- Forall _ [] => constructor
  | |- Forall _ (_ :: _) => constructor; [tac | each_case tac]
  | |- Forall _ _ => cbn [upto]; each_case tac
  end.

Example k_factor_8 : calculate_k_factor 8 = Ok (PyFloat 0.43333333333333335).
Proof. vm_compute. reflexivity. Qed.

Lemma k_factor_interpolated (n : Z) :
  7 ≤ n ≤ 12 →
  calculate_k_factor n = k_spec n
  ∧ ∃ k, calculate_k_factor n = Ok (PyFloat k)
         ∧ (0.3 <=? k)%float = true ∧ (k <=? 0.5)%float = true.
Proof.
  intros Hn. assert (H : 7 ≤ n < 7 + Z.of_nat 6) by lia.
  clear Hn. revert n H. apply range_cases.
  each_case ltac:(split;
    [ vm_compute; reflexivity
    | eexists; split; [vm_compute; reflexivity | split; vm_compute; reflexivity] ]).
Qed.

(** C4. The K-factor is 0.5 up to match 6, [0.5 - (n - 6) / 30] from match
    7 to match 12 and 0.3 afterwards; it always lies between 0.3 and 0.5. *)
Theorem calculate_k_factor_schedule (n : Z) :
  (n ≤ 6 → calculate_k_factor n = Ok (PyFloat 0.5))
  ∧ (7 ≤ n ≤ 12 →
       calculate_k_factor n
       = (q ← py_truediv (PyInt (n - 6)) (PyInt 30); py_sub (PyFloat 0.5) q))
  ∧ (12 < n → calculate_k_factor n = Ok (PyFloat 0.3))
  ∧ (1 ≤ n →
       ∃ k, calculate_k_factor n = Ok (PyFloat k)
            ∧ (0.3 <=? k)%float = true ∧ (k <=? 0.5)%float = true).
Proof.
  repeat split.
  - intros Hn. unfold calculate_k_factor.
    now rewrite (proj2 (Z.leb_le n 6) Hn).
  - intros Hn. destruct (k_factor_interpolated n Hn) as [-> _].
    unfold k_spec.
    rewrite (proj2 (Z.leb_gt n 6)) by lia.
    now rewrite (proj2 (Z.leb_le n 12)) by lia.
  - intros Hn. unfold calculate_k_factor.
    rewrite (proj2 (Z.leb_gt n 6)) by lia.
    now rewrite (proj2 (Z.leb_gt n 12)) by lia.
  - intros _.
    destruct (Z_le_gt_dec n 6) as [H6|H6]; [|destruct (Z_le_gt_dec n 12) as [H12|H12]].
    + exists 0.5%float. unfold calculate_k_factor.
      rewrite (proj2 (Z.leb_le n 6) H6). now vm_compute.
    + apply k_factor_interpolated. lia.
    + exists 0.3%float. unfold calculate_k_factor.
      rewrite (proj2 (Z.leb_gt n 6)) by lia.
      rewrite (proj2 (Z.leb_gt n 12)) by lia. now vm_compute.
Qed.

Lemma calculate_k_factor_schedule_witness :
  calculate_k_factor 3 = Ok (PyFloat 0.5)
  ∧ calculate_k_factor 9 = Ok (PyFloat 0.4)
  ∧ calculate_k_factor 40 = Ok (PyFloat 0.3)
  ∧ ∃ k, calculate_k_factor 11 = Ok (PyFloat k)
         ∧ (0.3 <=? k)%float = true ∧ (k <=? 0.5)%float = true.
Proof.
  destruct (calculate_k_factor_schedule 3) as (H3 & _).
  destruct (calculate_k_factor_schedule 9) as (_ & H9 & _).
  destruct (calculate_k_factor_schedule 40) as (_ & _ & H40 & _).
  destruct (calculate_k_factor_schedule 11) as (_ & _ & _ & H11).
  split; [apply H3; lia|].
  split; [rewrite H9 by lia; vm_compute; reflexivity|].
  split; [apply H40; lia|].
  apply H11; lia.
Defined.

Lemma margin_interpolated (n : Z) :
  13 ≤ n ≤ 36 →
  ∃ f, calculate_margin_parameter n = Ok (PyFloat f)
       ∧ (0 <=? f)%float = true ∧ (f <=? 1)%float = true.
Proof.
  intros Hn. assert (H : 13 ≤ n < 13 + Z.of_nat 24) by lia.
  clear Hn. revert n H. apply range_cases.
  each_case ltac:(eexists; split;
    [vm_compute; reflexivity | split; vm_compute; reflexivity]).
Qed.

Lemma margin_interpolated_monotone :
  forallb (fun n1 =>
    forallb (fun n2 =>
      (n2 <? n1)
      || res_le (calculate_margin_parameter n1) (calculate_margin_parameter n2))
      (upto 13 24))
    (upto 13 24) = true.
Proof. vm_compute. reflexivity. Qed.

(** C5. The margin parameter is 0 up to match 12, [(n - 12) / 24] from
    match 13 to match 36 and 1 afterwards; it does not decrease from match
    13 to match 36; it is 0 at match 12 and 1 at match 36. *)
Theorem calculate_margin_parameter_schedule :
  (∀ n, n ≤ 12 → calculate_margin_parameter n = Ok (PyInt 0))
  ∧ (∀ n, 13 ≤ n ≤ 36 →
       calculate_margin_parameter n = py_truediv (PyInt (n - 12)) (PyInt 24)
       ∧ ∃ f, calculate_margin_parameter n = Ok (PyFloat f))
  ∧ (∀ n, 36 < n → calculate_margin_parameter n = Ok (PyInt 1))
  ∧ (∀ n1 n2, 13 ≤ n1 → n1 ≤ n2 → n2 ≤ 36 →
       ∃ a b, calculate_margin_parameter n1 = Ok a
              ∧ calculate_margin_parameter n2 = Ok b
              ∧ py_le a b = true)
  ∧ calculate_margin_parameter 12 = Ok (PyInt 0)
  ∧ calculate_margin_parameter 36 = Ok (PyFloat 1).
Proof.
  split; [|split; [|split; [|split; [|split]]]].
  - intros n Hn. unfold calculate_margin_parameter.
    now rewrite (proj2 (Z.leb_le n 12) Hn).
  - intros n Hn. split.
    + unfold calculate_margin_parameter.
      rewrite (proj2 (Z.leb_gt n 12)) by lia.
      now rewrite (proj2 (Z.leb_le n 36)) by lia.
    + destruct (margin_interpolated n Hn) as (f & Hf & _). now exists f.
  - intros n Hn. unfold calculate_margin_parameter.
    rewrite (proj2 (Z.leb_gt n 12)) by lia.
    now rewrite (proj2 (Z.leb_gt n 36)) by lia.
  - intros n1 n2 H1 H12 H2.
    pose proof margin_interpolated_monotone as Hall.
    rewrite forallb_forall in Hall.
    specialize (Hall n1 (in_upto 24 13 n1 ltac:(lia))).
    rewrite forallb_forall in Hall.
    specialize (Hall n2 (in_upto 24 13 n2 ltac:(lia))).
    rewrite (proj2 (Z.ltb_ge n2 n1) H12) in Hall. simpl in Hall.
    unfold res_le in Hall.
    destruct (calculate_margin_parameter n1) as [a|]; [|discriminate].
    destruct (calculate_margin_parameter n2) as [b|]; [|discriminate].
    now exists a, b.
  - reflexivity.
  - vm_compute. reflexivity.
Qed.

Lemma calculate_margin_parameter_schedule_witness :
  calculate_margin_parameter 5 = Ok (PyInt 0)
  ∧ calculate_margin_parameter 24 = Ok (PyFloat 0.5)
  ∧ calculate_margin_parameter 50 = Ok (PyInt 1)
  ∧ ∃ a b, calculate_margin_parameter 13 = Ok a
           ∧ calculate_margin_parameter 30 = Ok b ∧ py_le a b = true.
Proof.
  destruct calculate_margin_parameter_schedule as (H0 & Hmid & H1 & Hmono & _).
  split; [apply H0; lia|].
  split; [rewrite (proj1 (Hmid 24 ltac:(lia))); vm_compute; reflexivity|].
  split; [apply H1; lia|].
  apply Hmono; lia.
Defined.

(** ** What a statement may write *)

Section Frames.
Context {A B : Type} (dom : Z → Prop).

Lemma frames_ret (a : A) : frames dom (mret a).
Proof. now intros g. Qed.

Lemma frames_lift (r : res A) : frames dom (lift r).
Proof. now intros g. Qed.

Lemma frames_get_epa (t : Z) : frames dom (get_epa t).
Proof. now intros g. Qed.

Lemma frames_sum_epa (l : list Z) : frames dom (sum_epa l).
Proof. now intros g. Qed.

Lemma frames_set_epa (t : Z) (v : num) : dom t → frames dom (set_epa t v).
Proof.
  intros Ht g. split; [reflexivity|].
  intros t' Ht'. cbn. apply lookup_insert_ne. congruence.
Qed.

Lemma frames_bind (c : M A) (k : A → M B) :
  frames dom c → (∀ a, frames dom (k a)) → frames dom (c ≫= k).
Proof.
  intros Hc Hk g. specialize (Hc g).
  unfold mbind, M_bind. destruct (c g) as [[a|e] g']; cbn in *.
  - destruct (Hk a g') as [Hd Hs]. destruct Hc as [Hd' Hs']. split.
    + congruence.
    + intros t Ht. rewrite Hs, Hs'; auto.
  - exact Hc.
Qed.
End Frames.

Lemma frames_for_each {A : Type} (dom : Z → Prop) (l : list A) (body : A → M unit) :
  (∀ x, In x l → frames dom (body x)) → frames dom (for_each l body).
Proof.
  induction l as [|x l IH]; intros Hbody; cbn [for_each].
  - apply frames_ret.
  - apply frames_bind.
    + apply Hbody. now left.
    + intros _. apply IH. intros y Hy. apply Hbody. now right.
Qed.

Lemma frames_update_epa (red blue : list Z) (rs bs k m : num) :
  frames (fun t => In t red ∨ In t blue) (update_epa red blue rs bs k m).
Proof.
  unfold update_epa.
  apply frames_bind; [apply frames_sum_epa|intros rt].
  apply frames_bind; [apply frames_sum_epa|intros bt].
  apply frames_bind; [|intros _]; apply frames_for_each; intros t Ht;
    (apply frames_bind; [apply frames_get_epa|intros old]);
    (apply frames_bind; [apply frames_lift|intros s]);
    (apply frames_bind; [apply frames_lift|intros v]);
    apply frames_set_epa; auto.
Qed.

(** C7. A call of [update_epa] leaves the store entry of every team that
    is in neither alliance as it was: the same rating, or still absent. *)
Theorem update_epa_frame (red blue : list Z) (rs bs k m : num) (g : globals) (t : Z) :
  ¬ In t red → ¬ In t blue →
  epa_scores (update_epa red blue rs bs k m g).2 !! t = epa_scores g !! t.
Proof.
  intros Hr Hb. apply (frames_update_epa red blue rs bs k m g). tauto.
Qed.

Lemma update_epa_frame_witness :
  epa_scores
    (update_epa [1; 2] [3; 4] (PyInt 100) (PyInt 50) (PyFloat 0.5) (PyInt 0)
       {| epa_scores := {[ 5 := PyFloat 71.25 ]}; DEFAULT_EPA := PyInt 80 |}).2
    !! 5 = Some (PyFloat 71.25)
  ∧ epa_scores
      (update_epa [1; 2] [3; 4] (PyInt 100) (PyInt 50) (PyFloat 0.5) (PyInt 0)
         {| epa_scores := {[ 5 := PyFloat 71.25 ]}; DEFAULT_EPA := PyInt 80 |}).2
      !! 6 = None.
Proof.
  split.
  - rewrite (update_epa_frame [1; 2] [3; 4]); [reflexivity| |];
      cbn; intuition discriminate.
  - rewrite (update_epa_frame [1; 2] [3; 4]); [reflexivity| |];
      cbn; intuition discriminate.
Defined.

(** ** Simultaneity of the update *)

Lemma commit_app (w1 w2 : list (Z * res num)) (g : globals) :
  commit (w1 ++ w2) g = (commit w1;; commit w2) g.
Proof.
  revert g. induction w1 as [|[t r] w1 IH]; intros g; cbn.
  - reflexivity.
  - unfold mbind, M_bind, lift in *. destruct r as [v|e]; cbn.
    + apply IH.
    + reflexivity.
Qed.

Lemma frames_commit (writes : list (Z * res num)) :
  frames (fun t => In t (map fst writes)) (commit writes).
Proof.
  induction writes as [|[t r] ws IH]; cbn [commit].
  - apply frames_ret.
  - apply frames_bind; [apply frames_lift|intros v].
    apply frames_bind; [apply frames_set_epa; now left|intros _].
    intros g. destruct (IH g) as [Hd Hs]. split; [exact Hd|].
    intros t' Ht'. apply Hs. intros Hin. apply Ht'. now right.
Qed.

Lemma epa_scores_get_frame (g g' : globals) (t : Z) :
  DEFAULT_EPA g' = DEFAULT_EPA g →
  epa_scores g' !! t = epa_scores g !! t →
  epa_scores_get g' t = epa_scores_get g t.
Proof. unfold epa_scores_get. now intros -> ->. Qed.

Lemma update_team_run (own_score own_total opp_score opp_total k m : num)
    (size : nat) (team : Z) (g : globals) :
  update_team own_score own_total opp_score opp_total k m size team g
  = match new_rating g own_score own_total opp_score opp_total k m size team with
    | Ok v => set_epa team v g
    | Raise e => (Raise e, g)
    end.
Proof.
  unfold update_team, new_rating, mbind, M_bind, res_bind, get_epa, lift.
  destruct (surprise _ _ _ _ _) as [s|e]; [|reflexivity].
  now destruct (adjusted _ _ _ _ _) as [v|e].
Qed.

Lemma commit_cons_run (t : Z) (r : res num) (rest : list (Z * res num)) (g : globals) :
  commit ((t, r) :: rest) g
  = match r with
    | Ok v => commit rest (set_epa t v g).2
    | Raise e => (Raise e, g)
    end.
Proof. cbn. unfold mbind, M_bind, lift. now destruct r. Qed.

Lemma new_rating_agree (g g0 : globals)
    (own_score own_total opp_score opp_total k m : num) (size : nat) (t : Z) :
  epa_scores_get g t = epa_scores_get g0 t →
  new_rating g own_score own_total opp_score opp_total k m size t
  = new_rating g0 own_score own_total opp_score opp_total k m size t.
Proof. unfold new_rating. now intros ->. Qed.

(** One loop of [update_epa], started in a state [g] that still agrees
    with the pre-call state [g0] on the teams of the loop. *)
Lemma for_each_commit (g0 : globals)
    (own_score own_total opp_score opp_total k m : num) (size : nat) :
  ∀ (l : list Z) (g : globals),
    NoDup l →
    (∀ t, In t l → epa_scores_get g t = epa_scores_get g0 t) →
    for_each l (update_team own_score own_total opp_score opp_total k m size) g
    = commit
        (map (fun t => (t, new_rating g0 own_score own_total opp_score opp_total k m size t)) l)
        g.
Proof.
  induction l as [|t l IH]; intros g Hnd Hagree; [reflexivity|].
  apply NoDup_cons in Hnd as [Hnotin Hnd].
  cbn [for_each map]. rewrite commit_cons_run.
  unfold mbind at 1, M_bind at 1. rewrite update_team_run.
  rewrite (new_rating_agree g g0) by (apply Hagree; now left).
  destruct (new_rating g0 _ _ _ _ _ _ _ _) as [v|e]; [|reflexivity].
  cbn. apply IH; [exact Hnd|].
  intros t' Ht'. rewrite <- (Hagree t') by now right.
  apply epa_scores_get_frame; [reflexivity|].
  cbn. apply lookup_insert_ne. intros ->. apply Hnotin.
  now apply list_elem_of_In.
Qed.

Lemma update_epa_unfold (red blue : list Z) (rs bs k m : num) (g : globals) :
  update_epa red blue rs bs k m g
  = match py_sum (map (epa_scores_get g) red) with
    | Raise e => (Raise e, g)
    | Ok red_total =>
        match py_sum (map (epa_scores_get g) blue) with
        | Raise e => (Raise e, g)
        | Ok blue_total =>
            (for_each red (update_team rs red_total bs blue_total k m (length red));;
             for_each blue (update_team bs blue_total rs red_total k m (length blue))) g
        end
    end.
Proof.
  unfold update_epa. unfold mbind at 1, M_bind at 1, sum_epa at 1.
  destruct (py_sum (map (epa_scores_get g) red)) as [rt|e]; [|reflexivity].
  unfold mbind at 1, M_bind at 1, sum_epa at 1.
  now destruct (py_sum (map (epa_scores_get g) blue)) as [bt|e].
Qed.

Lemma snapshot_unfold (red blue : list Z) (rs bs k m : num) (g : globals) :
  snapshot g red blue rs bs k m
  = match py_sum (map (epa_scores_get g) red) with
    | Raise e => Raise e
    | Ok rt =>
        match py_sum (map (epa_scores_get g) blue) with
        | Raise e => Raise e
        | Ok bt =>
            Ok (map (fun t => (t, new_rating g rs rt bs bt k m (length red) t)) red
                ++ map (fun t => (t, new_rating g bs bt rs rt k m (length blue) t)) blue)
        end
    end.
Proof. reflexivity. Qed.

(** The two loops of a call on duplicate-free, disjoint alliances write
    exactly the ratings of the snapshot taken before the call. *)
Lemma update_epa_commit (red blue : list Z) (rs bs k m : num) (g : globals) :
  NoDup (red ++ blue) →
  update_epa red blue rs bs k m g
  = match snapshot g red blue rs bs k m with
    | Ok writes => commit writes g
    | Raise e => (Raise e, g)
    end.
Proof.
  intros Hnd. apply NoDup_app in Hnd as (Hred & Hdisj & Hblue).
  rewrite update_epa_unfold, snapshot_unfold.
  destruct (py_sum (map (epa_scores_get g) red)) as [rt|e]; [|reflexivity].
  destruct (py_sum (map (epa_scores_get g) blue)) as [bt|e]; [|reflexivity].
  rewrite commit_app. unfold mbind, M_bind.
  rewrite (for_each_commit g) by auto.
  pose proof (frames_commit
    (map (fun t => (t, new_rating g rs rt bs bt k m (length red) t)) red) g)
    as [Hd Hs].
  destruct (commit _ g) as [[[]|e] g'] eqn:Hrun; [|reflexivity].
  cbn in Hd, Hs. apply for_each_commit; [exact Hblue|].
  intros t Ht. apply epa_scores_get_frame; [exact Hd|].
  apply Hs. rewrite map_map, map_id. cbn.
  intros Hin. apply (Hdisj t); now apply list_elem_of_In.
Qed.

Lemma commit_written (writes : list (Z * res num)) :
  ∀ (g g' : globals),
    NoDup (map fst writes) →
    commit writes g = (Ok tt, g') →
    ∀ t r, In (t, r) writes → ∃ v, r = Ok v ∧ epa_scores g' !! t = Some v.
Proof.
  induction writes as [|[t0 r0] ws IH]; intros g g' Hnd Hrun t r Hin; [easy|].
  cbn [map fst] in Hnd. apply NoDup_cons in Hnd as [Hnotin Hnd].
  rewrite commit_cons_run in Hrun.
  destruct r0 as [v0|e]; [|discriminate].
  destruct Hin as [[= <- <-]|Hin].
  - exists v0. split; [reflexivity|].
    destruct (frames_commit ws (set_epa t0 v0 g).2) as [_ Hs].
    rewrite Hrun in Hs. cbn in Hs. rewrite Hs.
    + apply lookup_insert_eq.
    + intros Hin. apply Hnotin. now apply list_elem_of_In.
  - eapply IH; eauto.
Qed.

(** C2. On duplicate-free, disjoint alliances a call of [update_epa] writes
    for every team the rating computed from the state before the call:
    both alliance totals and the team's old rating are those of that
    state, whatever was already written during the call. *)
Theorem update_epa_simultaneous (red blue : list Z) (rs bs k m : num) (g : globals) :
  NoDup (red ++ blue) →
  update_epa red blue rs bs k m g
  = match snapshot g red blue rs bs k m with
    | Ok writes => commit writes g
    | Raise e => (Raise e, g)
    end
  ∧ ∀ g', update_epa red blue rs bs k m g = (Ok tt, g') →
      ∃ red_total blue_total,
        py_sum (map (epa_scores_get g) red) = Ok red_total
        ∧ py_sum (map (epa_scores_get g) blue) = Ok blue_total
        ∧ (∀ t, In t red →
             ∃ v, new_rating g rs red_total bs blue_total k m (length red) t = Ok v
                  ∧ epa_scores g' !! t = Some v)
        ∧ (∀ t, In t blue →
             ∃ v, new_rating g bs blue_total rs red_total k m (length blue) t = Ok v
                  ∧ epa_scores g' !! t = Some v).
Proof.
  intros Hnd. split; [now apply update_epa_commit|].
  intros g' Hrun. rewrite update_epa_commit, snapshot_unfold in Hrun by exact Hnd.
  destruct (py_sum (map (epa_scores_get g) red)) as [rt|e]; [|discriminate].
  destruct (py_sum (map (epa_scores_get g) blue)) as [bt|e]; [|discriminate].
  exists rt, bt. split; [reflexivity|]. split; [reflexivity|].
  assert (Hfst : NoDup (map fst
      (map (fun t => (t, new_rating g rs rt bs bt k m (length red) t)) red
       ++ map (fun t => (t, new_rating g bs bt rs rt k m (length blue) t)) blue))).
  { rewrite map_app, !map_map. cbn. now rewrite !map_id. }
  split; intros t Ht.
  - destruct (commit_written _ g g' Hfst Hrun t
        (new_rating g rs rt bs bt k m (length red) t)) as (v & Hv & Hl).
    + apply in_or_app. left. apply in_map_iff. now exists t.
    + now exists v.
  - destruct (commit_written _ g g' Hfst Hrun t
        (new_rating g bs bt rs rt k m (length blue) t)) as (v & Hv & Hl).
    + apply in_or_app. right. apply in_map_iff. now exists t.
    + now exists v.
Qed.

Lemma update_epa_simultaneous_witness :
  update_epa [1; 2] [3; 4] (PyInt 100) (PyInt 50) (PyFloat 0.3) (PyFloat 0.5)
    {| epa_scores := {[ 1 := PyFloat 70; 3 := PyFloat 90 ]}; DEFAULT_EPA := PyInt 80 |}
  = commit [(1, Ok (PyFloat 71)); (2, Ok (PyFloat 81));
            (3, Ok (PyFloat 80.5)); (4, Ok (PyFloat 70.5))]
      {| epa_scores := {[ 1 := PyFloat 70; 3 := PyFloat 90 ]}; DEFAULT_EPA := PyInt 80 |}.
Proof.
  refine (eq_trans (proj1 (update_epa_simultaneous [1; 2] [3; 4] _ _ _ _ _ _)) _).
  - apply (bool_decide_unpack _). vm_compute. reflexivity.
  - vm_compute. reflexivity.
Defined.

(** ** The worked example *)

Lemma example_snapshot (g : globals) :
  rated_80 g 1 → rated_80 g 2 → rated_80 g 3 → rated_80 g 4 →
  snapshot g [1; 2] [3; 4] (PyInt 100) (PyInt 50) (PyFloat 0.5) (PyInt 0)
  = Ok [(1, Ok (PyFloat 65)); (2, Ok (PyFloat 65));
        (3, Ok (PyFloat 52.5)); (4, Ok (PyFloat 52.5))].
Proof.
  unfold snapshot, new_rating. cbn [map length app].
  intros [E1|E1] [E2|E2] [E3|E3] [E4|E4]; rewrite E1, E2, E3, E4;
    vm_compute; reflexivity.
Qed.

(** C1. Red teams 1 and 2, blue teams 3 and 4, all four rated 80, scores
    100 to 50, k = 0.5 and m = 0: the call returns, teams 1 and 2 are then
    rated 65 and teams 3 and 4 are rated 52.5. *)
Theorem update_epa_example (g : globals) :
  rated_80 g 1 → rated_80 g 2 → rated_80 g 3 → rated_80 g 4 →
  py_sum (map (epa_scores_get g) [1; 2]) ≫= as_float = Ok 160%float
  ∧ py_sum (map (epa_scores_get g) [3; 4]) ≫= as_float = Ok 160%float
  ∧ ∃ g', update_epa [1; 2] [3; 4] (PyInt 100) (PyInt 50) (PyFloat 0.5) (PyInt 0) g
        = (Ok tt, g')
        ∧ epa_scores g' !! 1 = Some (PyFloat 65)
        ∧ epa_scores g' !! 2 = Some (PyFloat 65)
        ∧ epa_scores g' !! 3 = Some (PyFloat 52.5)
        ∧ epa_scores g' !! 4 = Some (PyFloat 52.5).
Proof.
  intros H1 H2 H3 H4.
  split; [|split].
  1, 2: cbn [map]; destruct H1 as [E1|E1], H2 as [E2|E2], H3 as [E3|E3], H4 as [E4|E4];
    rewrite ?E1, ?E2, ?E3, ?E4; vm_compute; reflexivity.
  assert (Hnd : NoDup ([1; 2] ++ [3; 4])).
  { apply (bool_decide_unpack _). vm_compute. reflexivity. }
  rewrite (update_epa_commit _ _ _ _ _ _ _ Hnd), example_snapshot by assumption.
  eexists. split; [reflexivity|].
  cbn. repeat split; simplify_map_eq; reflexivity.
Qed.

Lemma update_epa_example_witness :
  py_sum (map (epa_scores_get initial_globals) [1; 2]) ≫= as_float = Ok 160%float
  ∧ py_sum (map (epa_scores_get initial_globals) [3; 4]) ≫= as_float = Ok 160%float
  ∧ ∃ g', update_epa [1; 2] [3; 4] (PyInt 100) (PyInt 50) (PyFloat 0.5) (PyInt 0)
          initial_globals
        = (Ok tt, g')
        ∧ epa_scores g' !! 1 = Some (PyFloat 65)
        ∧ epa_scores g' !! 2 = Some (PyFloat 65)
        ∧ epa_scores g' !! 3 = Some (PyFloat 52.5)
        ∧ epa_scores g' !! 4 = Some (PyFloat 52.5).
Proof.
  apply update_epa_example; left; reflexivity.
Defined.

(** ** Baseline estimator *)

Lemma default_epa_loop_spec (matches : list match_record) :
  ∀ acc n,
    default_epa_loop matches acc n
    = (t ← total_points_from acc matches;
       Ok (t, n + 4 * Z.of_nat (length matches))).
Proof.
  induction matches as [|mtch rest IH]; intros acc n.
  - cbn. do 2 f_equal. lia.
  - cbn [default_epa_loop total_points_from length]. unfold match_points.
    destruct (py_add (default _ (scoreRedFinal mtch)) _) as [s|e]; [|reflexivity].
    cbn. destruct (py_add acc s) as [acc'|e]; [|reflexivity].
    cbn. rewrite IH.
    now replace (n + 4 + 4 * Z.of_nat (length rest))
      with (n + 4 * Z.of_nat (S (length rest))) by lia.
Qed.

Lemma calculate_default_epa_nonempty (matches : list match_record) :
  matches ≠ [] →
  calculate_default_epa matches
  = (t ← total_points matches;
     py_truediv t (PyInt (4 * Z.of_nat (length matches)))).
Proof.
  intros Hne. unfold calculate_default_epa, total_points.
  rewrite default_epa_loop_spec.
  destruct (total_points_from (PyInt 0) matches) as [t|e]; [|reflexivity].
  cbn. destruct matches as [|mtch rest]; [congruence|].
  cbn [length]. now destruct (0 <? _) eqn:Hpos; [|apply Z.ltb_ge in Hpos; lia].
Qed.

Lemma total_points_from_int (matches : list match_record) :
  ∀ acc points,
    Forall2 (fun mtch p => int_points mtch = Some p) matches points →
    total_points_from (PyInt acc) matches = Ok (PyInt (acc + fold_right Z.add 0 points)).
Proof.
  induction matches as [|mtch rest IH]; intros acc points Hall;
    inversion Hall as [|? p ? ps Hp Hrest]; subst.
  - cbn. do 2 f_equal. lia.
  - cbn [total_points_from fold_right]. unfold match_points.
    unfold int_points in Hp.
    destruct (default _ (scoreRedFinal mtch)) as [r|]; [|discriminate].
    destruct (default _ (scoreBlueFinal mtch)) as [b|]; [|discriminate].
    injection Hp as <-. cbn. rewrite (IH _ ps Hrest). do 2 f_equal. lia.
Qed.

(** C6. The baseline is the points of all matches divided by four times
    the number of matches, whatever teams the matches list; it is 60 for
    no match, and 45 for one match scored 100 to 80. *)
Theorem calculate_default_epa_spec :
  calculate_default_epa [] = Ok (PyInt 60)
  ∧ (∀ matches, matches ≠ [] →
       calculate_default_epa matches
       = (t ← total_points matches;
          py_truediv t (PyInt (4 * Z.of_nat (length matches)))))
  ∧ (∀ matches points, matches ≠ [] →
       Forall2 (fun mtch p => int_points mtch = Some p) matches points →
       calculate_default_epa matches
       = int_truediv (fold_right Z.add 0 points) (4 * Z.of_nat (length matches)))
  ∧ (∀ tms start,
       calculate_default_epa
         [ {| teams := tms; scoreRedFinal := Some (PyInt 100);
              scoreBlueFinal := Some (PyInt 80); actualStartTime := start |} ]
       = Ok (PyFloat 45)).
Proof.
  split; [reflexivity|]. split; [exact calculate_default_epa_nonempty|].
  split.
  - intros matches points Hne Hall.
    rewrite calculate_default_epa_nonempty by exact Hne.
    unfold total_points. now rewrite (total_points_from_int _ 0 points Hall).
  - intros tms start. vm_compute. reflexivity.
Qed.

Lemma calculate_default_epa_spec_witness :
  calculate_default_epa
    [ {| teams := None; scoreRedFinal := Some (PyInt 100);
         scoreBlueFinal := Some (PyInt 80); actualStartTime := None |};
      {| teams := Some []; scoreRedFinal := None;
         scoreBlueFinal := Some (PyInt 31); actualStartTime := None |} ]
  = int_truediv (fold_right Z.add 0 [180; 31]) (4 * Z.of_nat 2).
Proof.
  refine (proj1 (proj2 (proj2 calculate_default_epa_spec)) [_; _] [180; 31] _ _).
  - discriminate.
  - repeat constructor.
Defined.

(** ** Absent scores *)



Lemma calculate_k_factor_returns (n : Z) : ∃ k, calculate_k_factor n = Ok (PyFloat k).
Proof.
  destruct (Z_le_gt_dec n 6) as [H6|H6]; [|destruct (Z_le_gt_dec n 12) as [H12|H12]].
  - exists 0.5%float. unfold calculate_k_factor.
    now rewrite (proj2 (Z.leb_le n 6) H6).
  - destruct (k_factor_interpolated n ltac:(lia)) as (_ & k & Hk & _). now exists k.
  - exists 0.3%float. unfold calculate_k_factor.
    rewrite (proj2 (Z.leb_gt n 6)) by lia.
    now rewrite (proj2 (Z.leb_gt n 12)) by lia.
Qed.


(** Match processing returns: the ratings read are floats, as they are
    once an event's baseline has been computed, and each alliance has one
    or two teams. *)





Lemma margin_ok_interpolated (n : Z) :
  13 ≤ n ≤ 36 → ∃ m, calculate_margin_parameter n = Ok m ∧ margin_ok m.
Proof.
  intros Hn. assert (H : 13 ≤ n < 13 + Z.of_nat 24) by lia.
  clear Hn. revert n H. apply range_cases.
  each_case ltac:(eexists; split; [vm_compute; reflexivity|];
    split; [eexists; vm_compute; reflexivity|];
    do 2 eexists; split; [vm_compute; reflexivity|];
    split; vm_compute; reflexivity).
Qed.

Lemma calculate_margin_parameter_ok (n : Z) :
  ∃ m, calculate_margin_parameter n = Ok m ∧ margin_ok m.
Proof.
  destruct (Z_le_gt_dec n 12) as [H12|H12]; [|destruct (Z_le_gt_dec n 36) as [H36|H36]].
  - exists (PyInt 0). unfold calculate_margin_parameter.
    rewrite (proj2 (Z.leb_le n 12) H12). split; [reflexivity|].
    split; [now exists 0%float|]. now exists (PyInt 1), 1%float.
  - apply margin_ok_interpolated. lia.
  - exists (PyInt 1). unfold calculate_margin_parameter.
    rewrite (proj2 (Z.leb_gt n 12)) by lia.
    rewrite (proj2 (Z.leb_gt n 36)) by lia. split; [reflexivity|].
    split; [now exists 1%float|]. now exists (PyInt 2), 2%float.
Qed.

Lemma py_truediv_float_l (k : float) (d : num) (df : float) :
  as_float d = Ok df → is_zero df = false →
  py_truediv (PyFloat k) d = Ok (PyFloat (k / df)).
Proof.
  intros Hdf Hnz. unfold py_truediv.
  destruct d; rewrite Hdf; unfold as_float, mbind, res_bind; now rewrite Hnz.
Qed.







(** ** The default rating before any event *)

Lemma epa_scores_get_initial (t : Z) : epa_scores_get initial_globals t = PyInt 80.
Proof. unfold epa_scores_get. cbn. now rewrite lookup_empty. Qed.

Lemma sum_from_default (d : Z) (l : list Z) :
  ∀ acc, sum_from (PyInt acc) (map (fun _ => PyInt d) l)
         = Ok (PyInt (acc + d * Z.of_nat (length l))).
Proof.
  induction l as [|t l IH]; intros acc; cbn [map sum_from length].
  - do 2 f_equal. lia.
  - cbn. rewrite IH. do 2 f_equal. lia.
Qed.

Lemma sum_initial (l : list Z) :
  py_sum (map (epa_scores_get initial_globals) l)
  = Ok (PyInt (80 * Z.of_nat (length l))).
Proof.
  unfold py_sum.
  rewrite (map_ext _ (fun _ => PyInt 80)) by apply epa_scores_get_initial.
  now rewrite sum_from_default.
Qed.

(** C10. In the freshly loaded module the default rating is 80 and no team
    has an entry, so [predict_match_result] reads 80 for each of its four
    teams and [update_epa] computes both totals and every old rating
    from 80. *)
Theorem initial_default_epa :
  DEFAULT_EPA initial_globals = PyInt 80
  ∧ (∀ t, epa_scores initial_globals !! t = None
          ∧ epa_scores_get initial_globals t = PyInt 80)
  ∧ (∀ libm_pow r1 r2 b1 b2,
       predict_match_result libm_pow r1 r2 b1 b2 initial_globals
       = (Ok {| predicted_red_score := PyInt 160;
                predicted_blue_score := PyInt 160;
                predicted_margin := PyInt 0;
                red_win_prob := PyFloat 0.5;
                blue_win_prob := PyFloat 0.5;
                winner := "Blue Alliance" |},
          initial_globals))
  ∧ (∀ red blue rs bs k m,
       NoDup (red ++ blue) →
       update_epa red blue rs bs k m initial_globals
       = commit
           (map (fun t =>
                   (t, s ← surprise rs (PyInt (80 * Z.of_nat (length red)))
                             bs (PyInt (80 * Z.of_nat (length blue))) m;
                       adjusted (PyInt 80) k m s (length red))) red
            ++ map (fun t =>
                   (t, s ← surprise bs (PyInt (80 * Z.of_nat (length blue)))
                             rs (PyInt (80 * Z.of_nat (length red))) m;
                       adjusted (PyInt 80) k m s (length blue))) blue)
           initial_globals).
Proof.
  split; [reflexivity|]. split; [|split].
  - intros t. split; [apply lookup_empty|apply epa_scores_get_initial].
  - intros libm_pow r1 r2 b1 b2.
    unfold predict_match_result, mbind, M_bind, get_epa.
    rewrite !epa_scores_get_initial. vm_compute. reflexivity.
  - intros red blue rs bs k m Hnd.
    rewrite update_epa_commit, snapshot_unfold, !sum_initial by exact Hnd.
    reflexivity.
Qed.

Lemma initial_default_epa_witness :
  update_epa [7; 8] [9] (PyInt 30) (PyInt 12) (PyFloat 0.5) (PyInt 0) initial_globals
  = commit
      (map (fun t =>
              (t, s ← surprise (PyInt 30) (PyInt (80 * Z.of_nat 2))
                        (PyInt 12) (PyInt (80 * Z.of_nat 1)) (PyInt 0);
                  adjusted (PyInt 80) (PyFloat 0.5) (PyInt 0) s 2)) [7; 8]
       ++ map (fun t =>
              (t, s ← surprise (PyInt 12) (PyInt (80 * Z.of_nat 1))
                        (PyInt 30) (PyInt (80 * Z.of_nat 2)) (PyInt 0);
                  adjusted (PyInt 80) (PyFloat 0.5) (PyInt 0) s 1)) [9])
      initial_globals.
Proof.
  refine (proj2 (proj2 (proj2 initial_default_epa)) [7; 8] [9] _ _ _ _ _).
  apply (bool_decide_unpack _). vm_compute. reflexivity.
Defined.

(** ** Schedule ordering *)

Lemma string_compare_refl (s : string) : String.compare s s = Eq.
Proof.
  pose proof (String.compare_antisym s s) as H.
  now destruct (String.compare s s).
Qed.

Lemma ascii_compare_lt_trans (a b c : ascii) :
  Ascii.compare a b = Lt → Ascii.compare b c = Lt → Ascii.compare a c = Lt.
Proof.
  unfold Ascii.compare. rewrite !N.compare_lt_iff. lia.
Qed.

Lemma string_compare_lt_trans (s1 : string) :
  ∀ s2 s3, String.compare s1 s2 = Lt → String.compare s2 s3 = Lt →
           String.compare s1 s3 = Lt.
Proof.
  induction s1 as [|a s1 IH]; intros [|b s2] [|c s3]; cbn; try easy.
  destruct (Ascii.compare a b) eqn:Hab; try easy;
    destruct (Ascii.compare b c) eqn:Hbc; try easy; intros H12 H23.
  - apply Ascii.compare_eq_iff in Hab, Hbc. subst.
    rewrite (proj2 (N.compare_eq_iff _ _) eq_refl : Ascii.compare c c = Eq).
    now apply (IH s2).
  - apply Ascii.compare_eq_iff in Hab. subst. now rewrite Hbc.
  - apply Ascii.compare_eq_iff in Hbc. subst. now rewrite Hab.
  - now rewrite (ascii_compare_lt_trans a b c).
Qed.

Section StableSort.
Context {A : Type} (key : A → string).

Lemma key_le_refl (x : A) : key_le key x x.
Proof. unfold key_le, String.ltb. now rewrite string_compare_refl. Qed.

Lemma key_lt_le (x y : A) : String.ltb (key x) (key y) = true → key_le key x y.
Proof.
  unfold key_le, String.ltb. rewrite (String.compare_antisym (key x)).
  now destruct (String.compare (key y) (key x)).
Qed.

Lemma key_le_antisym (x y : A) : key_le key x y → key_le key y x → key x = key y.
Proof.
  unfold key_le, String.ltb. rewrite (String.compare_antisym (key x)).
  destruct (String.compare (key y) (key x)) eqn:E; try easy.
  intros _ _. symmetry. now apply String.compare_eq_iff.
Qed.

Lemma key_le_trans (x y z : A) : key_le key x y → key_le key y z → key_le key x z.
Proof.
  unfold key_le, String.ltb. intros Hxy Hyz.
  destruct (String.compare (key z) (key x)) eqn:Hzx; try reflexivity.
  exfalso.
  destruct (String.compare (key y) (key x)) eqn:Hyx; try discriminate.
  - apply String.compare_eq_iff in Hyx. rewrite Hyx in Hyz.
    now rewrite Hzx in Hyz.
  - assert (Hxy' : String.compare (key x) (key y) = Lt).
    { rewrite String.compare_antisym, Hyx. reflexivity. }
    now rewrite (string_compare_lt_trans _ _ _ Hzx Hxy') in Hyz.
Qed.

Lemma Forall_insert_by (P : A → Prop) (x : A) (l : list A) :
  P x → Forall P l → Forall P (insert_by key x l).
Proof.
  intros Hx. induction 1 as [|y l Hy Hl IH]; cbn.
  - now constructor.
  - destruct (String.ltb (key y) (key x)); repeat constructor; auto.
Qed.

Lemma insert_by_ascending (x : A) (l : list A) :
  ascending key l → ascending key (insert_by key x l).
Proof.
  induction 1 as [|y l Hl IH Hy]; cbn.
  - repeat constructor.
  - destruct (String.ltb (key y) (key x)) eqn:Hlt.
    + constructor; [exact IH|].
      apply Forall_insert_by; [now apply key_lt_le|exact Hy].
    + constructor; [now constructor|].
      constructor; [exact Hlt|].
      eapply List.Forall_impl; [|exact Hy].
      intros z Hz. now apply (key_le_trans x y z).
Qed.

Lemma sorted_ascending (l : list A) : ascending key (sorted key l).
Proof.
  induction l as [|x l IH]; cbn; [constructor|now apply insert_by_ascending].
Qed.

(** Stability: among the items of one key, insertion keeps [x] first. *)
Lemma tied_insert_by (ts : string) (x : A) (l : list A) :
  tied key ts (insert_by key x l) = tied key ts (x :: l).
Proof.
  unfold tied. induction l as [|y l IH]; cbn; [reflexivity|].
  destruct (String.ltb (key y) (key x)) eqn:Hlt; [|reflexivity].
  cbn. rewrite IH. cbn.
  destruct (String.eqb (key x) ts) eqn:Hx, (String.eqb (key y) ts) eqn:Hy;
    try reflexivity.
  apply String.eqb_eq in Hx, Hy. rewrite Hx, Hy in Hlt.
  unfold String.ltb in Hlt. now rewrite string_compare_refl in Hlt.
Qed.

Lemma tied_sorted (ts : string) (l : list A) :
  tied key ts (sorted key l) = tied key ts l.
Proof.
  induction l as [|x l IH]; cbn [sorted]; [reflexivity|].
  rewrite tied_insert_by. unfold tied in *. cbn. now rewrite IH.
Qed.

Lemma tied_head (x : A) (l : list A) : tied key (key x) (x :: l) = x :: tied key (key x) l.
Proof. unfold tied. cbn. now rewrite String.eqb_refl. Qed.

Lemma tied_In (ts : string) (x : A) (l : list A) : In x (tied key ts l) → In x l.
Proof. unfold tied. rewrite filter_In. tauto. Qed.

(** An ascending list is determined by its runs of equal keys. *)
Lemma ascending_unique (l1 : list A) :
  ∀ l2, ascending key l1 → ascending key l2 →
        (∀ ts, tied key ts l1 = tied key ts l2) → l1 = l2.
Proof.
  induction l1 as [|x l1 IH]; intros [|y l2] H1 H2 Htied.
  - reflexivity.
  - specialize (Htied (key y)). now rewrite tied_head in Htied.
  - specialize (Htied (key x)). now rewrite tied_head in Htied.
  - apply StronglySorted_inv in H1 as [H1 Hx], H2 as [H2 Hy].
    assert (Hxy : key_le key x y).
    { pose proof (Htied (key y)) as E. rewrite (tied_head y) in E.
      assert (Hin : In y (x :: l1)).
      { apply (tied_In (key y)). rewrite E. now left. }
      destruct Hin as [->|Hin]; [apply key_le_refl|].
      exact (proj1 (List.Forall_forall _ _) Hx y Hin). }
    assert (Hyx : key_le key y x).
    { pose proof (Htied (key x)) as E. rewrite (tied_head x) in E.
      assert (Hin : In x (y :: l2)).
      { apply (tied_In (key x)). rewrite <- E. now left. }
      destruct Hin as [->|Hin]; [apply key_le_refl|].
      exact (proj1 (List.Forall_forall _ _) Hy x Hin). }
    pose proof (key_le_antisym x y Hxy Hyx) as Hkey.
    pose proof (Htied (key x)) as E.
    rewrite tied_head, Hkey, tied_head in E. injection E as -> _.
    f_equal. apply IH; [exact H1|exact H2|].
    intros ts. specialize (Htied ts). unfold tied in *. cbn in Htied.
    destruct (String.eqb (key y) ts); [now injection Htied|exact Htied].
Qed.

Lemma sorted_same_ties (l1 l2 : list A) :
  (∀ ts, tied key ts l1 = tied key ts l2) → sorted key l1 = sorted key l2.
Proof.
  intros Htied. apply ascending_unique; try apply sorted_ascending.
  intros ts. now rewrite !tied_sorted.
Qed.

Lemma sorted_ascending_id (l : list A) : ascending key l → sorted key l = l.
Proof.
  intros Hl. apply ascending_unique; [apply sorted_ascending|exact Hl|].
  intros ts. apply tied_sorted.
Qed.

End StableSort.

(** C8, as stated, fails: two orderings of the same two matches, both
    ascending in start time and differing only in the order of the tie,
    end with different ratings for team 1 (33.75 against 38.75 from the
    initial state; 26.875 against 31.875 when the baseline is computed
    first). *)
Lemma tie_order_counterexample :
  Permutation [match_a; match_b] [match_b; match_a]
  ∧ ascending start_key [match_a; match_b]
  ∧ ascending start_key [match_b; match_a]
  ∧ (process_matches [match_a; match_b] initial_globals).1 = Ok tt
  ∧ (process_matches [match_b; match_a] initial_globals).1 = Ok tt
  ∧ epa_scores (process_matches [match_a; match_b] initial_globals).2 !! 1
    = Some (PyFloat 33.75)
  ∧ epa_scores (process_matches [match_b; match_a] initial_globals).2 !! 1
    = Some (PyFloat 38.75)
  ∧ epa_scores (process_event [match_a; match_b] initial_globals).2 !! 1
    = Some (PyFloat 26.875)
  ∧ epa_scores (process_event [match_b; match_a] initial_globals).2 !! 1
    = Some (PyFloat 31.875)
  ∧ epa_scores (process_matches [match_a; match_b] initial_globals).2 !! 1
    ≠ epa_scores (process_matches [match_b; match_a] initial_globals).2 !! 1
  ∧ epa_scores (process_event [match_a; match_b] initial_globals).2 !! 1
    ≠ epa_scores (process_event [match_b; match_a] initial_globals).2 !! 1.
Proof.
  split; [apply perm_swap|].
  split; [repeat constructor|].
  split; [repeat constructor|].
  assert (H1 : epa_scores (process_matches [match_a; match_b] initial_globals).2 !! 1
               = Some (PyFloat 33.75)) by (vm_compute; reflexivity).
  assert (H2 : epa_scores (process_matches [match_b; match_a] initial_globals).2 !! 1
               = Some (PyFloat 38.75)) by (vm_compute; reflexivity).
  assert (H3 : epa_scores (process_event [match_a; match_b] initial_globals).2 !! 1
               = Some (PyFloat 26.875)) by (vm_compute; reflexivity).
  assert (H4 : epa_scores (process_event [match_b; match_a] initial_globals).2 !! 1
               = Some (PyFloat 31.875)) by (vm_compute; reflexivity).
  split; [vm_compute; reflexivity|]. split; [vm_compute; reflexivity|].
  split; [exact H1|]. split; [exact H2|]. split; [exact H3|]. split; [exact H4|].
  split.
  - rewrite H1, H2. intros E.
    apply (f_equal (fun o => match o with
                             | Some (PyFloat x) => PrimFloat.ltb x 38.75
                             | _ => false
                             end)) in E.
    discriminate E.
  - rewrite H3, H4. intros E.
    apply (f_equal (fun o => match o with
                             | Some (PyFloat x) => PrimFloat.ltb x 31.875
                             | _ => false
                             end)) in E.
    discriminate E.
Qed.

(** C8, amended.  Two orderings of an event's matches in which the
    matches of each start time stand in the same relative order are sorted
    into the same sequence and so processed identically, from any state.
    An ordering that is already ascending is processed as given: the sort
    keeps the input order of ties. *)
Theorem process_matches_same_ties :
  (∀ l1 l2 g,
     (∀ ts, tied start_key ts l1 = tied start_key ts l2) →
     sorted start_key l1 = sorted start_key l2
     ∧ process_matches l1 g = process_matches l2 g)
  ∧ (∀ l g,
       ascending start_key l →
       sorted start_key l = l
       ∧ process_matches l g
         = for_each (enumerate 1 l)
             (fun '(match_number, mtch) => process_match mtch match_number) g).
Proof.
  split.
  - intros l1 l2 g Hties.
    pose proof (sorted_same_ties start_key l1 l2 Hties) as Hsorted.
    split; [exact Hsorted|]. unfold process_matches. now rewrite Hsorted.
  - intros l g Hl.
    pose proof (sorted_ascending_id start_key l Hl) as Hsorted.
    split; [exact Hsorted|]. unfold process_matches. now rewrite Hsorted.
Qed.

Lemma process_matches_same_ties_witness :
  (sorted start_key [match_a; match_c; match_b]
   = sorted start_key [match_c; match_a; match_b]
   ∧ process_matches [match_a; match_c; match_b] initial_globals
     = process_matches [match_c; match_a; match_b] initial_globals)
  ∧ sorted start_key [match_c; match_b; match_a] = [match_c; match_b; match_a].
Proof.
  destruct process_matches_same_ties as [Hsame Hid].
  split.
  - apply Hsame. intros ts. unfold tied. cbn [List.filter].
    change (start_key match_a) with (start_key match_b).
    destruct (String.eqb (start_key match_b) ts) eqn:Hb,
             (String.eqb (start_key match_c) ts) eqn:Hc; try reflexivity.
    apply String.eqb_eq in Hb, Hc. rewrite <- Hc in Hb. discriminate Hb.
  - apply (Hid _ initial_globals). repeat constructor.
Defined.

(** ** Binary64 rounding *)

Lemma digits2_pos_size (p : positive) : digits2_pos p = Pos.size p.
Proof. induction p; cbn; congruence. Qed.

Lemma digits2_bounds (p : positive) :
  2 ^ (Z.pos (digits2_pos p) - 1) <= Z.pos p < 2 ^ Z.pos (digits2_pos p).
Proof.
  rewrite digits2_pos_size. split.
  - pose proof (Pos.size_le p) as H.
    assert (H' : 2 ^ Z.pos (Pos.size p) <= 2 * Z.pos p).
    { change (2 * Z.pos p) with (Z.pos p~0). rewrite <- Pos2Z.inj_pow. exact H. }
    replace (Z.pos (Pos.size p)) with (Z.succ (Z.pos (Pos.size p) - 1)) in H' by lia.
    rewrite Z.pow_succ_r in H' by lia. lia.
  - pose proof (Pos.size_gt p) as H.
    rewrite <- Pos2Z.inj_pow. exact H.
Qed.

Lemma digits2_unique (p : positive) (k : Z) :
  2 ^ (k - 1) <= Z.pos p < 2 ^ k -> Z.pos (digits2_pos p) = k.
Proof.
  intros [Hlo Hhi]. pose proof (digits2_bounds p) as [Dlo Dhi].
  assert (0 < k).
  { destruct (Z_lt_le_dec 0 k); [assumption|]. exfalso.
    destruct (Z.eq_dec k 0) as [->|];
      [cbn in Hhi; lia|rewrite Z.pow_neg_r in Hhi by lia; lia]. }
  destruct (Z.lt_trichotomy (Z.pos (digits2_pos p)) k) as [Hlt|[Heq|Hgt]]; [|exact Heq|].
  - assert (2 ^ Z.pos (digits2_pos p) <= 2 ^ (k - 1)) by (apply Z.pow_le_mono_r; lia). lia.
  - assert (2 ^ k <= 2 ^ (Z.pos (digits2_pos p) - 1)) by (apply Z.pow_le_mono_r; lia). lia.
Qed.

Lemma iter_pos_nat {A : Type} (f : A -> A) (p : positive) :
  forall x, SpecFloat.iter_pos f p x = Nat.iter (Pos.to_nat p) f x.
Proof.
  induction p as [p IH|p IH|]; intros x; cbn [SpecFloat.iter_pos].
  - rewrite !IH, Pos2Nat.inj_xI.
    replace (S (2 * Pos.to_nat p))%nat with (Pos.to_nat p + (Pos.to_nat p + 1))%nat by lia.
    rewrite !Nat.iter_add. reflexivity.
  - rewrite !IH, Pos2Nat.inj_xO.
    replace (2 * Pos.to_nat p)%nat with (Pos.to_nat p + Pos.to_nat p)%nat by lia.
    rewrite Nat.iter_add. reflexivity.
  - reflexivity.
Qed.

Lemma shr_1_spec (m : Z) (r s : bool) :
  0 <= m ->
  shr_1 {| shr_m := m; shr_r := r; shr_s := s |}
  = {| shr_m := m / 2; shr_r := Z.odd m; shr_s := r || s |}.
Proof.
  intros Hm. rewrite <- Z.div2_div.
  destruct m as [|[p|p|]|p]; try lia; reflexivity.
Qed.

Lemma shr_iter_spec (m : Z) (k : nat) :
  0 <= m ->
  Nat.iter (S k) shr_1 {| shr_m := m; shr_r := false; shr_s := false |}
  = {| shr_m := m / 2 ^ Z.of_nat (S k);
       shr_r := Z.odd (m / 2 ^ Z.of_nat k);
       shr_s := negb (m mod 2 ^ Z.of_nat k =? 0) |}.
Proof.
  intros Hm. induction k as [|k IH].
  - cbn [Nat.iter]. rewrite shr_1_spec by exact Hm.
    change (2 ^ Z.of_nat 1) with 2. change (2 ^ Z.of_nat 0) with 1.
    now rewrite Z.div_1_r, Z.mod_1_r.
  - change (Nat.iter (S (S k)) shr_1 ?x) with (shr_1 (Nat.iter (S k) shr_1 x)).
    rewrite IH, shr_1_spec by (apply Z.div_pos; [lia|apply Z.pow_pos_nonneg; lia]).
    f_equal.
    + rewrite Z.div_div by (try apply Z.pow_nonzero; try apply Z.pow_pos_nonneg; lia).
      f_equal. rewrite (Nat2Z.inj_succ (S k)), Z.pow_succ_r by lia. lia.
    + rewrite (Nat2Z.inj_succ k), Z.pow_succ_r by lia.
      set (h := 2 ^ Z.of_nat k). assert (0 < h) by (apply Z.pow_pos_nonneg; lia).
      rewrite (Z.mul_comm 2 h), Z.rem_mul_r by lia.
      pose proof (Z.mod_pos_bound m h ltac:(lia)).
      rewrite (Zmod_odd (m / h)).
      destruct (Z.odd (m / h)); cbn [orb].
      * symmetry. apply Bool.negb_true_iff, Z.eqb_neq. lia.
      * now rewrite Z.mul_0_r, Z.add_0_r.
Qed.

Lemma shr_round (m : Z) (n : positive) :
  0 <= m ->
  let mrs := SpecFloat.iter_pos shr_1 n {| shr_m := m; shr_r := false; shr_s := false |} in
  round_nearest_even (shr_m mrs) (loc_of_shr_record mrs) = rne m (Z.pos n).
Proof.
  intros Hm. cbv zeta. rewrite iter_pos_nat.
  destruct (Pos2Nat.is_succ n) as [k Hk]. rewrite Hk.
  rewrite shr_iter_spec by exact Hm.
  assert (Hn : Z.of_nat (S k) = Z.pos n) by (rewrite <- Hk; apply positive_nat_Z).
  assert (Hk' : Z.of_nat k = Z.pos n - 1) by lia.
  rewrite Hn, Hk'. unfold rne.
  set (h := 2 ^ (Z.pos n - 1)). assert (Hh : 0 < h) by (apply Z.pow_pos_nonneg; lia).
  assert (E2 : 2 ^ Z.pos n = h * 2).
  { unfold h. replace (Z.pos n) with (Z.succ (Z.pos n - 1)) at 1 by lia.
    rewrite Z.pow_succ_r by lia. lia. }
  rewrite E2, Z.rem_mul_r by lia.
  pose proof (Z.mod_pos_bound m h ltac:(lia)) as Hb.
  rewrite (Zmod_odd (m / h)).
  destruct (Z.odd (m / h)); destruct (Z.eqb_spec (m mod h) 0) as [E0|E0]; cbn.
  - rewrite E0, Z.add_0_l, Z.mul_1_r, Z.ltb_irrefl. reflexivity.
  - rewrite (proj2 (Z.ltb_ge _ _)) by lia. rewrite (proj2 (Z.ltb_lt _ _)) by lia.
    reflexivity.
  - rewrite (proj2 (Z.ltb_lt _ _)) by lia. reflexivity.
  - rewrite (proj2 (Z.ltb_lt _ _)) by lia. reflexivity.
Qed.

Lemma rne_bounds (m n : Z) :
  0 <= m -> 0 < n ->
  m / 2 ^ n <= rne m n <= m / 2 ^ n + 1
  ∧ Z.abs (rne m n * 2 ^ n - m) <= 2 ^ (n - 1).
Proof.
  intros Hm Hn. unfold rne.
  set (h := 2 ^ (n - 1)). assert (Hh : 0 < h) by (apply Z.pow_pos_nonneg; lia).
  assert (E2 : 2 ^ n = 2 * h).
  { unfold h. replace n with (Z.succ (n - 1)) at 1 by lia.
    rewrite Z.pow_succ_r by lia. lia. }
  rewrite E2.
  pose proof (Z.div_mod m (2 * h) ltac:(lia)) as Hdm.
  pose proof (Z.mod_pos_bound m (2 * h) ltac:(lia)) as Hb.
  set (q := m / (2 * h)) in *. set (rho := m mod (2 * h)) in *.
  destruct (Z.ltb_spec rho h); [lia|].
  destruct (Z.ltb_spec h rho); [lia|].
  destruct (Z.even q); lia.
Qed.

Lemma fexp_eq (x : Z) : fexp prec emax x = Z.max (x - 53) (-1074).
Proof. reflexivity. Qed.

Lemma pos_iter_xO (p d : positive) : Z.pos (Pos.iter xO p d) = Z.pos p * 2 ^ Z.pos d.
Proof.
  revert p. induction d as [|d IH] using Pos.peano_ind; intros p.
  - cbn. lia.
  - rewrite Pos.iter_succ, Pos2Z.inj_succ, Z.pow_succ_r by lia.
    rewrite Pos2Z.inj_xO, IH. lia.
Qed.

Lemma digits2_shift (p : positive) (k : Z) (m : positive) :
  0 <= k -> Z.pos m = Z.pos p * 2 ^ k ->
  Z.pos (digits2_pos m) = Z.pos (digits2_pos p) + k.
Proof.
  intros Hk Hm. apply digits2_unique. rewrite Hm.
  pose proof (digits2_bounds p) as [Hlo Hhi].
  assert (0 < 2 ^ k) by (apply Z.pow_pos_nonneg; lia).
  replace (Z.pos (digits2_pos p) + k - 1) with (Z.pos (digits2_pos p) - 1 + k) by lia.
  rewrite !Z.pow_add_r by lia. nia.
Qed.

Lemma binary_round_exact (s : bool) (p : positive) (E : Z) :
  let c := fexp prec emax (Z.pos (digits2_pos p) + E) in
  c <= E ->
  binary_round prec emax s p E
  = if c <=? 971 then S754_finite s (Z.to_pos (Z.pos p * 2 ^ (E - c))) c
    else S754_infinity s.
Proof.
  intros c HcE. unfold binary_round. fold c.
  assert (Hal : exists mz, shl_align p E c = (mz, c) ∧ Z.pos mz = Z.pos p * 2 ^ (E - c)).
  { unfold shl_align. destruct (c - E) as [|d|d] eqn:Hd; try lia.
    - exists p. assert (HE : c = E) by lia. rewrite HE. split; [reflexivity|].
      rewrite Z.sub_diag. lia.
    - exists (Pos.iter xO p d). split; [reflexivity|].
      rewrite pos_iter_xO. f_equal. f_equal. lia. }
  destruct Hal as (mz & -> & Hmz).
  assert (Hdig : Z.pos (digits2_pos mz) + c = Z.pos (digits2_pos p) + E).
  { rewrite (digits2_shift p (E - c) mz) by (lia || assumption). lia. }
  unfold binary_round_aux, shr_fexp. cbn [Zdigits2 shr_record_of_loc].
  rewrite Hdig. fold c. rewrite Z.sub_diag. cbn [shr loc_of_shr_record shr_m round_nearest_even].
  cbn [Zdigits2 shr_record_of_loc]. rewrite Hdig. fold c. rewrite Z.sub_diag.
  cbn [shr shr_m]. change (emax - prec) with 971.
  rewrite <- Hmz. reflexivity.
Qed.

Lemma two52_eq : 2 ^ 52 = two52. Proof. reflexivity. Qed.
Lemma two53_eq : 2 ^ 53 = two53. Proof. reflexivity. Qed.

Lemma binary_round_shift (s : bool) (p : positive) (E c n : Z) :
  c = Z.pos (digits2_pos p) + E - 53 -> n = c - E ->
  -1074 <= c -> 0 < n ->
  two52 <= rne (Z.pos p) n <= two53
  ∧ binary_round prec emax s p E
     = if rne (Z.pos p) n <? two53 then
         if c <=? 971 then S754_finite s (Z.to_pos (rne (Z.pos p) n)) c
         else S754_infinity s
       else
         if c + 1 <=? 971 then S754_finite s (Z.to_pos two52) (c + 1)
         else S754_infinity s.
Proof.
  intros Hc Hn Hmin Hnpos.
  pose proof (digits2_bounds p) as [Dlo Dhi].
  assert (Hf : fexp prec emax (Z.pos (digits2_pos p) + E) = c)
    by (rewrite fexp_eq; lia).
  assert (Hpow : 0 < 2 ^ n) by (apply Z.pow_pos_nonneg; lia).
  assert (Hq : two52 <= Z.pos p / 2 ^ n < two53).
  { replace (Z.pos (digits2_pos p) - 1) with (52 + n) in Dlo by lia.
    replace (Z.pos (digits2_pos p)) with (53 + n) in Dhi by lia.
    rewrite Z.pow_add_r in Dlo, Dhi by lia.
    rewrite two52_eq in Dlo. rewrite two53_eq in Dhi. split.
    - apply Z.div_le_lower_bound; lia.
    - apply Z.div_lt_upper_bound; lia. }
  pose proof (rne_bounds (Z.pos p) n ltac:(lia) Hnpos) as [Hqq _].
  split; [lia|].
  unfold binary_round. rewrite Hf.
  assert (Hal : shl_align p E c = (p, E)).
  { unfold shl_align. destruct (c - E) eqn:Hd'; try reflexivity; lia. }
  rewrite Hal.
  unfold binary_round_aux, shr_fexp at 1. cbn [Zdigits2 shr_record_of_loc].
  rewrite Hf, <- Hn.
  destruct n as [|np|np] eqn:Hnp; try lia.
  cbn [shr]. rewrite shr_round by lia. rewrite <- Hnp in *.
  replace (E + n) with c by lia.
  set (q' := rne (Z.pos p) n) in *.
  assert (Hq'pos : exists qp, q' = Z.pos qp).
  { destruct q' as [|qp|qp] eqn:Hq'; try lia. now exists qp. }
  destruct Hq'pos as [qp Hqp]. rewrite Hqp in *.
  unfold shr_fexp. cbn [Zdigits2 shr_record_of_loc].
  destruct (Z.ltb_spec (Z.pos qp) two53) as [Hlt|Hge].
  - assert (Hdq : Z.pos (digits2_pos qp) = 53).
    { apply digits2_unique. change (2 ^ (53 - 1)) with two52.
      change (2 ^ 53) with two53. lia. }
    rewrite Hdq, fexp_eq.
    replace (Z.max (53 + c - 53) (-1074) - c) with 0 by lia.
    cbn [shr shr_m]. change (emax - prec) with 971.
    reflexivity.
  - assert (Hqe : Z.pos qp = two53) by lia.
    assert (Hdq : Z.pos (digits2_pos qp) = 54).
    { apply digits2_unique. rewrite Hqe.
      change (2 ^ (54 - 1)) with 9007199254740992.
      change (2 ^ 54) with 18014398509481984. lia. }
    rewrite Hdq, fexp_eq.
    replace (Z.max (54 + c - 53) (-1074) - c) with 1 by lia.
    cbn [shr SpecFloat.iter_pos]. rewrite Hqe.
    cbn [shr_1 shr_m]. change (emax - prec) with 971.
    reflexivity.
Qed.

Lemma rne_eq (m n q rho : Z) :
  0 < n -> m = q * 2 ^ n + rho -> 0 <= rho < 2 ^ n ->
  rne m n = if rho <? 2 ^ (n - 1) then q
            else if 2 ^ (n - 1) <? rho then q + 1
            else if Z.even q then q else q + 1.
Proof.
  intros Hn Hm Hrho. unfold rne.
  assert (Hq : m / 2 ^ n = q).
  { symmetry. apply (Z.div_unique m (2 ^ n) q rho); [left; exact Hrho|lia]. }
  assert (Hr : m mod 2 ^ n = rho).
  { symmetry. apply (Z.mod_unique m (2 ^ n) q rho); [left; exact Hrho|lia]. }
  now rewrite Hq, Hr.
Qed.

(** A sum within half a unit in the last place of 1 rounds to 1. *)
Lemma round_near_one (S : positive) (n : Z) :
  0 <= n -> Z.abs (Z.pos S - two53 * 2 ^ n) <= 2 ^ (n - 1) ->
  binary_round prec emax false S (- 53 - n) = SF_one.
Proof.
  intros Hn Hnear.
  assert (Hpow : 0 < 2 ^ n) by (apply Z.pow_pos_nonneg; lia).
  assert (Hhalf : 2 * 2 ^ (n - 1) <= 2 ^ n).
  { destruct (Z.eq_dec n 0) as [->|Hn0]; [change (2 ^ (0 - 1)) with 0; change (2 ^ 0) with 1; lia|].
    replace n with (Z.succ (n - 1)) at 2 by lia. rewrite Z.pow_succ_r by lia. lia. }
  assert (Hh0 : 0 <= 2 ^ (n - 1)) by (apply Z.pow_nonneg; lia).
  destruct (Z_le_gt_dec (two53 * 2 ^ n) (Z.pos S)) as [Hge|Hlt].
  - (* at or above one: the quotient is 2^52 and the remainder is below half *)
    assert (Hdig : Z.pos (digits2_pos S) = 54 + n).
    { apply digits2_unique.
      replace (54 + n - 1) with (53 + n) by lia.
      rewrite !Z.pow_add_r by lia.
      change (2 ^ 53) with two53. change (2 ^ 54) with (2 * two53). lia. }
    destruct (binary_round_shift false S (- 53 - n) (-52) (n + 1)) as [_ ->]; try lia.
    assert (Hpow1 : 2 ^ (n + 1) = 2 * 2 ^ n) by (rewrite Z.pow_add_r by lia; lia).
    rewrite (rne_eq (Z.pos S) (n + 1) two52 (Z.pos S - two53 * 2 ^ n)) by lia.
    replace (n + 1 - 1) with n by lia.
    rewrite (proj2 (Z.ltb_lt (Z.pos S - two53 * 2 ^ n) (2 ^ n))) by lia.
    reflexivity.
  - (* just below one: the quotient 2^53 - 1 is odd and rounds up *)
    assert (Hn1 : 0 < n).
    { destruct (Z.eq_dec n 0) as [->|]; [|lia].
      change (2 ^ (0 - 1)) with 0 in Hnear. change (2 ^ 0) with 1 in *. lia. }
    assert (Hpown : 2 ^ n = 2 * 2 ^ (n - 1)).
    { replace n with (Z.succ (n - 1)) at 1 by lia. rewrite Z.pow_succ_r by lia. lia. }
    assert (Hhpos : 0 < 2 ^ (n - 1)) by (apply Z.pow_pos_nonneg; lia).
    assert (Hdig : Z.pos (digits2_pos S) = 53 + n).
    { apply digits2_unique.
      replace (53 + n - 1) with (52 + n) by lia.
      rewrite !Z.pow_add_r by lia.
      change (2 ^ 53) with two53. change (2 ^ 52) with two52. lia. }
    destruct (binary_round_shift false S (- 53 - n) (-53) n) as [_ ->]; try lia.
    rewrite (rne_eq (Z.pos S) n (two53 - 1) (Z.pos S - (two53 - 1) * 2 ^ n)) by lia.
    destruct (Z.ltb_spec (Z.pos S - (two53 - 1) * 2 ^ n) (2 ^ (n - 1))); [lia|].
    destruct (Z.ltb_spec (2 ^ (n - 1)) (Z.pos S - (two53 - 1) * 2 ^ n)); reflexivity.
Qed.

Lemma shl_align_spec (m : positive) (e e' : Z) :
  e' <= e ->
  exists m', shl_align m e e' = (m', e') ∧ Z.pos m' = Z.pos m * 2 ^ (e - e').
Proof.
  intros He. unfold shl_align. destruct (e' - e) as [|d|d] eqn:Hd; try lia.
  - exists m. assert (e' = e) by lia. subst e'. split; [reflexivity|].
    rewrite Z.sub_diag. lia.
  - exists (Pos.iter xO m d). split; [reflexivity|].
    rewrite pos_iter_xO. f_equal. f_equal. lia.
Qed.

Lemma SFadd_pos (mx my : positive) (ex ey : Z) :
  SFadd prec emax (S754_finite false mx ex) (S754_finite false my ey)
  = binary_round prec emax false
      (Z.to_pos (Z.pos mx * 2 ^ (ex - Z.min ex ey) + Z.pos my * 2 ^ (ey - Z.min ex ey)))
      (Z.min ex ey).
Proof.
  unfold SFadd.
  destruct (shl_align_spec mx ex (Z.min ex ey) ltac:(lia)) as (mx' & -> & Hx).
  destruct (shl_align_spec my ey (Z.min ex ey) ltac:(lia)) as (my' & -> & Hy).
  cbn [fst cond_Zopp]. rewrite <- Hx, <- Hy.
  change (Z.pos mx' + Z.pos my') with (Z.pos (mx' + my')).
  cbn [binary_normalize Z.to_pos]. reflexivity.
Qed.

Lemma SFsub_pos (mx my : positive) (ex ey : Z) :
  Z.pos my * 2 ^ (ey - Z.min ex ey) < Z.pos mx * 2 ^ (ex - Z.min ex ey) ->
  SFsub prec emax (S754_finite false mx ex) (S754_finite false my ey)
  = binary_round prec emax false
      (Z.to_pos (Z.pos mx * 2 ^ (ex - Z.min ex ey) - Z.pos my * 2 ^ (ey - Z.min ex ey)))
      (Z.min ex ey).
Proof.
  intros Hlt. unfold SFsub.
  destruct (shl_align_spec mx ex (Z.min ex ey) ltac:(lia)) as (mx' & -> & Hx).
  destruct (shl_align_spec my ey (Z.min ex ey) ltac:(lia)) as (my' & -> & Hy).
  cbn [fst cond_Zopp]. rewrite <- Hx, <- Hy in *.
  destruct (Z.pos mx' - Z.pos my') as [|d|d] eqn:Hd; try lia.
  cbn [binary_normalize Z.to_pos]. reflexivity.
Qed.

Lemma compare_cont_le (m c : positive) :
  match Pos.compare_cont Eq m c with Lt | Eq => true | Gt => false end = true ->
  Z.pos m <= Z.pos c.
Proof.
  change (Pos.compare_cont Eq m c) with (Pos.compare m c).
  destruct (Pos.compare_spec m c); [lia|lia|discriminate].
Qed.

Lemma valid_finite (m : positive) (e : Z) :
  valid_binary (S754_finite false m e) = true ->
  Z.max (Z.pos (digits2_pos m) + e - 53) (-1074) = e ∧ e <= 971.
Proof.
  unfold SpecFloat.valid_binary, bounded, canonical_mantissa.
  rewrite Bool.andb_true_iff, Z.eqb_eq, Z.leb_le, fexp_eq.
  unfold emax, prec. lia.
Qed.

(** For a binary64 value [x] between 0 and 1, [(1 - x) + x] is 1: the
    error of the subtraction is at most half a unit in the last place of
    1, and the addition rounds it away. *)
Theorem SF_one_minus_plus (x : spec_float) :
  valid_binary x = true ->
  SFleb (S754_zero false) x = true ->
  SFleb x SF_one = true ->
  SFadd prec emax (SFsub prec emax SF_one x) x = SF_one.
Proof.
  intros Hvalid H0 H1.
  destruct x as [s|s| |s m e]; try discriminate.
  - reflexivity.
  - destruct s; discriminate.
  - destruct s; [discriminate|]. clear H0.
    apply valid_finite in Hvalid as [Hcanon Hemax].
    pose proof (digits2_bounds m) as [Dlo Dhi].
    unfold SFleb, SFcompare in H1.
    destruct (Z.compare_spec e (-52)) as [He|He|He]; try discriminate.
    + (* exponent -52: x is 1 *)
      assert (Hd : Z.pos (digits2_pos m) = 53) by lia. rewrite Hd in *.
      change (2 ^ (53 - 1)) with two52 in Dlo.
      assert (Hm : m = 4503599627370496%positive).
      { apply compare_cont_le in H1. lia. }
      subst m e. vm_compute. reflexivity.
    + (* x below 1 *)
      clear H1.
      assert (Hd : Z.pos (digits2_pos m) <= 53) by lia.
      assert (Hm53 : Z.pos m < two53).
      { assert (2 ^ Z.pos (digits2_pos m) <= 2 ^ 53) by (apply Z.pow_le_mono_r; lia).
        change (2 ^ 53) with two53 in *. lia. }
      remember (- 53 - e) as n eqn:Hndef.
      assert (Hn : 0 <= n) by lia.
      assert (Hpow : 0 < 2 ^ n) by (apply Z.pow_pos_nonneg; lia).
      assert (Hmin : Z.min (-52) e = e) by lia.
      assert (Hone : two52 * 2 ^ (-52 - e) = two53 * 2 ^ n).
      { replace (-52 - e) with (1 + n) by lia.
        rewrite Z.pow_add_r by lia. change (2 ^ 1) with 2. lia. }
      rewrite SFsub_pos; rewrite Hmin, Z.sub_diag, Z.pow_0_r, Z.mul_1_r, Hone; [|lia].
      remember (two53 * 2 ^ n - Z.pos m) as N eqn:HNdef.
      assert (HN : 0 < N) by lia.
      destruct (Z.eq_dec n 0) as [Hn0|Hn0].
      * (* x at least one half: the subtraction is exact *)
        assert (He53 : e = -53) by lia.
        rewrite Hn0 in HNdef. rewrite Z.pow_0_r, Z.mul_1_r in HNdef.
        assert (HdN : Z.pos (digits2_pos (Z.to_pos N)) <= 53).
        { pose proof (digits2_bounds (Z.to_pos N)) as [Nlo _].
          rewrite Z2Pos.id in Nlo by lia.
          destruct (Z_le_gt_dec (Z.pos (digits2_pos (Z.to_pos N))) 53); [assumption|].
          assert (2 ^ 53 <= 2 ^ (Z.pos (digits2_pos (Z.to_pos N)) - 1))
            by (apply Z.pow_le_mono_r; lia).
          change (2 ^ 53) with two53 in *. lia. }
        rewrite binary_round_exact; rewrite fexp_eq; [|lia].
        remember (Z.max (Z.pos (digits2_pos (Z.to_pos N)) + e - 53) (-1074)) as c eqn:Hcdef.
        assert (Hc : c <= -53) by lia.
        rewrite (proj2 (Z.leb_le c 971)) by lia.
        rewrite SFadd_pos.
        replace (Z.min c e) with c by lia.
        rewrite Z.sub_diag, Z.pow_0_r, Z.mul_1_r.
        assert (Hk : 0 <= e - c) by lia.
        assert (Hpk : 0 < 2 ^ (e - c)) by (apply Z.pow_pos_nonneg; lia).
        rewrite !Z2Pos.id by nia.
        replace (N * 2 ^ (e - c) + Z.pos m * 2 ^ (e - c))
          with (two53 * 2 ^ (e - c)) by nia.
        replace c with (- 53 - (e - c)) at 2 by lia.
        apply round_near_one; [lia|].
        rewrite Z2Pos.id by lia. rewrite Z.sub_diag. change (Z.abs 0) with 0.
        apply Z.pow_nonneg. lia.
      * (* x below one half: the subtraction rounds *)
        assert (Hn1 : 1 <= n) by lia.
        assert (H2n : 2 <= 2 ^ n).
        { change 2 with (2 ^ 1) at 1. apply Z.pow_le_mono_r; lia. }
        assert (HdN : Z.pos (digits2_pos (Z.to_pos N)) = 53 + n).
        { apply digits2_unique. rewrite Z2Pos.id by lia.
          replace (53 + n - 1) with (52 + n) by lia.
          rewrite !Z.pow_add_r by lia.
          change (2 ^ 53) with two53. change (2 ^ 52) with two52. lia. }
        destruct (binary_round_shift false (Z.to_pos N) e (-53) n) as [Hq ->];
          try lia.
        rewrite Z2Pos.id in * by lia.
        pose proof (rne_bounds N n ltac:(lia) ltac:(lia)) as [_ Herr].
        remember (rne N n) as q' eqn:Hq'def.
        assert (Hsum : forall mr er,
          Z.pos mr * 2 ^ (er - e) = q' * 2 ^ n -> e <= er ->
          SFadd prec emax (S754_finite false mr er) (S754_finite false m e) = SF_one).
        { intros mr er Hmr Her. rewrite SFadd_pos.
          replace (Z.min er e) with e by lia.
          rewrite Z.sub_diag, Z.pow_0_r, Z.mul_1_r, Hmr.
          replace e with (- 53 - n) at 1 by lia.
          apply round_near_one; [lia|].
          rewrite Z2Pos.id by nia.
          replace (q' * 2 ^ n + Z.pos m - two53 * 2 ^ n) with (q' * 2 ^ n - N) by lia.
          exact Herr. }
        destruct (Z.ltb_spec q' two53) as [Hlt|Hge].
        -- apply Hsum; [|lia]. rewrite Z2Pos.id by lia.
           f_equal. f_equal. lia.
        -- apply Hsum; [|lia].
           replace q' with two53 by lia. exact Hone.
Qed.

Theorem float_one_minus_plus (b : float) :
  (0 <=? b)%float = true -> (b <=? 1)%float = true ->
  ((1 - b) + b)%float = 1%float.
Proof.
  intros H0 H1. apply Prim2SF_inj.
  rewrite FloatAxioms.add_spec, FloatAxioms.sub_spec. rewrite FloatAxioms.leb_spec in H0, H1.
  apply SF_one_minus_plus; [apply Prim2SF_valid|exact H0|exact H1].
Qed.

(** ** The win probability is a probability *)

Lemma pow2_lt_digits (p : positive) (k : Z) :
  0 <= k -> 2 ^ k <= Z.pos p -> k < Z.pos (digits2_pos p).
Proof.
  intros Hk Hle. pose proof (digits2_bounds p) as [_ Hhi].
  apply (Z.pow_lt_mono_r_iff 2); lia.
Qed.

(** [1 + w] for a float [w >= 0] is infinite or at least 1. *)
Lemma SFadd_one_shape (w : spec_float) :
  valid_binary w = true ->
  SFleb (S754_zero false) w = true ->
  SFadd prec emax SF_one w = S754_infinity false
  ∨ exists ms es, SFadd prec emax SF_one w = S754_finite false ms es ∧ -52 <= es.
Proof.
  intros Hvalid H0.
  destruct w as [s|s| |s mw ew]; try discriminate.
  - right. exists 4503599627370496%positive, (-52). now destruct s.
  - destruct s; [discriminate|]. now left.
  - destruct s; [discriminate|]. clear H0.
    rewrite SFadd_pos.
    remember (Z.min (-52) ew) as ez eqn:Hez.
    remember (two52 * 2 ^ (-52 - ez) + Z.pos mw * 2 ^ (ew - ez)) as S eqn:HS.
    assert (Hp1 : 0 < 2 ^ (-52 - ez)) by (apply Z.pow_pos_nonneg; lia).
    assert (Hp2 : 0 < 2 ^ (ew - ez)) by (apply Z.pow_pos_nonneg; lia).
    assert (Hone : two52 * 2 ^ (-52 - ez) = 2 ^ (- ez)).
    { change two52 with (2 ^ 52). rewrite <- Z.pow_add_r by lia. f_equal. lia. }
    assert (HSpos : 0 < S) by nia.
    assert (HSge : 2 ^ (- ez) <= S) by nia.
    pose proof (pow2_lt_digits (Z.to_pos S) (- ez) ltac:(lia)) as Hd.
    rewrite Z2Pos.id in Hd by lia. specialize (Hd HSge).
    remember (Z.pos (digits2_pos (Z.to_pos S)) + ez - 53) as c eqn:Hc.
    destruct (Z_le_gt_dec c ez) as [Hexact|Hshift].
    + rewrite binary_round_exact; rewrite fexp_eq;
        replace (Z.max (Z.pos (digits2_pos (Z.to_pos S)) + ez - 53) (-1074)) with c by lia;
        [|lia].
      destruct (c <=? 971); [right|now left].
      eexists _, c. split; [reflexivity|lia].
    + destruct (binary_round_shift false (Z.to_pos S) ez c (c - ez)) as [_ ->]; try lia.
      destruct (_ <? two53).
      * destruct (c <=? 971); [right|now left].
        eexists _, c. split; [reflexivity|lia].
      * destruct (c + 1 <=? 971); [right|now left].
        eexists _, (c + 1). split; [reflexivity|lia].
Qed.

Lemma shr_record_of_loc_inv (q : Z) (loc : location) :
  shr_m (shr_record_of_loc q loc) = q
  ∧ loc_of_shr_record (shr_record_of_loc q loc) = loc.
Proof. destruct loc as [|[]]; split; reflexivity. Qed.

Lemma round_nearest_even_bounds (q : Z) (loc : location) :
  q <= round_nearest_even q loc <= q + 1.
Proof. destruct loc as [|[]]; cbn [round_nearest_even]; try destruct (Z.even q); lia. Qed.

(** Rounding a mantissa that already has its canonical exponent keeps the
    exponent, unless the mantissa carries into 2^53. *)
Lemma binary_round_aux_canonical (s : bool) (qp : positive) (e' : Z) (loc : location) :
  fexp prec emax (Z.pos (digits2_pos qp) + e') = e' -> e' + 1 <= 971 ->
  exists m e'',
    binary_round_aux prec emax s (Z.pos qp) e' loc = S754_finite s m e''
    ∧ (e'' = e' ∨ (e'' = e' + 1 ∧ m = 4503599627370496%positive)).
Proof.
  intros Hcanon Hmax. unfold binary_round_aux, shr_fexp at 1.
  cbn [Zdigits2]. rewrite Hcanon, Z.sub_diag. cbn [shr].
  destruct (shr_record_of_loc_inv (Z.pos qp) loc) as [-> ->].
  pose proof (round_nearest_even_bounds (Z.pos qp) loc) as Hq1.
  destruct (round_nearest_even (Z.pos qp) loc) as [|q1|q1] eqn:Hq1def; try lia.
  unfold shr_fexp. cbn [Zdigits2 shr_record_of_loc].
  pose proof (digits2_bounds qp) as [Dlo Dhi].
  pose proof (digits2_bounds q1) as [D1lo D1hi].
  rewrite fexp_eq in Hcanon. rewrite fexp_eq.
  remember (Z.pos (digits2_pos qp)) as d eqn:Hd.
  remember (Z.pos (digits2_pos q1)) as d1 eqn:Hd1.
  assert (Hdd : d <= d1 <= d + 1).
  { split.
    - destruct (Z_le_gt_dec d d1); [assumption|].
      assert (2 ^ d1 <= 2 ^ (d - 1)) by (apply Z.pow_le_mono_r; lia). lia.
    - destruct (Z_le_gt_dec d1 (d + 1)); [assumption|].
      assert (2 ^ (d + 1) <= 2 ^ (d1 - 1)) by (apply Z.pow_le_mono_r; lia).
      rewrite Z.pow_add_r in * by lia. change (2 ^ 1) with 2 in *. lia. }
  destruct (Z.eq_dec (Z.max (d1 + e' - 53) (-1074)) e') as [Hsame|Hcarry].
  - rewrite Hsame, Z.sub_diag. cbn [shr shr_m]. change (emax - prec) with 971.
    rewrite (proj2 (Z.leb_le e' 971)) by lia.
    exists q1, e'. split; [reflexivity|now left].
  - assert (Hd53 : d = 53 ∧ d1 = 54) by lia. destruct Hd53 as [Hd53 Hd54].
    replace (Z.max (d1 + e' - 53) (-1074) - e') with 1 by lia.
    assert (Hq1v : Z.pos q1 = two53).
    { rewrite Hd53 in Dhi. rewrite Hd54 in D1lo.
      change (2 ^ 53) with two53 in Dhi. change (2 ^ (54 - 1)) with two53 in D1lo. lia. }
    injection Hq1v as ->.
    cbn [shr SpecFloat.iter_pos shr_1 shr_m]. change (emax - prec) with 971.
    rewrite (proj2 (Z.leb_le (e' + 1) 971)) by lia.
    exists 4503599627370496%positive, (e' + 1). split; [reflexivity|now right].
Qed.

Lemma div_eucl_div_mod (a b : Z) : Z.div_eucl a b = (a / b, a mod b).
Proof. unfold Z.div, Z.modulo. now destruct (Z.div_eucl a b). Qed.

Lemma SFdiv_core_one (ms : positive) (es e' sh : Z) :
  Z.pos (digits2_pos ms) = 53 -> -52 <= es <= 971 ->
  e' = Z.max (-105 - es) (-1074) -> sh = -52 - es - e' ->
  SFdiv_core_binary prec emax two52 (-52) (Z.pos ms) es
  = ((two52 * 2 ^ sh) / Z.pos ms, e',
     new_location (Z.pos ms) ((two52 * 2 ^ sh) mod Z.pos ms)).
Proof.
  intros Hd Hes He' Hsh. unfold SFdiv_core_binary. cbn [Zdigits2].
  change (digits2_pos 4503599627370496) with 53%positive.
  rewrite Hd, fexp_eq.
  replace (Z.min (Z.max (53 + -52 - (53 + es) - 53) (-1074)) (-52 - es)) with e' by lia.
  replace (-52 - es - e') with sh by lia.
  destruct sh as [|shp|shp] eqn:Hshp; try lia.
  rewrite Z.shiftl_mul_pow2 by lia. rewrite div_eucl_div_mod. reflexivity.
Qed.

(** [1 / s] for a float [s >= 1] is a positive float that is at most 1. *)
Lemma SFdiv_one_shape (ms : positive) (es : Z) :
  valid_binary (S754_finite false ms es) = true -> -52 <= es ->
  exists m e,
    SFdiv prec emax SF_one (S754_finite false ms es) = S754_finite false m e
    ∧ (e <= -53 ∨ (e = -52 ∧ m = 4503599627370496%positive)).
Proof.
  intros Hvalid Hes. apply valid_finite in Hvalid as [Hcanon Hemax].
  assert (Hd : Z.pos (digits2_pos ms) = 53) by lia.
  pose proof (digits2_bounds ms) as [Dlo Dhi]. rewrite Hd in Dlo, Dhi.
  change (2 ^ (53 - 1)) with two52 in Dlo. change (2 ^ 53) with two53 in Dhi.
  remember (Z.max (-105 - es) (-1074)) as e' eqn:He'.
  remember (-52 - es - e') as sh eqn:Hsh.
  assert (Hshb : 51 <= sh <= 53) by lia.
  unfold SFdiv. rewrite (SFdiv_core_one ms es e' sh) by (assumption || lia).
  cbn [xorb].
  assert (Hpow : 2 ^ sh = 2 * 2 ^ (sh - 1)).
  { replace sh with (Z.succ (sh - 1)) at 1 by lia. rewrite Z.pow_succ_r by lia. lia. }
  assert (Hh : 0 < 2 ^ (sh - 1)) by (apply Z.pow_pos_nonneg; lia).
  pose proof (Z.div_mod (two52 * 2 ^ sh) (Z.pos ms) ltac:(lia)) as Hdm.
  pose proof (Z.mod_pos_bound (two52 * 2 ^ sh) (Z.pos ms) ltac:(lia)) as Hr.
  remember ((two52 * 2 ^ sh) / Z.pos ms) as q eqn:Hq.
  remember ((two52 * 2 ^ sh) mod Z.pos ms) as r eqn:Hrdef.
  assert (Hqb : 2 ^ (sh - 1) <= q <= 2 ^ sh) by nia.
  destruct (Z.eq_dec q (2 ^ sh)) as [Hqtop|Hqlow].
  - (* s is a power of two: the quotient is exact *)
    assert (Hr0 : r = 0) by nia. rewrite Hr0.
    assert (Hloc : new_location (Z.pos ms) 0 = loc_Exact).
    { unfold new_location, new_location_even, new_location_odd.
      now destruct (Z.even (Z.pos ms)). }
    rewrite Hloc, Hqtop.
    destruct (Z.eq_dec sh 53) as [H53|H53].
    + rewrite H53. change (2 ^ 53) with two53.
      unfold binary_round_aux, shr_fexp at 1. cbn [Zdigits2 shr_record_of_loc].
      change (digits2_pos 9007199254740992) with 54%positive. rewrite fexp_eq.
      replace (Z.max (54 + e' - 53) (-1074) - e') with 1 by lia.
      cbn [shr SpecFloat.iter_pos shr_1 loc_of_shr_record shr_m round_nearest_even orb].
      unfold shr_fexp. cbn [Zdigits2 shr_record_of_loc].
      change (digits2_pos 4503599627370496) with 53%positive. rewrite fexp_eq.
      replace (Z.max (53 + (e' + 1) - 53) (-1074) - (e' + 1)) with 0 by lia.
      cbn [shr shr_m]. change (emax - prec) with 971.
      replace (e' + 1 <=? 971) with true by (symmetry; apply Z.leb_le; lia).
      exists 4503599627370496%positive, (e' + 1). split; [reflexivity|lia].
    + assert (Hqpos : exists qp, 2 ^ sh = Z.pos qp).
      { destruct (2 ^ sh) as [|qp|qp] eqn:E; try lia. now exists qp. }
      destruct Hqpos as [qp Hqp]. rewrite Hqp.
      destruct (binary_round_aux_canonical false qp e' loc_Exact) as (m & e'' & -> & He'').
      * rewrite fexp_eq.
        assert (Z.pos (digits2_pos qp) = sh + 1).
        { apply digits2_unique. rewrite <- Hqp. replace (sh + 1 - 1) with sh by lia.
          rewrite Z.pow_add_r by lia. change (2 ^ 1) with 2. lia. }
        lia.
      * lia.
      * exists m, e''. split; [reflexivity|lia].
  - assert (Hqpos : exists qp, q = Z.pos qp).
    { destruct q as [|qp|qp] eqn:E; try lia. now exists qp. }
    destruct Hqpos as [qp Hqp]. rewrite Hqp in *.
    destruct (binary_round_aux_canonical false qp e' (new_location (Z.pos ms) r))
      as (m & e'' & -> & He'').
    + rewrite fexp_eq.
      assert (Z.pos (digits2_pos qp) = sh).
      { apply digits2_unique. lia. }
      lia.
    + lia.
    + exists m, e''. split; [reflexivity|lia].
Qed.

Lemma Prim2SF_zero : Prim2SF 0 = S754_zero false.
Proof. vm_compute. reflexivity. Qed.

Lemma Prim2SF_one : Prim2SF 1 = SF_one.
Proof. vm_compute. reflexivity. Qed.

Lemma SFleb_one_shape (m : positive) (e : Z) :
  e <= -53 ∨ (e = -52 ∧ m = 4503599627370496%positive) ->
  SFleb (S754_finite false m e) SF_one = true.
Proof.
  unfold SFleb, SFcompare. intros [He|[-> ->]].
  - now rewrite (proj2 (Z.compare_lt_iff e (-52))) by lia.
  - vm_compute. reflexivity.
Qed.

(** For a float [w >= 0] (so not a NaN), [1 + w] is not zero, [1 / (1 + w)]
    lies between 0 and 1, and it and its complement to 1 add up to 1. *)
Theorem float_probability (w : float) :
  (0 <=? w)%float = true ->
  is_zero (1 + w) = false
  ∧ (0 <=? 1 / (1 + w))%float = true
  ∧ (1 / (1 + w) <=? 1)%float = true
  ∧ ((1 - 1 / (1 + w)) + 1 / (1 + w))%float = 1%float.
Proof.
  intros Hw. rewrite FloatAxioms.leb_spec, Prim2SF_zero in Hw.
  pose proof (SFadd_one_shape (Prim2SF w) (Prim2SF_valid w) Hw) as Hs.
  pose proof (Prim2SF_valid (1 + w)) as Hsvalid.
  assert (Hs' : Prim2SF (1 + w) = SFadd prec emax SF_one (Prim2SF w)).
  { rewrite FloatAxioms.add_spec, Prim2SF_one. reflexivity. }
  rewrite <- Hs' in Hs.
  assert (Hb : SFleb (S754_zero false) (Prim2SF (1 / (1 + w))) = true
               ∧ SFleb (Prim2SF (1 / (1 + w))) SF_one = true).
  { rewrite FloatAxioms.div_spec, Prim2SF_one. unfold SF64div.
    destruct Hs as [Hinf|(ms & es & Hfin & Hes)].
    - rewrite Hinf. split; reflexivity.
    - rewrite Hfin in *.
      destruct (SFdiv_one_shape ms es Hsvalid Hes) as (m & e & -> & Hshape).
      split; [reflexivity|now apply SFleb_one_shape]. }
  destruct Hb as [Hb0 Hb1].
  assert (H0 : (0 <=? 1 / (1 + w))%float = true) by now rewrite FloatAxioms.leb_spec, Prim2SF_zero.
  assert (H1 : (1 / (1 + w) <=? 1)%float = true) by now rewrite FloatAxioms.leb_spec, Prim2SF_one.
  split; [|split; [exact H0|split; [exact H1|now apply float_one_minus_plus]]].
  unfold is_zero. rewrite FloatAxioms.eqb_spec. change (Prim2SF zero) with (Prim2SF 0).
  rewrite Prim2SF_zero.
  destruct Hs as [->|(ms & es & -> & _)]; reflexivity.
Qed.

(** ** Prediction *)

Lemma predict_match_result_run (libm_pow : float → float → float)
    (r1 r2 b1 b2 : Z) (g : globals) :
  predict_match_result libm_pow r1 r2 b1 b2 g
  = (predict_spec libm_pow (epa_scores_get g r1) (epa_scores_get g r2)
       (epa_scores_get g b1) (epa_scores_get g b2), g).
Proof.
  unfold predict_match_result, predict_spec, calculate_win_probability,
    mbind, M_bind, res_bind, get_epa, lift, mret, M_ret.
  destruct (py_add (epa_scores_get g r1) _) as [rt|]; [|reflexivity].
  destruct (py_add (epa_scores_get g b1) _) as [bt|]; [|reflexivity].
  destruct (py_sub rt bt) as [margin|]; [|reflexivity].
  destruct (py_sub bt rt) as [d|]; [|reflexivity].
  destruct (py_truediv d _) as [q|]; [|reflexivity].
  destruct (py_pow_10 libm_pow q) as [p|]; [|reflexivity].
  destruct (py_add _ p) as [s|]; [|reflexivity].
  destruct (py_truediv _ s) as [bw|]; [|reflexivity].
  destruct (py_sub _ bw) as [rw|]; reflexivity.
Qed.

(** C3, as stated, fails: with finite ratings 80, 80, 125000 and 80 the
    power [10 ** 312.3] is out of the float range, and the prediction
    raises [OverflowError] instead of returning, whatever the platform's
    [pow]. *)
Lemma predict_overflow_counterexample :
  (λ libm_pow, predict_match_result libm_pow 1 2 3 4 far_apart)
  = (λ _, (Raise OverflowError, far_apart)).
Proof. vm_compute. reflexivity. Qed.

Lemma int_to_float_1 : int_to_float 1 = Ok 1%float.
Proof. vm_compute. reflexivity. Qed.

Lemma int_truediv_float (a b : Z) (q : num) :
  int_truediv a b = Ok q → ∃ f, q = PyFloat f.
Proof.
  unfold int_truediv. destruct (b =? 0); [discriminate|].
  destruct (a =? 0); [intros [= <-]; eauto|].
  destruct (SFdiv_core_binary _ _ _ _ _ _) as [[m e] l].
  destruct (is_infinity _); [discriminate|]. intros [= <-]. eauto.
Qed.

Lemma py_truediv_float (x y q : num) :
  py_truediv x y = Ok q → ∃ f, q = PyFloat f.
Proof.
  unfold py_truediv.
  destruct x as [a|a], y as [b|b]; try apply int_truediv_float;
    unfold as_float, mbind, res_bind;
    repeat (match goal with
            | |- context [int_to_float ?z] => destruct (int_to_float z)
            | |- context [is_zero ?z] => destruct (is_zero z)
            end); try discriminate; intros [= <-]; eauto.
Qed.

(** The three float operations after the power, for a power [w >= 0]. *)
Lemma win_probability_arith (w : float) :
  py_add (PyInt 1) (PyFloat w) = Ok (PyFloat (1 + w))
  ∧ ((0 <=? w)%float = true →
       py_truediv (PyInt 1) (PyFloat (1 + w)) = Ok (PyFloat (1 / (1 + w)))
       ∧ py_add (PyFloat (1 - 1 / (1 + w))) (PyFloat (1 / (1 + w))) = Ok (PyFloat 1))
  ∧ ∀ b, py_sub (PyInt 1) (PyFloat b) = Ok (PyFloat (1 - b)).
Proof.
  split; [|split].
  - unfold py_add, as_float. now rewrite int_to_float_1.
  - intros Hw. destruct (float_probability w Hw) as (Hz & _ & _ & Hsum).
    split.
    + unfold py_truediv, as_float. rewrite int_to_float_1.
      unfold mbind, res_bind. now rewrite Hz.
    + unfold py_add, as_float, mbind, res_bind. now rewrite Hsum.
  - intros b. unfold py_sub, as_float. now rewrite int_to_float_1.
Qed.

(** C3, amended.  A prediction never changes the module state, and it is
    the value the specification words, in Python arithmetic: it raises where
    that arithmetic raises (an [OverflowError] when [10 ** (d / 400)] is out
    of range), and otherwise returns the alliance totals as predicted scores
    (absent teams read as the default rating), their difference as margin,
    [1 / (1 + 10 ** ((blue - red) / 400))] and its complement to 1 as win
    probabilities, and "Red Alliance" exactly when the margin is positive.
    Whenever the power is a float [w >= 0], the prediction does return, the
    blue probability lies between 0 and 1 and the two add up to 1. *)
Theorem predict_match_result_spec (libm_pow : float → float → float)
    (r1 r2 b1 b2 : Z) (g : globals) :
  (predict_match_result libm_pow r1 r2 b1 b2 g).2 = g
  ∧ (predict_match_result libm_pow r1 r2 b1 b2 g).1
    = predict_spec libm_pow (epa_scores_get g r1) (epa_scores_get g r2)
        (epa_scores_get g b1) (epa_scores_get g b2)
  ∧ (∀ p, (predict_match_result libm_pow r1 r2 b1 b2 g).1 = Ok p →
       py_add (epa_scores_get g r1) (epa_scores_get g r2) = Ok (predicted_red_score p)
       ∧ py_add (epa_scores_get g b1) (epa_scores_get g b2) = Ok (predicted_blue_score p)
       ∧ py_sub (predicted_red_score p) (predicted_blue_score p) = Ok (predicted_margin p)
       ∧ (∃ d q w,
            py_sub (predicted_blue_score p) (predicted_red_score p) = Ok d
            ∧ py_truediv d (PyInt 400) = Ok (PyFloat q)
            ∧ float_pow_10 libm_pow q = Ok w
            ∧ blue_win_prob p = PyFloat (1 / (1 + w))
            ∧ red_win_prob p = PyFloat (1 - 1 / (1 + w))
            ∧ ((0 <=? w)%float = true →
                 (0 <=? 1 / (1 + w))%float = true
                 ∧ (1 / (1 + w) <=? 1)%float = true
                 ∧ py_add (red_win_prob p) (blue_win_prob p) = Ok (PyFloat 1)))
       ∧ winner p = (if py_gt (predicted_margin p) (PyInt 0)
                     then "Red Alliance"%string else "Blue Alliance"%string)
       ∧ (num_compare (predicted_margin p) (PyInt 0) = Some Eq →
            winner p = "Blue Alliance"%string))
  ∧ (∀ rt bt margin d q w,
       py_add (epa_scores_get g r1) (epa_scores_get g r2) = Ok rt →
       py_add (epa_scores_get g b1) (epa_scores_get g b2) = Ok bt →
       py_sub rt bt = Ok margin →
       py_sub bt rt = Ok d →
       py_truediv d (PyInt 400) = Ok (PyFloat q) →
       float_pow_10 libm_pow q = Ok w →
       (0 <=? w)%float = true →
       ∃ p, (predict_match_result libm_pow r1 r2 b1 b2 g).1 = Ok p).
Proof.
  rewrite predict_match_result_run. cbn [fst snd].
  split; [reflexivity|]. split; [reflexivity|]. split.
  - intros p. unfold predict_spec, mbind, res_bind.
    destruct (py_add (epa_scores_get g r1) _) as [rt|]; [|discriminate].
    destruct (py_add (epa_scores_get g b1) _) as [bt|]; [|discriminate].
    destruct (py_sub rt bt) as [margin|] eqn:Hmargin; [|discriminate].
    destruct (py_sub bt rt) as [d|] eqn:Hd; [|discriminate].
    destruct (py_truediv d _) as [q|] eqn:Hq; [|discriminate].
    destruct (py_truediv_float _ _ _ Hq) as [qf ->].
    cbn [py_pow_10]. unfold mbind, res_bind.
    destruct (float_pow_10 libm_pow qf) as [w|] eqn:Hw; [|discriminate].
    destruct (win_probability_arith w) as (Hs & Hprob & Hred).
    rewrite Hs.
    destruct (py_truediv (PyInt 1) (PyFloat (1 + w))) as [bw|] eqn:Hbw; [|discriminate].
    assert (Hbwv : bw = PyFloat (1 / (1 + w))).
    { revert Hbw. unfold py_truediv, as_float. rewrite int_to_float_1.
      unfold mbind, res_bind.
      destruct (is_zero (1 + w)); [discriminate|]. now intros [= <-]. }
    subst bw. rewrite Hred. intros [= <-].
    cbn [predicted_red_score predicted_blue_score predicted_margin
         red_win_prob blue_win_prob winner].
    split; [reflexivity|]. split; [reflexivity|]. split; [exact Hmargin|]. split.
    + exists d, qf, w.
      split; [exact Hd|]. split; [exact Hq|]. split; [exact Hw|].
      split; [reflexivity|]. split; [reflexivity|].
      intros H0. destruct (float_probability w H0) as (_ & Hb0 & Hb1 & Hsum).
      split; [exact Hb0|]. split; [exact Hb1|].
      unfold py_add, as_float, mbind, res_bind. now rewrite Hsum.
    + split; [reflexivity|]. unfold py_gt. now intros ->.
  - intros rt bt margin d q w Hrt Hbt Hmargin Hd Hq Hw H0.
    unfold predict_spec, mbind, res_bind.
    rewrite Hrt, Hbt, Hmargin, Hd, Hq. cbn [py_pow_10]. unfold mbind, res_bind.
    rewrite Hw.
    destruct (win_probability_arith w) as (Hs & Hprob & Hred).
    destruct (Hprob H0) as [Hdiv _].
    rewrite Hs, Hdiv, Hred. eauto.
Qed.

Lemma predict_match_result_spec_witness :
  ∃ p, (predict_match_result (λ x _, x) 1 2 3 4 level_state).1 = Ok p.
Proof.
  apply (proj2 (proj2 (proj2 (predict_match_result_spec (λ x _, x) 1 2 3 4 level_state)))
           (PyFloat 150) (PyFloat 150) (PyFloat 0) (PyFloat 0) 0%float 1%float);
    vm_compute; reflexivity.
Defined.

(** * Further properties *)

(** ** Conversion of an int to a float *)

Lemma valid_finite_intro (s : bool) (m : positive) (e : Z) :
  Z.pos (digits2_pos m) = 53 → -1074 <= e <= 971 →
  valid_binary (S754_finite s m e) = true.
Proof.
  intros Hd He. unfold SpecFloat.valid_binary, bounded, canonical_mantissa.
  rewrite Hd, fexp_eq. apply andb_true_intro. split.
  - apply Z.eqb_eq. lia.
  - apply Z.leb_le. unfold emax, prec. lia.
Qed.

(** Rounding a non-zero integer gives a finite non-zero float or an
    infinity, never a zero. *)
Lemma binary_round_int_shape (s : bool) (p : positive) :
  binary_round prec emax s p 0 = S754_infinity s
  ∨ ∃ m e, binary_round prec emax s p 0 = S754_finite s m e
           ∧ valid_binary (S754_finite s m e) = true.
Proof.
  pose proof (digits2_bounds p) as [Dlo Dhi].
  assert (Hd1 : 1 <= Z.pos (digits2_pos p)) by lia.
  destruct (Z_le_gt_dec (Z.pos (digits2_pos p)) 53) as [Hsmall|Hbig].
  - right.
    pose proof (binary_round_exact s p 0) as Hex. cbv zeta in Hex.
    rewrite fexp_eq in Hex.
    replace (Z.max (Z.pos (digits2_pos p) + 0 - 53) (-1074))
      with (Z.pos (digits2_pos p) - 53) in Hex by lia.
    specialize (Hex ltac:(lia)).
    rewrite (proj2 (Z.leb_le _ 971)) in Hex by lia.
    eexists _, _. split; [exact Hex|].
    apply valid_finite_intro; [|lia].
    assert (Hpow : 0 < 2 ^ (0 - (Z.pos (digits2_pos p) - 53)))
      by (apply Z.pow_pos_nonneg; lia).
    rewrite (digits2_shift p (0 - (Z.pos (digits2_pos p) - 53))); [lia|lia|].
    rewrite Z2Pos.id by nia. reflexivity.
  - destruct (binary_round_shift s p 0 (Z.pos (digits2_pos p) - 53)
                (Z.pos (digits2_pos p) - 53)) as [Hr ->]; try lia.
    destruct (Z.ltb_spec (rne (Z.pos p) (Z.pos (digits2_pos p) - 53)) two53) as [Hlt|Hge].
    + destruct (Z.leb_spec (Z.pos (digits2_pos p) - 53) 971) as [Hle|Hgt]; [right|now left].
      eexists _, _. split; [reflexivity|].
      apply valid_finite_intro; [|lia].
      apply digits2_unique. rewrite Z2Pos.id by lia.
      change (2 ^ (53 - 1)) with two52. change (2 ^ 53) with two53. lia.
    + destruct (Z.leb_spec (Z.pos (digits2_pos p) - 53 + 1) 971) as [Hle|Hgt]; [right|now left].
      eexists _, _. split; [reflexivity|].
      apply valid_finite_intro; [|lia].
      apply digits2_unique. vm_compute. split; [discriminate|reflexivity].
Qed.

Lemma is_zero_SF2Prim_finite (s : bool) (m : positive) (e : Z) :
  valid_binary (S754_finite s m e) = true →
  is_zero (SF2Prim (S754_finite s m e)) = false.
Proof.
  intros Hv. unfold is_zero.
  rewrite FloatAxioms.eqb_spec, (FloatAxioms.Prim2SF_SF2Prim _ Hv).
  change (Prim2SF zero) with (S754_zero false).
  now destruct s.
Qed.

(** [float(z)] of a non-zero int is not zero. *)
Lemma int_to_float_nonzero (z : Z) (f : float) :
  z ≠ 0 → int_to_float z = Ok f → is_zero f = false.
Proof.
  intros Hz. unfold int_to_float.
  assert (Hshape : ∃ s p, binary_normalize prec emax z 0 false
                          = binary_round prec emax s p 0).
  { destruct z as [|p|p]; [easy|now exists false, p|now exists true, p]. }
  destruct Hshape as (s & p & ->).
  destruct (binary_round_int_shape s p) as [->|(m & e & -> & Hv)].
  - now destruct s.
  - destruct (is_infinity _); [discriminate|]. intros [= <-].
    now apply is_zero_SF2Prim_finite.
Qed.

(** ** Division by zero *)

Lemma no_zero_division_bind {A B : Type} (r : res A) (k : A → res B) :
  no_zero_division r → (∀ a, r = Ok a → no_zero_division (k a)) →
  no_zero_division (r ≫= k).
Proof.
  unfold no_zero_division, mbind, res_bind. intros Hr Hk.
  destruct r as [a|e]; [now apply Hk|exact Hr].
Qed.

Lemma no_zero_division_M_bind {A B : Type} (c : M A) (k : A → M B) (g : globals) :
  no_zero_division (c g).1 →
  (∀ a g', c g = (Ok a, g') → no_zero_division (k a g').1) →
  no_zero_division ((c ≫= k) g).1.
Proof.
  unfold mbind, M_bind. intros Hc Hk.
  destruct (c g) as [[a|e] g']; [now apply Hk|exact Hc].
Qed.

Lemma int_to_float_no_zero_division (z : Z) : no_zero_division (int_to_float z).
Proof. unfold int_to_float. now destruct (is_infinity _). Qed.

Lemma as_float_no_zero_division (x : num) : no_zero_division (as_float x).
Proof. destruct x; [apply int_to_float_no_zero_division|easy]. Qed.

Lemma float_op_no_zero_division (op : float → float → float) (x y : num) :
  no_zero_division (a ← as_float x; b ← as_float y; Ok (PyFloat (op a b))).
Proof.
  apply no_zero_division_bind; [apply as_float_no_zero_division|intros a _].
  apply no_zero_division_bind; [apply as_float_no_zero_division|easy].
Qed.

Lemma py_add_no_zero_division (x y : num) : no_zero_division (py_add x y).
Proof.
  destruct x, y; try easy; apply (float_op_no_zero_division PrimFloat.add).
Qed.

Lemma py_sub_no_zero_division (x y : num) : no_zero_division (py_sub x y).
Proof.
  destruct x, y; try easy; apply (float_op_no_zero_division PrimFloat.sub).
Qed.

Lemma py_mul_no_zero_division (x y : num) : no_zero_division (py_mul x y).
Proof.
  destruct x, y; try easy; apply (float_op_no_zero_division PrimFloat.mul).
Qed.

Lemma int_truediv_no_zero_division (a b : Z) :
  b ≠ 0 → no_zero_division (int_truediv a b).
Proof.
  intros Hb. unfold int_truediv. rewrite (proj2 (Z.eqb_neq b 0) Hb).
  destruct (a =? 0); [easy|].
  destruct (SFdiv_core_binary _ _ _ _ _ _) as [[q e] l].
  now destruct (is_infinity _).
Qed.

(** A division raises [ZeroDivisionError] only for a divisor that is zero. *)
Lemma py_truediv_no_zero_division (x d : num) :
  nonzero d → no_zero_division (py_truediv x d).
Proof.
  intros Hd. unfold py_truediv.
  assert (Hfloat : no_zero_division
            (a ← as_float x; b ← as_float d;
             if is_zero b then Raise ZeroDivisionError else Ok (PyFloat (a / b)))).
  { apply no_zero_division_bind; [apply as_float_no_zero_division|intros a _].
    apply no_zero_division_bind; [apply as_float_no_zero_division|intros b Hb].
    assert (Hnz : is_zero b = false).
    { destruct d as [z|f]; cbn in Hb, Hd.
      - now apply (int_to_float_nonzero z).
      - now injection Hb as <-. }
    now rewrite Hnz. }
  destruct x as [a|a], d as [b|b]; try exact Hfloat.
  now apply int_truediv_no_zero_division.
Qed.

Lemma sum_from_no_zero_division (l : list num) :
  ∀ acc, no_zero_division (sum_from acc l).
Proof.
  induction l as [|x l IH]; intros acc; [easy|].
  cbn [sum_from]. apply no_zero_division_bind; [apply py_add_no_zero_division|auto].
Qed.

Lemma surprise_no_zero_division (own_score own_total opp_score opp_total m : num) :
  no_zero_division (surprise own_score own_total opp_score opp_total m).
Proof.
  unfold surprise.
  apply no_zero_division_bind; [apply py_sub_no_zero_division|intros a _].
  apply no_zero_division_bind; [apply py_sub_no_zero_division|intros b _].
  apply no_zero_division_bind; [apply py_mul_no_zero_division|intros c _].
  apply py_sub_no_zero_division.
Qed.

Lemma adjusted_no_zero_division (old k m s : num) (size : nat) :
  (∀ d, py_add (PyInt 1) m = Ok d → nonzero d) → size ≠ 0%nat →
  no_zero_division (adjusted old k m s size).
Proof.
  intros Hm Hsize. unfold adjusted.
  apply no_zero_division_bind; [apply py_add_no_zero_division|intros d Hd].
  apply no_zero_division_bind; [apply py_truediv_no_zero_division; auto|intros e _].
  apply no_zero_division_bind; [apply py_mul_no_zero_division|intros f _].
  apply no_zero_division_bind; [|intros h _; apply py_add_no_zero_division].
  apply py_truediv_no_zero_division. cbn. lia.
Qed.

Lemma for_each_no_zero_division {A : Type} (body : A → M unit) (l : list A) :
  (∀ x, In x l → ∀ g, no_zero_division (body x g).1) →
  ∀ g, no_zero_division (for_each l body g).1.
Proof.
  induction l as [|x l IH]; intros Hbody g; [easy|].
  cbn [for_each]. apply no_zero_division_M_bind.
  - apply Hbody. now left.
  - intros _ g' _. apply IH. intros y Hy. apply Hbody. now right.
Qed.

Lemma update_team_no_zero_division
    (own_score own_total opp_score opp_total k m : num) (size : nat) (t : Z)
    (g : globals) :
  (∀ d, py_add (PyInt 1) m = Ok d → nonzero d) → size ≠ 0%nat →
  no_zero_division
    (update_team own_score own_total opp_score opp_total k m size t g).1.
Proof.
  intros Hm Hsize. rewrite update_team_run. unfold new_rating.
  pose proof (surprise_no_zero_division own_score own_total opp_score opp_total m) as Hs.
  destruct (surprise _ _ _ _ _) as [s|e]; [|exact Hs].
  cbn [mbind res_bind].
  pose proof (adjusted_no_zero_division (epa_scores_get g t) k m s size Hm Hsize) as Ha.
  now destruct (adjusted _ _ _ _ _).
Qed.

Lemma loop_no_zero_division (own_score own_total opp_score opp_total k m : num)
    (l : list Z) (g : globals) :
  (∀ d, py_add (PyInt 1) m = Ok d → nonzero d) →
  no_zero_division
    (for_each l (update_team own_score own_total opp_score opp_total k m (length l)) g).1.
Proof.
  intros Hm. apply for_each_no_zero_division. intros t Ht g'.
  apply update_team_no_zero_division; [exact Hm|]. now destruct l.
Qed.

Lemma update_epa_no_zero_division (red blue : list Z) (rs bs k m : num) (g : globals) :
  (∀ d, py_add (PyInt 1) m = Ok d → nonzero d) →
  no_zero_division (update_epa red blue rs bs k m g).1.
Proof.
  intros Hm. rewrite update_epa_unfold.
  pose proof (sum_from_no_zero_division (map (epa_scores_get g) red) (PyInt 0)) as Hr.
  pose proof (sum_from_no_zero_division (map (epa_scores_get g) blue) (PyInt 0)) as Hb.
  unfold py_sum.
  destruct (sum_from _ (map _ red)) as [rt|e]; [|exact Hr].
  destruct (sum_from _ (map _ blue)) as [bt|e]; [|exact Hb].
  apply no_zero_division_M_bind; [now apply loop_no_zero_division|].
  intros _ g' _. now apply loop_no_zero_division.
Qed.

Lemma margin_ok_nonzero (m : num) :
  margin_ok m → ∀ d, py_add (PyInt 1) m = Ok d → nonzero d.
Proof.
  intros (_ & d' & df & Hd' & Hdf & Hnz) d Hd.
  rewrite Hd in Hd'. injection Hd' as <-.
  destruct d as [z|f]; cbn in *.
  - intros ->. vm_compute in Hdf. injection Hdf as <-. discriminate Hnz.
  - now injection Hdf as <-.
Qed.

Lemma process_match_no_zero_division (mtch : match_record) (n : Z) (g : globals) :
  no_zero_division (process_match mtch n g).1.
Proof.
  unfold process_match.
  destruct (calculate_k_factor_returns n) as [k Hk].
  destruct (calculate_margin_parameter_ok n) as (m & Hm & Hok).
  unfold mbind, M_bind, lift. rewrite Hk, Hm.
  apply update_epa_no_zero_division, margin_ok_nonzero, Hok.
Qed.

Lemma default_epa_loop_no_zero_division (matches : list match_record) :
  ∀ acc n, no_zero_division (default_epa_loop matches acc n).
Proof.
  induction matches as [|mtch rest IH]; intros acc n; [easy|].
  cbn [default_epa_loop].
  apply no_zero_division_bind; [apply py_add_no_zero_division|intros s _].
  apply no_zero_division_bind; [apply py_add_no_zero_division|intros s' _].
  apply IH.
Qed.

Lemma calculate_default_epa_no_zero_division (matches : list match_record) :
  no_zero_division (calculate_default_epa matches).
Proof.
  unfold calculate_default_epa.
  apply no_zero_division_bind; [apply default_epa_loop_no_zero_division|].
  intros [total n] _. destruct (Z.ltb_spec 0 n); [|easy].
  apply py_truediv_no_zero_division. cbn. lia.
Qed.

Lemma process_matches_no_zero_division (matches : list match_record) (g : globals) :
  no_zero_division (process_matches matches g).1.
Proof.
  unfold process_matches. apply for_each_no_zero_division.
  intros [n mtch] _ g'. apply process_match_no_zero_division.
Qed.

Lemma process_event_no_zero_division (matches : list match_record) (g : globals) :
  no_zero_division (process_event matches g).1.
Proof.
  unfold process_event.
  apply no_zero_division_M_bind; [apply calculate_default_epa_no_zero_division|].
  intros d g' _. apply no_zero_division_M_bind; [easy|].
  intros _ g'' _. apply process_matches_no_zero_division.
Qed.

(** X1. [update_epa] raises [ZeroDivisionError] only for a margin
    parameter [m] with [1 + m] zero: never because an alliance is empty,
    whose loop does not run, and never for the size of a non-empty one. *)
Theorem update_epa_zero_division (red blue : list Z) (rs bs k m : num) (g : globals) :
  (∀ d, py_add (PyInt 1) m = Ok d → nonzero d) →
  (update_epa red blue rs bs k m g).1 ≠ Raise ZeroDivisionError.
Proof.
  intros Hm Hraise.
  pose proof (update_epa_no_zero_division red blue rs bs k m g Hm) as H.
  now rewrite Hraise in H.
Qed.

Lemma update_epa_zero_division_witness :
  (update_epa [] [5; 6; 7] (PyInt 3) (PyFloat 4) (PyInt 1) (PyFloat 0.5)
     initial_globals).1 ≠ Raise ZeroDivisionError.
Proof.
  apply update_epa_zero_division.
  intros d [= <-]. vm_compute. reflexivity.
Defined.

(** X2. The event loop never raises [ZeroDivisionError], whatever the
    records: the baseline divides only by a positive number of team slots,
    the schedule's margin parameter is never -1, and an alliance is
    divided by its size only inside the loop over its teams. *)
Theorem process_events_no_zero_division (events : list (list match_record))
    (g : globals) :
  (process_events events g).1 ≠ Raise ZeroDivisionError.
Proof.
  intros Hraise.
  assert (H : no_zero_division (process_events events g).1).
  { unfold process_events. apply for_each_no_zero_division.
    intros matches _ g'. apply process_event_no_zero_division. }
  now rewrite Hraise in H.
Qed.

(** ** What the store holds *)

Section Writes.
Context {A B : Type} (dom : Z → Prop) (P : num → Prop).

Lemma writes_pure (c : M A) :
  (∀ g, epa_scores (c g).2 = epa_scores g) → writes dom P c.
Proof. intros Hc g t. left. now rewrite Hc. Qed.

Lemma writes_set_epa (t : Z) (v : num) : dom t → P v → writes dom P (set_epa t v).
Proof.
  intros Ht Hv g t'. cbn. destruct (decide (t = t')) as [<-|Hne].
  - right. split; [exact Ht|]. exists v. now rewrite lookup_insert_eq.
  - left. now apply lookup_insert_ne.
Qed.

Lemma writes_bind (c : M A) (k : A → M B) :
  writes dom P c → (∀ a, writes dom P (k a)) → writes dom P (c ≫= k).
Proof.
  intros Hc Hk g t. specialize (Hc g t).
  unfold mbind, M_bind. destruct (c g) as [[a|e] g']; cbn in *; [|exact Hc].
  destruct (Hk a g' t) as [Heq|Hw]; [|now right].
  rewrite Heq. exact Hc.
Qed.
End Writes.

Lemma writes_for_each {A : Type} (dom : Z → Prop) (P : num → Prop) (l : list A)
    (body : A → M unit) :
  (∀ x, In x l → writes dom P (body x)) → writes dom P (for_each l body).
Proof.
  induction l as [|x l IH]; intros Hbody; cbn [for_each].
  - now apply writes_pure.
  - apply writes_bind.
    + apply Hbody. now left.
    + intros _. apply IH. intros y Hy. apply Hbody. now right.
Qed.

Lemma writes_weaken {A : Type} (dom dom' : Z → Prop) (P : num → Prop) (c : M A) :
  (∀ t, dom t → dom' t) → writes dom P c → writes dom' P c.
Proof.
  intros Hsub Hc g t. destruct (Hc g t) as [Heq|[Ht Hv]]; [now left|right; auto].
Qed.

(** What [writes] keeps: an entry with [P] stays an entry with [P]. *)
Lemma writes_keeps {A : Type} (dom : Z → Prop) (P : num → Prop) (c : M A)
    (g : globals) (t : Z) :
  writes dom P c →
  (∃ v, epa_scores g !! t = Some v ∧ P v) →
  ∃ v, epa_scores (c g).2 !! t = Some v ∧ P v.
Proof.
  intros Hc Hbefore. destruct (Hc g t) as [Heq|[_ Hv]]; [now rewrite Heq|exact Hv].
Qed.

Lemma py_add_float_r (x : num) (h : float) (v : num) :
  py_add x (PyFloat h) = Ok v → is_float v.
Proof.
  destruct x as [z|f]; cbn.
  - destruct (int_to_float z); [|discriminate]. now intros [= <-].
  - now intros [= <-].
Qed.

Lemma adjusted_float (old k m s : num) (size : nat) (v : num) :
  adjusted old k m s size = Ok v → is_float v.
Proof.
  unfold adjusted.
  destruct (py_add (PyInt 1) m) as [d|]; [|discriminate]. cbn [mbind res_bind].
  destruct (py_truediv k d) as [e|]; [|discriminate]. cbn [mbind res_bind].
  destruct (py_mul e s) as [f|]; [|discriminate]. cbn [mbind res_bind].
  destruct (py_truediv f _) as [h|] eqn:Hh; [|discriminate]. cbn [mbind res_bind].
  destruct (py_truediv_float _ _ _ Hh) as [hf ->].
  apply py_add_float_r.
Qed.

Lemma new_rating_float (g : globals) (own_score own_total opp_score opp_total k m : num)
    (size : nat) (t : Z) (v : num) :
  new_rating g own_score own_total opp_score opp_total k m size t = Ok v → is_float v.
Proof.
  unfold new_rating. destruct (surprise _ _ _ _ _) as [s|]; [|discriminate].
  apply adjusted_float.
Qed.

Lemma writes_update_team (dom : Z → Prop)
    (own_score own_total opp_score opp_total k m : num) (size : nat) (t : Z) :
  dom t →
  writes dom is_float (update_team own_score own_total opp_score opp_total k m size t).
Proof.
  intros Ht g t'. rewrite update_team_run.
  destruct (new_rating _ _ _ _ _ _ _ _ _) as [v|e] eqn:Hv; [|now left].
  apply writes_set_epa; [exact Ht|]. eapply new_rating_float, Hv.
Qed.

Lemma covers_update_team (own_score own_total opp_score opp_total k m : num)
    (size : nat) :
  ∀ l, covers (λ t, In t l) is_float
         (for_each l (update_team own_score own_total opp_score opp_total k m size)).
Proof.
  induction l as [|t l IH]; intros g [] g' Hrun t' Ht'; [easy|].
  cbn [for_each] in Hrun. unfold mbind at 1, M_bind at 1 in Hrun.
  rewrite update_team_run in Hrun.
  destruct (new_rating _ _ _ _ _ _ _ _ _) as [v|e] eqn:Hv; [|discriminate].
  cbn [set_epa] in Hrun.
  destruct (in_dec Z.eq_dec t' l) as [Hin|Hnotin]; [now apply (IH _ _ _ Hrun)|].
  destruct Ht' as [<-|Hin]; [|easy].
  pose proof (writes_keeps (λ t, In t l) is_float _
                {| epa_scores := <[t:=v]> (epa_scores g); DEFAULT_EPA := DEFAULT_EPA g |}
                t
                (writes_for_each _ _ l _
                   (λ x Hx, writes_update_team (λ t, In t l) own_score own_total
                              opp_score opp_total k m size x Hx))) as Hkeep.
  rewrite Hrun in Hkeep. apply Hkeep.
  exists v. cbn. rewrite lookup_insert_eq. split; [reflexivity|].
  eapply new_rating_float, Hv.
Qed.

Lemma writes_update_epa (red blue : list Z) (rs bs k m : num) :
  writes (λ t, In t (red ++ blue)) is_float (update_epa red blue rs bs k m).
Proof.
  intros g t. rewrite update_epa_unfold.
  destruct (py_sum (map _ red)) as [rt|]; [|now left].
  destruct (py_sum (map _ blue)) as [bt|]; [|now left].
  revert g t. apply writes_bind; [|intros _]; apply writes_for_each; intros x Hx;
    apply writes_update_team, in_or_app; auto.
Qed.

Lemma covers_update_epa (red blue : list Z) (rs bs k m : num) :
  covers (λ t, In t (red ++ blue)) is_float (update_epa red blue rs bs k m).
Proof.
  intros g [] g' Hrun t Ht. rewrite update_epa_unfold in Hrun.
  destruct (py_sum (map _ red)) as [rt|]; [|discriminate].
  destruct (py_sum (map _ blue)) as [bt|]; [|discriminate].
  unfold mbind, M_bind in Hrun.
  destruct (for_each red _ g) as [[[]|e] g1] eqn:Hred; [|discriminate].
  apply in_app_or in Ht as [Ht|Ht].
  - pose proof (writes_keeps (λ t, In t blue) is_float _ g1 t
                  (writes_for_each _ _ blue _
                     (λ x Hx, writes_update_team (λ t, In t blue) bs bt rs rt k m
                                (length blue) x Hx))) as Hkeep.
    rewrite Hrun in Hkeep. apply Hkeep.
    now apply (covers_update_team _ _ _ _ _ _ _ red g tt g1 Hred).
  - now apply (covers_update_team _ _ _ _ _ _ _ blue g1 tt g' Hrun).
Qed.

(** X3. A call of [update_epa] never removes an entry of the rating store
    and never rebinds the default rating, even when it raises; every
    rating it writes belongs to a team of the match and is a float; and
    when it returns, every team of both alliances has an entry. *)
Theorem update_epa_store (red blue : list Z) (rs bs k m : num) (g : globals) :
  DEFAULT_EPA (update_epa red blue rs bs k m g).2 = DEFAULT_EPA g
  ∧ (∀ t, epa_scores (update_epa red blue rs bs k m g).2 !! t = epa_scores g !! t
          ∨ (In t (red ++ blue)
             ∧ ∃ f, epa_scores (update_epa red blue rs bs k m g).2 !! t
                    = Some (PyFloat f)))
  ∧ dom (epa_scores g) ⊆ dom (epa_scores (update_epa red blue rs bs k m g).2)
  ∧ ((update_epa red blue rs bs k m g).1 = Ok tt →
     ∀ t, In t (red ++ blue) →
          ∃ f, epa_scores (update_epa red blue rs bs k m g).2 !! t = Some (PyFloat f)).
Proof.
  assert (Hw : ∀ t, epa_scores (update_epa red blue rs bs k m g).2 !! t
                    = epa_scores g !! t
                    ∨ (In t (red ++ blue)
                       ∧ ∃ f, epa_scores (update_epa red blue rs bs k m g).2 !! t
                              = Some (PyFloat f))).
  { intros t. destruct (writes_update_epa red blue rs bs k m g t)
      as [Heq|(Ht & v & Hv & Hf)]; [now left|right].
    split; [exact Ht|]. destruct v as [|f]; [easy|now exists f]. }
  split; [apply (frames_update_epa red blue rs bs k m g)|].
  split; [exact Hw|]. split.
  - intros t Ht. apply elem_of_dom in Ht. apply elem_of_dom.
    destruct (Hw t) as [->|(_ & f & ->)]; [exact Ht|eauto].
  - intros Hret t Ht.
    destruct (update_epa red blue rs bs k m g) as [r g'] eqn:Hrun. cbn in Hret. subst r.
    destruct (covers_update_epa red blue rs bs k m g tt g' Hrun t Ht) as (v & Hv & Hf).
    cbn. destruct v as [|f]; [easy|now exists f].
Qed.

Lemma update_epa_store_witness :
  ∃ f, epa_scores
         (update_epa [1; 2] [3; 4] (PyInt 100) (PyInt 50) (PyFloat 0.5) (PyInt 0)
            initial_globals).2 !! 3 = Some (PyFloat f).
Proof.
  apply (proj2 (proj2 (proj2
           (update_epa_store [1; 2] [3; 4] (PyInt 100) (PyInt 50) (PyFloat 0.5)
              (PyInt 0) initial_globals)))).
  - vm_compute. reflexivity.
  - cbn. tauto.
Defined.


(** ** What the event loop keeps *)

Lemma covers_for_each {A : Type} (part : A → Z → Prop) (P : num → Prop)
    (body : A → M unit) :
  ∀ l, (∀ x, In x l → covers (part x) P (body x)) →
       (∀ x, In x l → writes (λ _, True) P (body x)) →
       covers (λ t, ∃ x, In x l ∧ part x t) P (for_each l body).
Proof.
  induction l as [|x l IH]; intros Hcov Hw g [] g' Hrun t (y & Hy & Ht); [easy|].
  cbn [for_each] in Hrun. unfold mbind, M_bind in Hrun.
  destruct (body x g) as [[[]|e] g1] eqn:Hx; [|discriminate].
  assert (Hrest : writes (λ _, True) P (for_each l body)).
  { apply writes_for_each. intros z Hz. apply Hw. now right. }
  destruct Hy as [<-|Hin].
  - pose proof (writes_keeps _ P _ g1 t Hrest) as Hkeep.
    rewrite Hrun in Hkeep. apply Hkeep.
    apply (Hcov x (or_introl eq_refl) g tt g1 Hx t Ht).
  - apply (IH (λ z Hz, Hcov z (or_intror Hz)) (λ z Hz, Hw z (or_intror Hz))
              g1 tt g' Hrun t).
    now exists y.
Qed.

Lemma In_insert_by {A : Type} (key : A → string) (x y : A) (l : list A) :
  In y (insert_by key x l) ↔ y = x ∨ In y l.
Proof.
  induction l as [|z l IH]; cbn; [intuition|].
  destruct (String.ltb (key z) (key x)); cbn; [rewrite IH|]; intuition.
Qed.

Lemma In_sorted {A : Type} (key : A → string) (y : A) (l : list A) :
  In y (sorted key l) ↔ In y l.
Proof.
  induction l as [|x l IH]; cbn; [easy|].
  rewrite In_insert_by, IH. intuition.
Qed.

Lemma In_enumerate {A : Type} (l : list A) :
  ∀ start n x, In (n, x) (enumerate start l) → In x l.
Proof.
  induction l as [|y l IH]; intros start n x; cbn; [easy|].
  intros [[= _ <-]|Hin]; [now left|right; eauto].
Qed.

Lemma enumerate_In {A : Type} (l : list A) :
  ∀ start x, In x l → ∃ n, In (n, x) (enumerate start l).
Proof.
  induction l as [|y l IH]; intros start x; cbn; [easy|].
  intros [<-|Hin]; [exists start; now left|].
  destruct (IH (start + 1) x Hin) as [n Hn]. exists n. now right.
Qed.

Lemma writes_process_match (mtch : match_record) (n : Z) :
  writes (λ t, In t (participants mtch)) is_float (process_match mtch n).
Proof.
  intros g t. unfold process_match, mbind, M_bind, lift.
  destruct (calculate_k_factor n) as [k|]; [|now left].
  destruct (calculate_margin_parameter n) as [m|]; [|now left].
  apply writes_update_epa.
Qed.

Lemma covers_process_match (mtch : match_record) (n : Z) :
  covers (λ t, In t (participants mtch)) is_float (process_match mtch n).
Proof.
  intros g [] g' Hrun. unfold process_match, mbind, M_bind, lift in Hrun.
  destruct (calculate_k_factor n) as [k|]; [|discriminate].
  destruct (calculate_margin_parameter n) as [m|]; [|discriminate].
  exact (covers_update_epa _ _ _ _ _ _ g tt g' Hrun).
Qed.

Lemma In_event_teams (matches : list match_record) (t : Z) :
  In t (event_teams matches) ↔ ∃ mtch, In mtch matches ∧ In t (participants mtch).
Proof.
  unfold event_teams. rewrite in_concat. split.
  - intros (l & Hl & Ht). apply in_map_iff in Hl as (mtch & <- & Hm). eauto.
  - intros (mtch & Hm & Ht). exists (participants mtch). split; [|exact Ht].
    apply in_map_iff. eauto.
Qed.

Lemma In_all_teams (events : list (list match_record)) (t : Z) :
  In t (all_teams events) ↔ ∃ matches, In matches events ∧ In t (event_teams matches).
Proof.
  unfold all_teams. rewrite in_concat. split.
  - intros (l & Hl & Ht). apply in_map_iff in Hl as (ms & <- & Hm). eauto.
  - intros (ms & Hm & Ht). exists (event_teams ms). split; [|exact Ht].
    apply in_map_iff. eauto.
Qed.

Lemma writes_process_matches (matches : list match_record) :
  writes (λ t, In t (event_teams matches)) is_float (process_matches matches).
Proof.
  unfold process_matches. apply writes_for_each. intros [n mtch] Hin.
  eapply writes_weaken; [|apply writes_process_match].
  intros t Ht. apply In_event_teams. exists mtch. split; [|exact Ht].
  eapply In_sorted, In_enumerate, Hin.
Qed.

Lemma covers_process_matches (matches : list match_record) :
  covers (λ t, In t (event_teams matches)) is_float (process_matches matches).
Proof.
  intros g [] g' Hrun t Ht. apply In_event_teams in Ht as (mtch & Hm & Ht).
  unfold process_matches in Hrun.
  destruct (enumerate_In (sorted start_key matches) 1 mtch) as [n Hn];
    [now apply In_sorted|].
  apply (covers_for_each (λ '(_, mtch) t, In t (participants mtch)) is_float
           (λ '(match_number, mtch), process_match mtch match_number)
           (enumerate 1 (sorted start_key matches))
           (λ '(n, mtch) _, covers_process_match mtch n)
           (λ '(n, mtch) _, writes_weaken _ _ _ _ (λ _ _, I) (writes_process_match mtch n))
           g tt g' Hrun t).
  now exists (n, mtch).
Qed.

Lemma writes_process_event (matches : list match_record) :
  writes (λ t, In t (event_teams matches)) is_float (process_event matches).
Proof.
  unfold process_event. apply writes_bind; [now apply writes_pure|intros d].
  apply writes_bind; [now apply writes_pure|intros _].
  apply writes_process_matches.
Qed.

Lemma covers_process_event (matches : list match_record) :
  covers (λ t, In t (event_teams matches)) is_float (process_event matches).
Proof.
  intros g [] g' Hrun. unfold process_event, mbind, M_bind, lift in Hrun.
  destruct (calculate_default_epa matches) as [d|]; [|discriminate].
  cbn [set_DEFAULT_EPA] in Hrun.
  exact (covers_process_matches matches _ tt g' Hrun).
Qed.

Lemma writes_process_events (events : list (list match_record)) :
  writes (λ t, In t (all_teams events)) is_float (process_events events).
Proof.
  unfold process_events. apply writes_for_each. intros matches Hin.
  eapply writes_weaken; [|apply writes_process_event].
  intros t Ht. apply In_all_teams. eauto.
Qed.

Lemma covers_process_events (events : list (list match_record)) :
  covers (λ t, In t (all_teams events)) is_float (process_events events).
Proof.
  intros g [] g' Hrun t Ht. apply In_all_teams in Ht as (matches & Hm & Ht).
  apply (covers_for_each (λ matches t, In t (event_teams matches)) is_float
           process_event events
           (λ matches _, covers_process_event matches)
           (λ matches _, writes_weaken _ _ _ _ (λ _ _, I) (writes_process_event matches))
           g tt g' Hrun t).
  now exists matches.
Qed.

(** X4. Over any list of events the event loop removes no entry of the
    rating store and leaves the entry of every team that is in none of the
    matches as it was, even when it raises; every rating it writes is a
    float, so a store of floats stays a store of floats; and when the loop
    returns, every team of every match has an entry. *)
Theorem process_events_store (events : list (list match_record)) (g : globals) :
  (∀ t, epa_scores (process_events events g).2 !! t = epa_scores g !! t
        ∨ (In t (all_teams events)
           ∧ ∃ f, epa_scores (process_events events g).2 !! t = Some (PyFloat f)))
  ∧ dom (epa_scores g) ⊆ dom (epa_scores (process_events events g).2)
  ∧ ((∀ t v, epa_scores g !! t = Some v → is_float v) →
     ∀ t v, epa_scores (process_events events g).2 !! t = Some v → is_float v)
  ∧ ((process_events events g).1 = Ok tt →
     ∀ t, In t (all_teams events) →
          ∃ f, epa_scores (process_events events g).2 !! t = Some (PyFloat f)).
Proof.
  assert (Hw : ∀ t, epa_scores (process_events events g).2 !! t = epa_scores g !! t
                    ∨ (In t (all_teams events)
                       ∧ ∃ f, epa_scores (process_events events g).2 !! t
                              = Some (PyFloat f))).
  { intros t. destruct (writes_process_events events g t)
      as [Heq|(Ht & v & Hv & Hf)]; [now left|right].
    split; [exact Ht|]. destruct v as [|f]; [easy|now exists f]. }
  split; [exact Hw|]. split; [|split].
  - intros t Ht. apply elem_of_dom in Ht. apply elem_of_dom.
    destruct (Hw t) as [->|(_ & f & ->)]; [exact Ht|eauto].
  - intros Hfloats t v Hv. destruct (Hw t) as [Heq|(_ & f & Hf)].
    + apply (Hfloats t). now rewrite <- Heq.
    + rewrite Hf in Hv. now injection Hv as <-.
  - intros Hret t Ht.
    destruct (process_events events g) as [r g'] eqn:Hrun. cbn in Hret. subst r.
    destruct (covers_process_events events g tt g' Hrun t Ht) as (v & Hv & Hf).
    cbn. destruct v as [|f]; [easy|now exists f].
Qed.

Lemma process_events_store_witness :
  ∃ f, epa_scores (process_events [[match_c; match_a]; [match_b]] initial_globals).2
       !! 7 = Some (PyFloat f).
Proof.
  apply (proj2 (proj2 (proj2
           (process_events_store [[match_c; match_a]; [match_b]] initial_globals)))).
  - vm_compute. reflexivity.
  - vm_compute. tauto.
Defined.

(** ** The default rating over the events *)

Lemma frames_weaken {A : Type} (dom dom' : Z → Prop) (c : M A) :
  (∀ t, dom t → dom' t) → frames dom c → frames dom' c.
Proof.
  intros Hsub Hc g. destruct (Hc g) as [Hd Hs]. split; [exact Hd|].
  intros t Ht. apply Hs. auto.
Qed.

Lemma frames_process_match (mtch : match_record) (n : Z) :
  frames (λ _, True) (process_match mtch n).
Proof.
  unfold process_match.
  apply frames_bind; [apply frames_lift|intros k].
  apply frames_bind; [apply frames_lift|intros m].
  eapply frames_weaken; [|apply frames_update_epa]. easy.
Qed.

Lemma frames_process_matches (matches : list match_record) :
  frames (λ _, True) (process_matches matches).
Proof.
  unfold process_matches. apply frames_for_each.
  intros [n mtch] _. apply frames_process_match.
Qed.

Lemma for_each_app {A : Type} (body : A → M unit) (l1 l2 : list A) (g : globals) :
  for_each (l1 ++ l2) body g = (for_each l1 body;; for_each l2 body) g.
Proof.
  revert g. induction l1 as [|x l1 IH]; intros g; cbn [for_each app].
  - reflexivity.
  - unfold mbind, M_bind in *. destruct (body x g) as [[[]|e] g1]; [apply IH|reflexivity].
Qed.

Lemma process_event_default_run (matches : list match_record) (g : globals) (d : num) :
  calculate_default_epa matches = Ok d →
  DEFAULT_EPA (process_event matches g).2 = d.
Proof.
  intros Hd. unfold process_event, mbind, M_bind, lift. rewrite Hd.
  cbn [set_DEFAULT_EPA].
  now destruct (frames_process_matches matches
                  {| epa_scores := epa_scores g; DEFAULT_EPA := d |}) as [-> _].
Qed.

(** X5. An event rebinds the default rating to its baseline before any of
    its matches is processed, and match processing leaves it there: when
    the baseline raises nothing is changed; an event without matches only
    sets the default rating to the int 60; the baseline of an event with
    matches is a float; and after the event loop has returned, the
    default rating is the baseline of the last event. *)
Theorem process_event_default (matches : list match_record) (g : globals) :
  (∀ e, calculate_default_epa matches = Raise e →
        process_event matches g = (Raise e, g))
  ∧ (∀ d, calculate_default_epa matches = Ok d →
          DEFAULT_EPA (process_event matches g).2 = d
          ∧ process_event matches g
            = process_matches matches
                {| epa_scores := epa_scores g; DEFAULT_EPA := d |}
          ∧ (matches ≠ [] → is_float d))
  ∧ process_event [] g
    = (Ok tt, {| epa_scores := epa_scores g; DEFAULT_EPA := PyInt 60 |})
  ∧ (∀ events g', process_events (events ++ [matches]) g = (Ok tt, g') →
                  calculate_default_epa matches = Ok (DEFAULT_EPA g')).
Proof.
  split; [|split; [|split]].
  - intros e He. unfold process_event, mbind, M_bind, lift. now rewrite He.
  - intros d Hd. split; [now apply process_event_default_run|]. split.
    + unfold process_event, mbind, M_bind, lift. now rewrite Hd.
    + intros Hne. rewrite calculate_default_epa_nonempty in Hd by exact Hne.
      destruct (total_points matches) as [t|]; [|discriminate].
      destruct (py_truediv_float _ _ _ Hd) as [f ->]. exact I.
  - reflexivity.
  - intros events g' Hrun. unfold process_events in Hrun.
    rewrite for_each_app in Hrun. unfold mbind, M_bind in Hrun.
    destruct (for_each events process_event g) as [[[]|e] g1]; [|discriminate].
    cbn [for_each] in Hrun. unfold mbind, M_bind in Hrun.
    destruct (process_event matches g1) as [[[]|e] g2] eqn:Hlast; [|discriminate].
    injection Hrun as <-.
    destruct (calculate_default_epa matches) as [d|e] eqn:Hd.
    + f_equal. pose proof (process_event_default_run matches g1 d Hd) as H.
      now rewrite Hlast in H.
    + unfold process_event, mbind, M_bind, lift in Hlast. rewrite Hd in Hlast.
      discriminate.
Qed.

Lemma process_event_default_witness :
  ∃ g', process_events ([[match_c; match_a]] ++ [[]]) initial_globals = (Ok tt, g')
        ∧ calculate_default_epa [] = Ok (DEFAULT_EPA g').
Proof.
  eexists. split; [vm_compute; reflexivity|].
  apply (proj2 (proj2 (proj2 (process_event_default [] initial_globals)))
           [[match_c; match_a]]).
  vm_compute. reflexivity.
Defined.

(** ** The order of processing *)

Lemma Permutation_insert_by {A : Type} (key : A → string) (x : A) (l : list A) :
  Permutation (insert_by key x l) (x :: l).
Proof.
  induction l as [|y l IH]; cbn; [reflexivity|].
  destruct (String.ltb (key y) (key x)); [|reflexivity].
  rewrite IH. apply perm_swap.
Qed.

Lemma Permutation_sorted {A : Type} (key : A → string) (l : list A) :
  Permutation (sorted key l) l.
Proof.
  induction l as [|x l IH]; cbn; [reflexivity|].
  now rewrite Permutation_insert_by, IH.
Qed.

Lemma nth_error_enumerate {A : Type} (l : list A) :
  ∀ start i x, nth_error l i = Some x →
               nth_error (enumerate start l) i = Some (start + Z.of_nat i, x).
Proof.
  induction l as [|y l IH]; intros start [|i] x; cbn; try discriminate.
  - intros [= <-]. now rewrite Z.add_0_r.
  - intros Hx. rewrite (IH (start + 1) i x Hx). do 2 f_equal. lia.
Qed.

Lemma ltb_empty (s : string) : s ≠ EmptyString → String.ltb EmptyString s = true.
Proof. now destruct s. Qed.

(** An ascending list starts with its matches without a start time. *)
Lemma ascending_untimed_first (l : list match_record) :
  ascending start_key l → l = tied start_key "" l ++ timed l.
Proof.
  induction 1 as [|x l Hl IH Hx]; [reflexivity|].
  unfold tied, timed in *. cbn [List.filter].
  destruct (String.eqb_spec (start_key x) "") as [Hkey|Hkey]; cbn [negb app].
  - now rewrite <- IH.
  - assert (Hnone : List.filter (λ y, String.eqb (start_key y) "") l = []).
    { clear IH Hl. induction l as [|y l IH]; [reflexivity|].
      inversion Hx as [|? ? Hy Hx']; subst. cbn [List.filter].
      destruct (String.eqb_spec (start_key y) "") as [Hy0|_]; [|now apply IH].
      unfold key_le in Hy. rewrite Hy0, ltb_empty in Hy by exact Hkey.
      discriminate. }
    rewrite Hnone in IH |- *. cbn [app] in *. now rewrite <- IH.
Qed.

(** X6. The matches of an event are processed each once, in ascending
    start time, matches with equal start times in the order fetched, and
    the match number is the position in that order, counted from 1.  A
    match without a start time has the empty key, so these matches come
    first, in the order fetched. *)
Theorem process_matches_order (matches : list match_record) :
  process_matches matches
  = for_each (enumerate 1 (tied start_key "" matches ++ timed (sorted start_key matches)))
      (fun '(match_number, mtch) => process_match mtch match_number)
  ∧ Permutation (tied start_key "" matches ++ timed (sorted start_key matches)) matches
  ∧ ascending start_key (tied start_key "" matches ++ timed (sorted start_key matches))
  ∧ (∀ ts, tied start_key ts (sorted start_key matches) = tied start_key ts matches)
  ∧ (∀ i mtch, nth_error (sorted start_key matches) i = Some mtch →
               nth_error (enumerate 1 (sorted start_key matches)) i
               = Some (1 + Z.of_nat i, mtch)).
Proof.
  assert (Hsplit : sorted start_key matches
                   = tied start_key "" matches ++ timed (sorted start_key matches)).
  { rewrite <- (tied_sorted start_key "" matches) at 1.
    apply ascending_untimed_first, sorted_ascending. }
  split; [unfold process_matches; now rewrite <- Hsplit|].
  split; [rewrite <- Hsplit; apply Permutation_sorted|].
  split; [rewrite <- Hsplit; apply sorted_ascending|].
  split; [intros ts; apply tied_sorted|].
  intros i mtch. apply nth_error_enumerate.
Qed.

Lemma process_matches_order_witness :
  nth_error (enumerate 1 (sorted start_key [match_a; match_b; match_c])) 2
  = Some (1 + Z.of_nat 2, match_b).
Proof.
  apply (proj2 (proj2 (proj2 (proj2
           (process_matches_order [match_a; match_b; match_c]))))).
  vm_compute. reflexivity.
Defined.

(** ** The schedule over all match numbers *)

Lemma calculate_k_factor_clamp (n : Z) :
  calculate_k_factor n = calculate_k_factor (clamp n).
Proof.
  unfold clamp.
  destruct (Z_le_gt_dec n 6) as [H6|H6]; [|destruct (Z_le_gt_dec n 37) as [H37|H37]].
  - replace (Z.max 6 (Z.min 37 n)) with 6 by lia.
    unfold calculate_k_factor. now rewrite (proj2 (Z.leb_le n 6) H6).
  - now replace (Z.max 6 (Z.min 37 n)) with n by lia.
  - replace (Z.max 6 (Z.min 37 n)) with 37 by lia.
    unfold calculate_k_factor.
    rewrite (proj2 (Z.leb_gt n 6)) by lia.
    now rewrite (proj2 (Z.leb_gt n 12)) by lia.
Qed.

Lemma calculate_margin_parameter_clamp (n : Z) :
  calculate_margin_parameter n = calculate_margin_parameter (clamp n).
Proof.
  unfold clamp.
  destruct (Z_le_gt_dec n 6) as [H6|H6]; [|destruct (Z_le_gt_dec n 37) as [H37|H37]].
  - replace (Z.max 6 (Z.min 37 n)) with 6 by lia.
    unfold calculate_margin_parameter. now rewrite (proj2 (Z.leb_le n 12)) by lia.
  - now replace (Z.max 6 (Z.min 37 n)) with n by lia.
  - replace (Z.max 6 (Z.min 37 n)) with 37 by lia.
    unfold calculate_margin_parameter.
    rewrite (proj2 (Z.leb_gt n 12)) by lia.
    now rewrite (proj2 (Z.leb_gt n 36)) by lia.
Qed.

Lemma gain_clamp (n : Z) : gain n = gain (clamp n).
Proof.
  unfold gain.
  now rewrite (calculate_k_factor_clamp n), (calculate_margin_parameter_clamp n).
Qed.

Lemma clamp_range (n : Z) : 6 ≤ clamp n < 6 + Z.of_nat 32.
Proof. unfold clamp. lia. Qed.

(** A table over the match numbers 6, ..., 37, checked by evaluation. *)
Lemma table_cases (P : Z → Z → bool) :
  forallb (fun n1 => forallb (fun n2 => (n2 <? n1) || P n1 n2) (upto 6 32)) (upto 6 32)
  = true →
  ∀ n1 n2, n1 ≤ n2 → P (clamp n1) (clamp n2) = true.
Proof.
  intros Hall n1 n2 Hle. rewrite forallb_forall in Hall.
  specialize (Hall (clamp n1) (in_upto 32 6 _ (clamp_range n1))).
  rewrite forallb_forall in Hall.
  specialize (Hall (clamp n2) (in_upto 32 6 _ (clamp_range n2))).
  rewrite (proj2 (Z.ltb_ge (clamp n2) (clamp n1))) in Hall by (unfold clamp; lia).
  exact Hall.
Qed.

Lemma gain_bounds_table :
  forallb (fun n =>
    match gain n with
    | Ok (PyFloat f) => (0.15 <=? f)%float && (f <=? 0.5)%float
    | _ => false
    end) (upto 6 32) = true.
Proof. vm_compute. reflexivity. Qed.

(** X7. Over all match numbers the K-factor never grows and the margin
    parameter never shrinks, and the step [k / (1 + m)] of the rating
    update never grows: it is 0.5 up to match 6, 0.15 after match 36, and
    within these two bounds at every match number. *)
Theorem schedule_monotone :
  (∀ n1 n2, n1 ≤ n2 →
     res_le (calculate_k_factor n2) (calculate_k_factor n1) = true
     ∧ res_le (calculate_margin_parameter n1) (calculate_margin_parameter n2) = true
     ∧ res_le (gain n2) (gain n1) = true)
  ∧ (∀ n, n ≤ 6 → gain n = Ok (PyFloat 0.5))
  ∧ (∀ n, 36 < n → gain n = Ok (PyFloat 0.15))
  ∧ (∀ n, ∃ f, gain n = Ok (PyFloat f)
               ∧ (0.15 <=? f)%float = true ∧ (f <=? 0.5)%float = true).
Proof.
  split; [|split; [|split]].
  - intros n1 n2 Hle.
    rewrite (calculate_k_factor_clamp n1), (calculate_k_factor_clamp n2),
      (calculate_margin_parameter_clamp n1), (calculate_margin_parameter_clamp n2),
      (gain_clamp n1), (gain_clamp n2).
    split; [|split].
    + apply (table_cases (fun a b => res_le (calculate_k_factor b) (calculate_k_factor a)));
        [vm_compute; reflexivity|exact Hle].
    + apply (table_cases (fun a b =>
               res_le (calculate_margin_parameter a) (calculate_margin_parameter b)));
        [vm_compute; reflexivity|exact Hle].
    + apply (table_cases (fun a b => res_le (gain b) (gain a)));
        [vm_compute; reflexivity|exact Hle].
  - intros n Hn. rewrite gain_clamp. unfold clamp.
    replace (Z.max 6 (Z.min 37 n)) with 6 by lia. vm_compute. reflexivity.
  - intros n Hn. rewrite gain_clamp. unfold clamp.
    replace (Z.max 6 (Z.min 37 n)) with 37 by lia. vm_compute. reflexivity.
  - intros n. rewrite gain_clamp.
    pose proof gain_bounds_table as Hall. rewrite forallb_forall in Hall.
    specialize (Hall (clamp n) (in_upto 32 6 _ (clamp_range n))).
    destruct (gain (clamp n)) as [[z|f]|e]; try discriminate.
    apply andb_prop in Hall as [Hlo Hhi]. now exists f.
Qed.

Lemma schedule_monotone_witness :
  res_le (calculate_k_factor 20) (calculate_k_factor 9) = true
  ∧ res_le (calculate_margin_parameter 9) (calculate_margin_parameter 20) = true
  ∧ res_le (gain 20) (gain 9) = true.
Proof. apply (proj1 schedule_monotone 9 20). lia. Defined.

(** ** Zeros of float arithmetic *)

Lemma is_zero_shape (x : float) :
  is_zero x = true ↔ ∃ s, Prim2SF x = S754_zero s.
Proof.
  unfold is_zero. rewrite FloatAxioms.eqb_spec.
  change (Prim2SF zero) with (S754_zero false).
  destruct (Prim2SF x) as [s|s| |s m e]; cbn; split;
    try discriminate; try (intros [s' [=]]); eauto; now destruct s.
Qed.

Lemma is_nan_shape (x : float) : is_nan x = false → Prim2SF x ≠ S754_nan.
Proof.
  unfold is_nan. rewrite FloatAxioms.eqb_spec. intros H E. rewrite E in H.
  discriminate H.
Qed.

Lemma is_finite_shape (x : float) :
  is_finite x = true →
  (∃ s, Prim2SF x = S754_zero s) ∨ ∃ s m e, Prim2SF x = S754_finite s m e.
Proof.
  unfold is_finite, is_nan, is_infinity.
  rewrite !FloatAxioms.eqb_spec, FloatAxioms.abs_spec.
  change (Prim2SF infinity) with (S754_infinity false).
  destruct (Prim2SF x) as [s|s| |s m e]; cbn; try discriminate; eauto.
  now destruct s.
Qed.

(** [x - x] is [+0.0] for a finite [x]. *)
Lemma float_sub_diag (x : float) : is_finite x = true → (x - x)%float = 0%float.
Proof.
  intros Hx. apply FloatAxioms.Prim2SF_inj. rewrite FloatAxioms.sub_spec.
  change (Prim2SF 0) with (S754_zero false).
  destruct (is_finite_shape x Hx) as [[s ->]|(s & m & e & ->)].
  - now destruct s.
  - unfold SF64sub, SFsub. cbv zeta. now rewrite Z.sub_diag.
Qed.

Lemma float_mul_zero (e s : float) :
  is_finite e = true → is_zero s = true → is_zero (e * s) = true.
Proof.
  intros He Hs. apply is_zero_shape in Hs as [ss Hs]. apply is_zero_shape.
  rewrite FloatAxioms.mul_spec, Hs.
  destruct (is_finite_shape e He) as [[se ->]|(se & m & ex & ->)]; cbn; eauto.
Qed.

Lemma float_sub_zeros (a c : float) :
  is_zero a = true → is_zero c = true → is_zero (a - c) = true.
Proof.
  intros Ha Hc. apply is_zero_shape in Ha as [sa Ha], Hc as [sc Hc].
  apply is_zero_shape. rewrite FloatAxioms.sub_spec, Ha, Hc.
  destruct sa, sc; cbn; eauto.
Qed.

Lemma float_div_zero (z l : float) :
  is_zero z = true → is_finite l = true → is_zero l = false →
  is_zero (z / l) = true.
Proof.
  intros Hz Hl Hnz. apply is_zero_shape in Hz as [sz Hz]. apply is_zero_shape.
  rewrite FloatAxioms.div_spec, Hz.
  destruct (is_finite_shape l Hl) as [[sl Hsl]|(sl & m & e & ->)]; cbn; eauto.
  assert (Hzero : is_zero l = true) by (apply is_zero_shape; eauto).
  congruence.
Qed.

(** Adding a zero leaves a number that is not a NaN equal to itself. *)
Lemma float_add_zero (old h : float) :
  is_zero h = true → is_nan old = false → (old + h =? old)%float = true.
Proof.
  intros Hh Hold. apply is_zero_shape in Hh as [sh Hh].
  pose proof (is_nan_shape old Hold) as Hnan.
  rewrite FloatAxioms.eqb_spec, FloatAxioms.add_spec, Hh.
  destruct (Prim2SF old) as [s|s| |s m e]; [| |easy|].
  - now destruct s, sh.
  - now destruct s.
  - cbn. unfold SFeqb, SFcompare. rewrite Z.compare_refl.
    change (PosDef.Pos.compare_cont Eq m m) with (Pos.compare m m).
    rewrite Pos.compare_refl. now destruct s.
Qed.

(** ** A level match *)

(** X8. When both alliances total the same, the same int or the same
    finite float, the prediction returns the margin zero, the win
    probability 0.5 for each alliance, exactly, and the winner
    ["Blue Alliance"], whatever the platform's [pow]. *)
Theorem predict_match_result_level (libm_pow : float → float → float)
    (r1 r2 b1 b2 : Z) (g : globals) (red_total blue_total : num) :
  py_add (epa_scores_get g r1) (epa_scores_get g r2) = Ok red_total →
  py_add (epa_scores_get g b1) (epa_scores_get g b2) = Ok blue_total →
  level red_total blue_total →
  ∃ zero, (zero = PyInt 0 ∨ zero = PyFloat 0)
          ∧ predict_match_result libm_pow r1 r2 b1 b2 g
            = (Ok {| predicted_red_score := red_total;
                     predicted_blue_score := blue_total;
                     predicted_margin := zero;
                     red_win_prob := PyFloat 0.5;
                     blue_win_prob := PyFloat 0.5;
                     winner := "Blue Alliance" |}, g).
Proof.
  intros Hred Hblue Hlevel.
  rewrite predict_match_result_run. unfold predict_spec.
  rewrite Hred, Hblue. cbn [mbind res_bind].
  destruct Hlevel as [(z & -> & ->)|(x & -> & -> & Hx)].
  - exists (PyInt 0). split; [now left|].
    cbn [py_sub mbind res_bind]. rewrite Z.sub_diag. reflexivity.
  - exists (PyFloat 0). split; [now right|].
    cbn [py_sub as_float mbind res_bind]. rewrite (float_sub_diag x Hx).
    reflexivity.
Qed.

Lemma predict_match_result_level_witness :
  ∃ zero, (zero = PyInt 0 ∨ zero = PyFloat 0)
          ∧ predict_match_result (λ x _, x) 1 2 3 4 level_state
            = (Ok {| predicted_red_score := PyFloat 150;
                     predicted_blue_score := PyFloat 150;
                     predicted_margin := zero;
                     red_win_prob := PyFloat 0.5;
                     blue_win_prob := PyFloat 0.5;
                     winner := "Blue Alliance" |}, level_state).
Proof.
  apply predict_match_result_level.
  - vm_compute. reflexivity.
  - vm_compute. reflexivity.
  - right. exists 150%float. repeat split.
Defined.

(** ** A match that goes as rated *)

Lemma py_sub_as_float (x : num) (fx f : float) :
  as_float x = Ok fx → py_sub x (PyFloat f) = Ok (PyFloat (fx - f)).
Proof. intros Hx. destruct x; unfold py_sub; rewrite Hx; reflexivity. Qed.

Lemma py_mul_as_float (x : num) (fx f : float) :
  as_float x = Ok fx → py_mul x (PyFloat f) = Ok (PyFloat (fx * f)).
Proof. intros Hx. destruct x; unfold py_mul; rewrite Hx; reflexivity. Qed.

Lemma schedule_finite_clamp (n : Z) : schedule_finite n = schedule_finite (clamp n).
Proof.
  unfold schedule_finite.
  now rewrite (calculate_k_factor_clamp n), (calculate_margin_parameter_clamp n).
Qed.

Lemma schedule_finite_all (n : Z) : schedule_finite n = true.
Proof.
  rewrite schedule_finite_clamp.
  assert (Hall : forallb schedule_finite (upto 6 32) = true)
    by (vm_compute; reflexivity).
  rewrite forallb_forall in Hall. apply Hall, in_upto, clamp_range.
Qed.

(** With both alliances scoring their totals, the new rating of a team
    equals the old one. *)
Lemma new_rating_no_surprise (g : globals) (own_score opp_score m : num)
    (x y k mf df old : float) (d : num) (size : nat) (t : Z) :
  as_float own_score = Ok x → is_finite x = true →
  as_float opp_score = Ok y → is_finite y = true →
  as_float m = Ok mf → is_finite mf = true →
  py_add (PyInt 1) m = Ok d → as_float d = Ok df → is_zero df = false →
  is_finite (k / df) = true →
  size = 1%nat ∨ size = 2%nat →
  epa_scores_get g t = PyFloat old → is_nan old = false →
  ∃ new, new_rating g own_score (PyFloat x) opp_score (PyFloat y) (PyFloat k) m size t
         = Ok (PyFloat new)
         ∧ (new =? old)%float = true.
Proof.
  intros Hown Hx Hopp Hy Hm Hmf Hd Hdf Hnz Hgain Hsize Hold Hnan.
  unfold new_rating, surprise, adjusted.
  rewrite (py_sub_as_float own_score x x Hown), (py_sub_as_float opp_score y y Hopp).
  rewrite (float_sub_diag x Hx), (float_sub_diag y Hy).
  cbn [mbind res_bind]. rewrite (py_mul_as_float m mf 0 Hm).
  cbn [mbind res_bind py_sub as_float]. rewrite Hd.
  cbn [mbind res_bind]. rewrite (py_truediv_float_l k d df Hdf Hnz), Hold.
  cbn [mbind res_bind py_mul as_float].
  assert (Hs : is_zero (0 - mf * 0) = true).
  { apply float_sub_zeros; [reflexivity|]. now apply float_mul_zero. }
  assert (Hf : is_zero (k / df * (0 - mf * 0)) = true) by now apply float_mul_zero.
  destruct Hsize as [-> | ->].
  - exists (old + k / df * (0 - mf * 0) / 1)%float. split; [reflexivity|].
    apply float_add_zero; [|exact Hnan]. now apply float_div_zero.
  - exists (old + k / df * (0 - mf * 0) / 2)%float. split; [reflexivity|].
    apply float_add_zero; [|exact Hnan]. now apply float_div_zero.
Qed.

Lemma commit_returns (writes : list (Z * res num)) :
  Forall (λ w, ∃ v, w.2 = Ok v) writes → ∀ g, ∃ g', commit writes g = (Ok tt, g').
Proof.
  induction 1 as [|[t r] ws [v Hv] _ IH]; intros g; [now exists g|].
  cbn in Hv. subst r. rewrite commit_cons_run. apply IH.
Qed.

(** X9. A match in which each alliance scores exactly the total of its
    teams' ratings changes no rating: at every match number the match is
    processed without an exception and every team's new rating equals its
    old one.  The teams are rated by floats that are not NaN, the totals
    are finite, and each alliance has one or two teams. *)
Theorem process_match_no_surprise (mtch : match_record) (n : Z) (g : globals)
    (x y : float) :
  NoDup (participants mtch) →
  (1 ≤ length (alliance "Red" mtch) ≤ 2)%nat →
  (1 ≤ length (alliance "Blue" mtch) ≤ 2)%nat →
  (∀ t, In t (participants mtch) →
        ∃ old, epa_scores_get g t = PyFloat old ∧ is_nan old = false) →
  py_sum (map (epa_scores_get g) (alliance "Red" mtch)) = Ok (PyFloat x) →
  py_sum (map (epa_scores_get g) (alliance "Blue" mtch)) = Ok (PyFloat y) →
  as_float (default (PyInt 0) (scoreRedFinal mtch)) = Ok x → is_finite x = true →
  as_float (default (PyInt 0) (scoreBlueFinal mtch)) = Ok y → is_finite y = true →
  ∃ g', process_match mtch n g = (Ok tt, g')
        ∧ ∀ t, In t (participants mtch) →
               ∃ old new, epa_scores_get g t = PyFloat old
                          ∧ epa_scores g' !! t = Some (PyFloat new)
                          ∧ (new =? old)%float = true.
Proof.
  intros Hnd Hred Hblue Hrated Hrt Hbt Hrs Hx Hbs Hy.
  pose proof (schedule_finite_all n) as Hsched. unfold schedule_finite in Hsched.
  unfold process_match, mbind at 1 2, M_bind, lift.
  destruct (calculate_k_factor n) as [[|k]|]; try discriminate.
  destruct (calculate_margin_parameter n) as [m|]; try discriminate.
  destruct (as_float m) as [mf|] eqn:Hm; try discriminate.
  destruct (py_add (PyInt 1) m) as [d|] eqn:Hd; try discriminate.
  cbn [mbind res_bind] in Hsched.
  destruct (as_float d) as [df|] eqn:Hdf; try discriminate.
  apply andb_prop in Hsched as [Hsched Hgain].
  apply andb_prop in Hsched as [Hmf Hnz]. apply Bool.negb_true_iff in Hnz.
  fold (participants mtch) in *.
  rewrite (update_epa_commit _ _ _ _ _ _ _ Hnd), snapshot_unfold, Hrt, Hbt.
  set (reds := map _ (alliance "Red" mtch)).
  set (blues := map _ (alliance "Blue" mtch)).
  assert (Hnew : ∀ t r, In (t, r) (reds ++ blues) →
                        ∃ old new, epa_scores_get g t = PyFloat old
                                   ∧ r = Ok (PyFloat new)
                                   ∧ (new =? old)%float = true).
  { intros t r Hin. apply in_app_or in Hin as [Hin|Hin];
      apply in_map_iff in Hin as (t' & [= <- <-] & Ht);
      (destruct (Hrated t') as (old & Hold & Hnan);
         [unfold participants; apply in_or_app; auto|]);
      exists old.
    - destruct (new_rating_no_surprise g _ _ m x y k mf df old d
                  (length (alliance "Red" mtch)) t'
                  Hrs Hx Hbs Hy Hm Hmf Hd Hdf Hnz Hgain ltac:(lia) Hold Hnan)
        as (new & -> & Heq). eauto.
    - destruct (new_rating_no_surprise g _ _ m y x k mf df old d
                  (length (alliance "Blue" mtch)) t'
                  Hbs Hy Hrs Hx Hm Hmf Hd Hdf Hnz Hgain ltac:(lia) Hold Hnan)
        as (new & -> & Heq). eauto. }
  destruct (commit_returns (reds ++ blues)) with (g := g) as [g' Hrun].
  { apply List.Forall_forall. intros [t r] Hin.
    destruct (Hnew t r Hin) as (old & new & _ & -> & _). cbn. eauto. }
  exists g'. split; [exact Hrun|].
  assert (Hfst : NoDup (map fst (reds ++ blues))).
  { unfold reds, blues. rewrite map_app, !map_map. cbn. now rewrite !map_id. }
  intros t Ht.
  assert (Hin : ∃ r, In (t, r) (reds ++ blues)).
  { unfold participants in Ht. apply in_app_or in Ht as [Ht|Ht].
    - eexists. apply in_or_app. left. apply in_map_iff. now exists t.
    - eexists. apply in_or_app. right. apply in_map_iff. now exists t. }
  destruct Hin as [r Hin].
  destruct (Hnew t r Hin) as (old & new & Hold & -> & Heq).
  destruct (commit_written _ g g' Hfst Hrun t _ Hin) as (v & [= <-] & Hv).
  now exists old, new.
Qed.

Lemma process_match_no_surprise_witness :
  ∃ g', process_match
          {| teams := teams match_a; scoreRedFinal := Some (PyInt 150);
             scoreBlueFinal := Some (PyFloat 160); actualStartTime := None |}
          20 {| epa_scores := {[ 1 := PyFloat 70 ]}; DEFAULT_EPA := PyFloat 80 |}
        = (Ok tt, g')
        ∧ ∀ t, In t [1; 2; 3; 4] →
               ∃ old new,
                 epa_scores_get
                   {| epa_scores := {[ 1 := PyFloat 70 ]}; DEFAULT_EPA := PyFloat 80 |} t
                 = PyFloat old
                 ∧ epa_scores g' !! t = Some (PyFloat new)
                 ∧ (new =? old)%float = true.
Proof.
  refine (process_match_no_surprise
            {| teams := teams match_a; scoreRedFinal := Some (PyInt 150);
               scoreBlueFinal := Some (PyFloat 160); actualStartTime := None |}
            20 {| epa_scores := {[ 1 := PyFloat 70 ]}; DEFAULT_EPA := PyFloat 80 |}
            150 160 _ _ _ _ _ _ _ _ _ _).
  - apply (bool_decide_unpack _). vm_compute. reflexivity.
  - vm_compute. lia.
  - vm_compute. lia.
  - intros t Ht. vm_compute in Ht.
    destruct Ht as [<-|[<-|[<-|[<-|[]]]]]; eexists; split; vm_compute; reflexivity.
  - vm_compute. reflexivity.
  - vm_compute. reflexivity.
  - vm_compute. reflexivity.
  - vm_compute. reflexivity.
  - vm_compute. reflexivity.
  - vm_compute. reflexivity.
Defined.

(** ** The colours of the alliances *)





(** ** The baseline and the order of the matches *)

Lemma int_points_list (l : list match_record) :
  Forall (λ mtch, int_points mtch ≠ None) l →
  Forall2 (λ mtch p, int_points mtch = Some p) l
    (map (λ mtch, default 0 (int_points mtch)) l).
Proof.
  induction 1 as [|mtch l Hm _ IH]; cbn [map]; constructor; [|exact IH].
  now destruct (int_points mtch).
Qed.

Lemma sum_points_Permutation (f : match_record → Z) (l1 l2 : list match_record) :
  Permutation l1 l2 →
  fold_right Z.add 0 (map f l1) = fold_right Z.add 0 (map f l2).
Proof. induction 1; cbn; lia. Qed.

(** X13. With int scores the baseline of an event does not depend on the
    order of its matches; so it is the same for the list as fetched and
    for the list in processing order. *)
Theorem calculate_default_epa_order (l1 l2 : list match_record) :
  Permutation l1 l2 →
  Forall (λ mtch, int_points mtch ≠ None) l1 →
  calculate_default_epa l1 = calculate_default_epa l2
  ∧ calculate_default_epa (sorted start_key l1) = calculate_default_epa l1.
Proof.
  assert (Hperm : ∀ a b, Permutation a b →
                         Forall (λ mtch, int_points mtch ≠ None) a →
                         calculate_default_epa a = calculate_default_epa b).
  { intros a b Hab Hints.
    destruct a as [|x a].
    - apply Permutation_nil in Hab. now subst b.
    - assert (Hb : b ≠ []).
      { intros ->. apply Permutation_sym, Permutation_nil in Hab. discriminate. }
      assert (Hints' : Forall (λ mtch, int_points mtch ≠ None) b)
        by (eapply Permutation_Forall; eauto).
      rewrite !calculate_default_epa_nonempty by (exact Hb || discriminate).
      unfold total_points.
      rewrite (total_points_from_int _ 0 _ (int_points_list _ Hints)).
      rewrite (total_points_from_int _ 0 _ (int_points_list _ Hints')).
      cbn [mbind res_bind].
      rewrite (sum_points_Permutation _ _ _ Hab), (Permutation_length Hab).
      reflexivity. }
  intros Hl Hints. split; [now apply Hperm|].
  symmetry. apply Hperm; [|exact Hints].
  symmetry. apply Permutation_sorted.
Qed.

Lemma calculate_default_epa_order_witness :
  calculate_default_epa [match_a; match_b; match_c]
  = calculate_default_epa [match_c; match_a; match_b]
  ∧ calculate_default_epa (sorted start_key [match_a; match_b; match_c])
    = calculate_default_epa [match_a; match_b; match_c].
Proof.
  apply calculate_default_epa_order.
  - apply Permutation_sym, (Permutation_cons_append [match_a; match_b] match_c).
  - repeat constructor; discriminate.
Defined.

(** ** The authorization header *)

(** The test vectors of RFC 4648, and a header. *)
Example b64encode_vectors :
  b64encode (literal "") = literal ""
  ∧ b64encode (literal "f") = literal "Zg=="
  ∧ b64encode (literal "fo") = literal "Zm8="
  ∧ b64encode (literal "foo") = literal "Zm9v"
  ∧ b64encode (literal "foob") = literal "Zm9vYg=="
  ∧ b64encode (literal "fooba") = literal "Zm9vYmE="
  ∧ b64encode (literal "foobar") = literal "Zm9vYmFy".
Proof. repeat split. Qed.

Example encode_authorization_vectors :
  encode_authorization (literal "user") (literal "pass")
  = Coded (literal "dXNlcjpwYXNz")
  ∧ encode_authorization [233] [8364; 128512] = Coded (literal "w6k64oKs8J+YgA==")
  ∧ encode_authorization (literal "user") [55296] = CodecError UnicodeEncodeError.
Proof. repeat split. Qed.

Ltac dlia := Z.div_mod_to_equations; lia.

Lemma list_ind3 {A : Type} (P : list A → Prop) :
  P [] → (∀ a, P [a]) → (∀ a b, P [a; b]) →
  (∀ a b c rest, P rest → P (a :: b :: c :: rest)) →
  ∀ l, P l.
Proof.
  intros H0 H1 H2 H3 l.
  assert (H : P l ∧ (∀ a, P (a :: l)) ∧ (∀ a b, P (a :: b :: l))).
  { induction l as [|c l (IH0 & IH1 & IH2)]; [auto|].
    split; [apply IH1|]. split; [intros a; apply IH2|].
    intros a b. now apply H3. }
  apply H.
Qed.

Lemma b64_char_ascii (s : Z) : 0 ≤ b64_char s < 128.
Proof.
  assert (Hall : forallb (fun c => (0 <=? c) && (c <? 128)) b64_alphabet = true)
    by reflexivity.
  rewrite forallb_forall in Hall. unfold b64_char.
  destruct (nth_in_or_default (Z.to_nat s) b64_alphabet 61) as [Hin| ->]; [|lia].
  apply Hall in Hin. lia.
Qed.

Lemma b64_char_alphabet (s : Z) : 0 ≤ s < 64 → In (b64_char s) b64_alphabet.
Proof.
  intros Hs. unfold b64_char. apply nth_In.
  change (length b64_alphabet) with 64%nat. lia.
Qed.

Lemma b64_index_char (s : Z) :
  0 ≤ s < 64 → b64_index (b64_char s) = Some s ∧ (b64_char s =? 61) = false.
Proof.
  assert (H : 0 ≤ s < 0 + Z.of_nat 64 →
              b64_index (b64_char s) = Some s ∧ (b64_char s =? 61) = false).
  { revert s. apply range_cases. each_case ltac:(split; reflexivity). }
  intros Hs. apply H. lia.
Qed.

Lemma bytes_decode_ascii (l : list Z) :
  Forall (fun c => 0 ≤ c < 128) l → bytes_decode l = Coded l.
Proof.
  induction 1 as [|c l Hc _ IH]; [reflexivity|].
  cbn [bytes_decode]. rewrite (proj2 (Z.ltb_lt c 128)) by lia. now rewrite IH.
Qed.

Lemma str_encode_ascii (l : list Z) :
  Forall (fun c => 0 ≤ c < 128) l → str_encode l = Coded l.
Proof.
  induction 1 as [|c l Hc _ IH]; [reflexivity|].
  cbn [str_encode]. unfold utf8_char.
  rewrite (proj2 (Z.ltb_lt c 128)) by lia. now rewrite IH.
Qed.

Lemma b64encode_ascii (bs : list Z) : Forall (fun c => 0 ≤ c < 128) (b64encode bs).
Proof.
  induction bs as [|a|a b|a b c rest IH] using list_ind3; cbn [b64encode];
    repeat (constructor; [apply b64_char_ascii || lia|]); auto.
Qed.

Lemma b64encode_length (bs : list Z) :
  Z.of_nat (length (b64encode bs)) = 4 * ((Z.of_nat (length bs) + 2) / 3).
Proof.
  induction bs as [|a|a b|a b c rest IH] using list_ind3; try reflexivity.
  cbn [b64encode length]. rewrite !Nat2Z.inj_succ, IH. dlia.
Qed.

Lemma b64encode_alphabet (bs : list Z) :
  is_bytes bs → Forall (fun c => In c b64_alphabet ∨ c = 61) (b64encode bs).
Proof.
  unfold is_bytes.
  induction bs as [|a|a b|a b c rest IH] using list_ind3; intros Hbs;
    cbn [b64encode]; repeat match goal with
    | H : Forall _ (_ :: _) |- _ => inversion H; subst; clear H
    end;
    repeat (constructor; [first [now right | left; apply b64_char_alphabet; dlia]|]);
    auto.
Qed.

Lemma b64decode_encode (bs : list Z) :
  is_bytes bs → b64decode (b64encode bs) = Some bs.
Proof.
  unfold is_bytes.
  induction bs as [|a|a b|a b c rest IH] using list_ind3; intros Hbs;
    repeat match goal with
    | H : Forall _ (_ :: _) |- _ => inversion H; subst; clear H
    end.
  - reflexivity.
  - cbn [b64encode b64decode].
    destruct (b64_index_char (a / 4)) as [-> _]; [dlia|].
    destruct (b64_index_char (a mod 4 * 16)) as [-> _]; [dlia|].
    cbn [mbind option_bind]. change (61 =? 61) with true. cbn [Z.eqb].
    do 2 f_equal. dlia.
  - cbn [b64encode b64decode].
    destruct (b64_index_char (a / 4)) as [-> _]; [dlia|].
    destruct (b64_index_char (a mod 4 * 16 + b / 16)) as [-> _]; [dlia|].
    destruct (b64_index_char (b mod 16 * 4)) as [-> ->]; [dlia|].
    cbn [mbind option_bind]. change (61 =? 61) with true. cbv iota.
    repeat f_equal; dlia.
  - cbn [b64encode b64decode].
    destruct (b64_index_char (a / 4)) as [-> _]; [dlia|].
    destruct (b64_index_char (a mod 4 * 16 + b / 16)) as [-> _]; [dlia|].
    destruct (b64_index_char (b mod 16 * 4 + c / 64)) as [-> ->]; [dlia|].
    destruct (b64_index_char (c mod 64)) as [-> ->]; [dlia|].
    cbn [mbind option_bind]. rewrite IH by assumption. cbn [mbind option_bind].
    repeat f_equal; dlia.
Qed.

Ltac decide_tests :=
  repeat match goal with
  | |- context [?a <? ?b] =>
      first [ rewrite (proj2 (Z.ltb_lt a b)) by dlia
            | rewrite (proj2 (Z.ltb_ge a b)) by dlia ]
  | |- context [?a <=? ?b] =>
      first [ rewrite (proj2 (Z.leb_le a b)) by dlia
            | rewrite (proj2 (Z.leb_gt a b)) by dlia ]
  | |- context [?a =? ?b] =>
      first [ rewrite (proj2 (Z.eqb_eq a b)) by dlia
            | rewrite (proj2 (Z.eqb_neq a b)) by dlia ]
  end.

(** A code point that is no surrogate has UTF-8 bytes, and they decode to
    it. *)
Lemma bytes_decode_utf8_char (c : Z) (rest : list Z) :
  0 ≤ c < 1114112 → ¬ surrogate c →
  ∃ bs, utf8_char c = Coded bs ∧ is_bytes bs
        ∧ bytes_decode (bs ++ rest) = (s ← bytes_decode rest; Coded (c :: s)).
Proof.
  unfold surrogate, is_bytes. intros Hc Hs. unfold utf8_char.
  destruct (Z.ltb_spec c 128) as [H1|H1];
    [|destruct (Z.ltb_spec c 2048) as [H2|H2];
      [|destruct (Z.ltb_spec c 65536) as [H3|H3]]].
  - eexists. split; [reflexivity|]. split; [repeat constructor; lia|].
    cbn [app bytes_decode]. now rewrite (proj2 (Z.ltb_lt c 128)) by lia.
  - eexists. split; [reflexivity|]. split; [repeat constructor; dlia|].
    cbn [app bytes_decode]. unfold continuation. decide_tests.
    cbn [andb]. destruct (bytes_decode rest); cbn [mbind codec_bind]; [|reflexivity].
    do 2 f_equal. dlia.
  - assert (Hns : (55296 <=? c) && (c <=? 57343) = false).
    { destruct (Z.leb_spec 55296 c); destruct (Z.leb_spec c 57343); cbn; lia. }
    rewrite Hns. eexists. split; [reflexivity|]. split; [repeat constructor; dlia|].
    cbn [app bytes_decode]. unfold second_byte, continuation.
    destruct (Z_lt_ge_dec c 4096) as [Hlow|Hhigh];
      [|destruct (Z_lt_ge_dec c 53248) as [Hmid|Hmid];
        [|destruct (Z_lt_ge_dec c 57344) as [Hd|Hd]]];
      decide_tests; cbn [andb];
      (destruct (bytes_decode rest); cbn [mbind codec_bind]; [|reflexivity]);
      do 2 f_equal; dlia.
  - eexists. split; [reflexivity|]. split; [repeat constructor; dlia|].
    cbn [app bytes_decode]. unfold second_byte, continuation.
    destruct (Z_lt_ge_dec c 262144) as [Hlow|Hhigh];
      [|destruct (Z_lt_ge_dec c 1048576) as [Hmid|Hmid]];
      decide_tests; cbn [andb];
      (destruct (bytes_decode rest); cbn [mbind codec_bind]; [|reflexivity]);
      do 2 f_equal; dlia.
Qed.

Lemma utf8_char_surrogate (c : Z) :
  surrogate c → utf8_char c = CodecError UnicodeEncodeError.
Proof.
  unfold surrogate, utf8_char. intros Hc. decide_tests. reflexivity.
Qed.

Lemma utf8_char_error (c : Z) (e : codec_exn) :
  utf8_char c = CodecError e → e = UnicodeEncodeError ∧ surrogate c.
Proof.
  unfold utf8_char, surrogate.
  destruct (c <? 128); [discriminate|]. destruct (c <? 2048); [discriminate|].
  destruct (c <? 65536); [|discriminate].
  destruct (Z.leb_spec 55296 c); destruct (Z.leb_spec c 57343); cbn;
    try discriminate.
  intros [= <-]. split; [reflexivity|lia].
Qed.

Lemma str_encode_error (s : list Z) (e : codec_exn) :
  str_encode s = CodecError e → e = UnicodeEncodeError ∧ Exists surrogate s.
Proof.
  induction s as [|c s IH]; [discriminate|]. cbn [str_encode].
  destruct (utf8_char c) as [bs|e'] eqn:Hc; cbn [mbind codec_bind].
  - destruct (str_encode s) as [rest|e'']; cbn [mbind codec_bind]; [discriminate|].
    intros [= <-]. destruct (IH eq_refl) as [-> Hs]. split; [reflexivity|].
    now apply Exists_cons_tl.
  - intros [= <-]. destruct (utf8_char_error c e' Hc) as [-> Hs].
    split; [reflexivity|]. now apply Exists_cons_hd.
Qed.

Lemma str_encode_surrogate (s : list Z) :
  is_str s → Exists surrogate s → str_encode s = CodecError UnicodeEncodeError.
Proof.
  intros Hstr. induction 1 as [c s Hc|c s Hs IH]; cbn [str_encode].
  - now rewrite utf8_char_surrogate.
  - inversion Hstr as [|? ? Hc Hstr']; subst.
    destruct (utf8_char c) as [bs|e] eqn:Hu; cbn [mbind codec_bind].
    + now rewrite IH.
    + now destruct (utf8_char_error c e Hu) as [-> _].
Qed.

(** A text without surrogates has UTF-8 bytes, and they decode to it. *)
Lemma bytes_decode_str_encode (s : list Z) :
  is_str s → ¬ Exists surrogate s →
  ∃ bs, str_encode s = Coded bs ∧ is_bytes bs ∧ bytes_decode bs = Coded s.
Proof.
  unfold is_str. induction 1 as [|c s Hc Hs IH]; intros Hns.
  - exists []. repeat split. constructor.
  - destruct IH as (rest & Hrest & Hbytes & Hdec).
    { intros H. apply Hns. now apply Exists_cons_tl. }
    destruct (bytes_decode_utf8_char c rest Hc) as (bs & Hbs & Hb & Hd).
    { intros H. apply Hns. now apply Exists_cons_hd. }
    exists (bs ++ rest). cbn [str_encode]. rewrite Hbs, Hrest.
    split; [reflexivity|]. split; [now apply Forall_app|].
    now rewrite Hd, Hdec.
Qed.

Lemma split_colon_app (u k : list Z) :
  ¬ In 58 u → split_colon (u ++ 58 :: k) = Some (u, k).
Proof.
  induction u as [|c u IH]; intros Hu; [reflexivity|].
  cbn [app split_colon].
  rewrite (proj2 (Z.eqb_neq c 58)) by (intros ->; apply Hu; now left).
  rewrite IH by (intros H; apply Hu; now right). reflexivity.
Qed.

Lemma encode_authorization_run (username auth_key bs : list Z) :
  str_encode (username ++ 58 :: auth_key) = Coded bs →
  encode_authorization username auth_key = Coded (b64encode bs).
Proof.
  intros Hbs. unfold encode_authorization. cbv zeta. rewrite Hbs.
  cbn [mbind codec_bind]. apply bytes_decode_ascii, b64encode_ascii.
Qed.

Lemma Exists_surrogate_colon (u k : list Z) :
  Exists surrogate (u ++ 58 :: k) ↔ Exists surrogate (u ++ k).
Proof.
  rewrite !Exists_app, Exists_cons. unfold surrogate at 2. intuition lia.
Qed.

(** X10. The header of two texts is the Base64 text of the UTF-8 bytes of
    [username:auth_key]: four characters of the Base64 alphabet or
    padding for every three bytes begun.  The call raises exactly when a
    text holds a surrogate code point, and then [UnicodeEncodeError]; the
    final decoding never raises.  For ASCII credentials the bytes are the
    characters themselves. *)
Theorem encode_authorization_spec (username auth_key : list Z) :
  is_str username → is_str auth_key →
  (Exists surrogate (username ++ auth_key) →
   encode_authorization username auth_key = CodecError UnicodeEncodeError)
  ∧ (¬ Exists surrogate (username ++ auth_key) →
     ∃ bs, str_encode (username ++ 58 :: auth_key) = Coded bs
           ∧ is_bytes bs
           ∧ encode_authorization username auth_key = Coded (b64encode bs)
           ∧ Z.of_nat (length (b64encode bs)) = 4 * ((Z.of_nat (length bs) + 2) / 3)
           ∧ Forall (fun c => In c b64_alphabet ∨ c = 61) (b64encode bs))
  ∧ (Forall (fun c => 0 ≤ c < 128) (username ++ auth_key) →
     encode_authorization username auth_key
     = Coded (b64encode (username ++ 58 :: auth_key))).
Proof.
  intros Hu Hk.
  assert (Hstr : is_str (username ++ 58 :: auth_key)).
  { apply Forall_app. split; [exact Hu|]. constructor; [lia|exact Hk]. }
  split; [|split].
  - intros Hs. unfold encode_authorization. cbv zeta.
    rewrite str_encode_surrogate; [reflexivity|exact Hstr|].
    now apply Exists_surrogate_colon.
  - intros Hns.
    destruct (bytes_decode_str_encode _ Hstr) as (bs & Hbs & Hbytes & _).
    { intros H. apply Hns. now apply Exists_surrogate_colon. }
    exists bs. split; [exact Hbs|]. split; [exact Hbytes|].
    split; [now apply encode_authorization_run|].
    split; [apply b64encode_length|now apply b64encode_alphabet].
  - intros Hascii. apply encode_authorization_run, str_encode_ascii.
    apply Forall_app in Hascii as [Ha Hb].
    apply Forall_app. split; [exact Ha|]. constructor; [lia|exact Hb].
Qed.

Lemma encode_authorization_spec_witness :
  encode_authorization (literal "team") (literal "k3y")
  = Coded (b64encode (literal "team:k3y")).
Proof.
  apply (proj2 (proj2 (encode_authorization_spec (literal "team") (literal "k3y")
                         ltac:(repeat constructor; lia)
                         ltac:(repeat constructor; lia)))).
  repeat constructor; lia.
Defined.

(** X11. The header carries the credentials without loss: decoding its
    Base64 text and then its UTF-8 bytes gives back [username:auth_key],
    and when the username holds no colon, splitting at the first colon
    gives back the two texts. *)
Theorem decode_encode_authorization (username auth_key : list Z) :
  is_str username → is_str auth_key →
  ¬ Exists surrogate (username ++ auth_key) →
  ∃ header, encode_authorization username auth_key = Coded header
            ∧ decode_authorization header = Some (username ++ 58 :: auth_key)
            ∧ (¬ In 58 username →
               decode_authorization header ≫= split_colon
               = Some (username, auth_key)).
Proof.
  intros Hu Hk Hns.
  assert (Hstr : is_str (username ++ 58 :: auth_key)).
  { apply Forall_app. split; [exact Hu|]. constructor; [lia|exact Hk]. }
  destruct (bytes_decode_str_encode _ Hstr) as (bs & Hbs & Hbytes & Hdec).
  { intros H. apply Hns. now apply Exists_surrogate_colon. }
  exists (b64encode bs). split; [now apply encode_authorization_run|].
  assert (Hback : decode_authorization (b64encode bs)
                  = Some (username ++ 58 :: auth_key)).
  { unfold decode_authorization.
    rewrite (str_encode_ascii _ (b64encode_ascii bs)).
    rewrite (b64decode_encode bs Hbytes). cbn [mbind option_bind].
    now rewrite Hdec. }
  split; [exact Hback|].
  intros Hcolon. rewrite Hback. cbn [mbind option_bind].
  now apply split_colon_app.
Qed.

Lemma decode_encode_authorization_witness :
  ∃ header, encode_authorization [233; 99] [8364; 58; 128512] = Coded header
            ∧ decode_authorization header = Some ([233; 99] ++ 58 :: [8364; 58; 128512])
            ∧ (¬ In 58 [233; 99] →
               decode_authorization header ≫= split_colon
               = Some ([233; 99], [8364; 58; 128512])).
Proof.
  apply decode_encode_authorization.
  - repeat constructor; lia.
  - repeat constructor; lia.
  - intros H. cbn [app] in H.
    repeat (apply Exists_cons in H as [H|H]; [unfold surrogate in H; lia|]).
    now apply Exists_nil in H.
Defined.

(** * Absent scores and the float range *)

(** ** Ints in the float range *)












(** ** Match processing returns *)










(** ** Zero enters the sum and the update *)






(** ** The quotient of two ints *)








(** ** The baseline returns *)




(** ** An absent score is zero *)


